(** * dfir-assistant: the ingestion pipeline (chunker.py, preprocessor.py,
    pdf_extractor.py)

    A shallow embedding of the hierarchical chunker, of the contextual
    preprocessor and of the computations of the PDF extractors, with the
    properties of the specification stated and
    settled against it.

    Python [str] values are lists of characters; the characters are the
    code points below 256 ([ascii]).  Python [int] values are [Z].  A
    [dict] is an association list in insertion order.  The one unbounded
    loop of the program ([while start < len(text)] in [_force_split]) is
    run with a step budget: [None] means the budget ran out. *)

From Stdlib Require Import Floats.PrimFloat.
From Stdlib Require Uint63.
From Stdlib Require Import Decimal DecimalString DecimalN DecimalZ.
From Stdlib Require Import String Ascii ZArith Lia Bool Arith PeanoNat.
From Stdlib Require Import List Permutation.
Import ListNotations.

Local Open Scope Z_scope.

(* ================================================================== *)
(** ** Python built-ins on [str] and [int] *)

Module Py.

Definition str := list ascii.

Definition lit (s : string) : str := list_ascii_of_string s.

Definition nl : ascii := ascii_of_nat 10.

Definition len {A} (s : list A) : Z := Z.of_nat (length s).

Definition str_eqb (a b : str) : bool :=
  if list_eq_dec ascii_dec a b then true else false.

(** Truthiness of a [str] or of a [list]: [bool(s)]. *)
Definition truthy {A} (s : list A) : bool :=
  match s with [] => false | _ :: _ => true end.

(** Truthiness of an [str | None]. *)
Definition truthy_opt (o : option str) : bool :=
  match o with Some s => truthy s | None => false end.

(** [a or b] on [str | None] values. *)
Definition or_opt (a b : option str) : option str :=
  if truthy_opt a then a else b.

(** [s.startswith(p)] *)
Fixpoint startswith (p s : str) : bool :=
  match p, s with
  | [], _ => true
  | _ :: _, [] => false
  | a :: p', b :: s' => Ascii.eqb a b && startswith p' s'
  end.

(** [s.endswith(p)] *)
Definition endswith (p s : str) : bool := startswith (rev p) (rev s).

(** Offset of the first occurrence of [sub] in [s]. *)
Fixpoint index_of (sub s : str) : option nat :=
  if startswith sub s then Some O
  else match s with
       | [] => None
       | _ :: s' => option_map S (index_of sub s')
       end.

(** [s.find(sub)] *)
Definition find (sub s : str) : Z :=
  match index_of sub s with Some i => Z.of_nat i | None => -1 end.

(** [sub in s] *)
Definition contains (sub s : str) : bool :=
  match index_of sub s with Some _ => true | None => false end.

(** A slice bound brought into [0, len]: negative bounds count from the end. *)
Definition adjust (i : Z) (n : nat) : nat :=
  if i <? 0 then Z.to_nat (Z.max (i + Z.of_nat n) 0)
  else Nat.min (Z.to_nat i) n.

(** [s[a:b]] *)
Definition slice (s : str) (a b : Z) : str :=
  let lo := adjust a (length s) in
  let hi := adjust b (length s) in
  skipn lo (firstn hi s).

(** [s[a:]] *)
Definition slice_from (s : str) (a : Z) : str :=
  skipn (adjust a (length s)) s.

(** [s[:b]] *)
Definition slice_to (s : str) (b : Z) : str :=
  firstn (adjust b (length s)) s.

(** Highest offset [>= i] at which [sub] starts in [s], the head of [s]
    standing at offset [i]. *)
Fixpoint rindex_from (sub s : str) (i : nat) : option nat :=
  match s with
  | [] => if startswith sub [] then Some i else None
  | _ :: s' =>
      match rindex_from sub s' (S i) with
      | Some j => Some j
      | None => if startswith sub s then Some i else None
      end
  end.

(** [s.rfind(sub, a, b)]: the bounds are read as those of a slice, but
    a start beyond the end is left there. *)
Definition rfind (sub s : str) (a b : Z) : Z :=
  let lo := if a <? 0 then adjust a (length s) else Z.to_nat a in
  let hi := adjust b (length s) in
  if (hi <? lo)%nat then -1
  else match rindex_from sub (skipn lo (firstn hi s)) lo with
       | Some j => Z.of_nat j
       | None => -1
       end.

(** [s.count(sub)]: occurrences from left to right, none overlapping.
    [skip] characters of a counted occurrence are still to be passed. *)
Fixpoint count_from (sub s : str) (skip : nat) : nat :=
  match s with
  | [] => O
  | _ :: s' =>
      match skip with
      | S k => count_from sub s' k
      | O => if startswith sub s
             then S (count_from sub s' (length sub - 1))
             else count_from sub s' O
      end
  end.

Definition count (sub s : str) : Z :=
  match sub with
  | [] => len s + 1
  | _ :: _ => Z.of_nat (count_from sub s O)
  end.

(** [s.replace(old, new)] *)
Fixpoint replace_from (old new s : str) (skip : nat) : str :=
  match s with
  | [] => []
  | c :: s' =>
      match skip with
      | S k => replace_from old new s' k
      | O => if startswith old s
             then new ++ replace_from old new s' (length old - 1)
             else c :: replace_from old new s' O
      end
  end.

Definition replace (old new s : str) : str :=
  match old with
  | [] => new ++ flat_map (fun c => c :: new) s
  | _ :: _ => replace_from old new s O
  end.

(** [s.replace(old, new, 1)] *)
Fixpoint replace_first (old new s : str) : str :=
  if startswith old s then new ++ skipn (length old) s
  else match s with
       | [] => []
       | c :: s' => c :: replace_first old new s'
       end.

(** [s.split(sep)] for a non-empty [sep]. *)
Fixpoint split_from (sep s : str) (skip : nat) : list str :=
  match s with
  | [] => [[]]
  | c :: s' =>
      match skip with
      | S k => split_from sep s' k
      | O => if startswith sep s
             then [] :: split_from sep s' (length sep - 1)
             else match split_from sep s' O with
                  | p :: ps => (c :: p) :: ps
                  | [] => [[c]]
                  end
      end
  end.

Definition split (s sep : str) : list str := split_from sep s O.

(** [c.isspace()] for the code points below 256; it is also the class
    [\s] of [re] on [str] patterns. *)
Definition isspace (c : ascii) : bool :=
  let n := nat_of_ascii c in
  ((9 <=? n) && (n <=? 13) || (28 <=? n) && (n <=? 32)
   || (n =? 133) || (n =? 160))%nat.

Fixpoint lstrip (s : str) : str :=
  match s with
  | c :: s' => if isspace c then lstrip s' else s
  | [] => []
  end.

Definition rstrip (s : str) : str := rev (lstrip (rev s)).

(** [s.strip()] *)
Definition strip (s : str) : str := lstrip (rstrip s).

(** [c.lower()] for the code points below 256. *)
Definition lower_char (c : ascii) : ascii :=
  let n := nat_of_ascii c in
  if ((65 <=? n) && (n <=? 90)
      || (192 <=? n) && (n <=? 222) && negb (n =? 215))%nat
  then ascii_of_nat (n + 32) else c.

Definition lower (s : str) : str := map lower_char s.

(** [sep.join(parts)] *)
Fixpoint join (sep : str) (parts : list str) : str :=
  match parts with
  | [] => []
  | [p] => p
  | p :: ps => p ++ sep ++ join sep ps
  end.

(** [str(i)], also [f"{i}"]. *)
Definition str_of_int (i : Z) : str :=
  lit (NilZero.string_of_int (Z.to_int i)).

(** [f"{i:04d}"]: sign first, then zeros up to four characters in all. *)
Definition format_04d (i : Z) : str :=
  let digits := lit (NilZero.string_of_uint (N.to_uint (Z.to_N (Z.abs i)))) in
  if i <? 0
  then lit "-" ++ repeat "0"%char (3 - length digits) ++ digits
  else repeat "0"%char (4 - length digits) ++ digits.

(** [sorted(d.items())] for a [dict[int, int]]: tuples compare
    lexicographically. *)
Definition item_leb (a b : Z * Z) : bool :=
  (fst a <? fst b) || ((fst a =? fst b) && (snd a <=? snd b)).

Fixpoint insert_item (a : Z * Z) (l : list (Z * Z)) : list (Z * Z) :=
  match l with
  | [] => [a]
  | b :: l' => if item_leb a b then a :: l else b :: insert_item a l'
  end.

Fixpoint sorted (l : list (Z * Z)) : list (Z * Z) :=
  match l with
  | [] => []
  | a :: l' => insert_item a (sorted l')
  end.

(** A [dict[str, str]] in insertion order; [d[k] = v]. *)
Definition dict := list (str * str).

Fixpoint dict_set (d : dict) (k v : str) : dict :=
  match d with
  | [] => [(k, v)]
  | (k', v') :: d' =>
      if str_eqb k k' then (k, v) :: d' else (k', v') :: dict_set d' k v
  end.

(** [range(start, stop, step)] with [step > 0]; [fuel] bounds the number
    of elements. *)
Fixpoint range_up (fuel : nat) (pos stop step : Z) : list Z :=
  match fuel with
  | O => []
  | S fuel' =>
      if pos <? stop then pos :: range_up fuel' (pos + step) stop step
      else []
  end.

(** The same with [step < 0]. *)
Fixpoint range_down (fuel : nat) (pos stop step : Z) : list Z :=
  match fuel with
  | O => []
  | S fuel' =>
      if stop <? pos then pos :: range_down fuel' (pos + step) stop step
      else []
  end.

(** [list(range(start, stop, step))]; [None] is the [ValueError] of a
    zero step.  A range has at most [|stop - start|] elements. *)
Definition range (start stop step : Z) : option (list Z) :=
  if step =? 0 then None
  else if 0 <? step
       then Some (range_up (Z.to_nat (stop - start)) start stop step)
       else Some (range_down (Z.to_nat (start - stop)) start stop step).

(** [d[k] = v] on a [dict[int, int]] in insertion order. *)
Fixpoint item_set (d : list (Z * Z)) (k v : Z) : list (Z * Z) :=
  match d with
  | [] => [(k, v)]
  | (k', v') :: d' =>
      if k =? k' then (k, v) :: d' else (k', v') :: item_set d' k v
  end.

End Py.

Import Py.

(* ================================================================== *)
(** ** ingestion/models.py *)

Module Models.

Record Document := {
  title : str;
  file_path : str;
  total_pages : Z;
  chapters : list str
}.

(** [page_markers] is a [dict[int, int]]: page number to character
    position, in insertion order. *)
Record ExtractedContent := {
  document : Document;
  markdown_content : str;
  page_markers : list (Z * Z)
}.

Record Chunk := {
  chunk_id : str;
  content : str;
  contextual_prefix : str;
  source_type : str;
  book_title : str;
  chapter : option str;
  section : option str;
  page : option Z;
  chunk_index : Z
}.

End Models.

Import Models.

(* ================================================================== *)
(** ** ingestion/chunker.py *)

Module Chunker.

Record ChunkingConfig := {
  chunk_size : Z;
  chunk_overlap : Z;
  min_chunk_size : Z
}.

(** [ChunkingConfig()] *)
Definition default_config : ChunkingConfig :=
  {| chunk_size := 512; chunk_overlap := 100; min_chunk_size := 100 |}.

Definition chunk_size_chars (c : ChunkingConfig) : Z := chunk_size c * 4.
Definition chunk_overlap_chars (c : ChunkingConfig) : Z := chunk_overlap c * 4.
Definition min_chunk_size_chars (c : ChunkingConfig) : Z := min_chunk_size c * 4.

(** What a constructor call comes to: the object, or the exception raised. *)
Inductive outcome (A : Type) : Type :=
| Returned (a : A)
| Raised (exc : str).
Arguments Returned {A} a.
Arguments Raised {A} exc.

(** [ChunkingConfig(chunk_size, chunk_overlap, min_chunk_size)]: the
    [__init__] a dataclass generates stores its arguments; the class has
    no [__post_init__]. *)
Definition ChunkingConfig_init (size overlap min_size : Z)
  : outcome ChunkingConfig :=
  Returned {| chunk_size := size; chunk_overlap := overlap;
              min_chunk_size := min_size |}.

Record ChunkMetadata := {
  md_chapter : option str;
  md_section : option str;
  md_subsection : option str;
  md_page : option Z;
  has_code : bool;
  has_table : bool;
  has_command : bool
}.

Record ChunkQualityMetrics := {
  is_complete_sentence : bool;
  has_split_code_block : bool;
  has_split_table : bool;
  has_garbage_chars : bool;
  quality_score : PrimFloat.float;
  issues : list str
}.

Record HierarchicalChunker := { config : ChunkingConfig }.

(** [HierarchicalChunker(config)]: [self.config = config or ChunkingConfig()];
    a dataclass instance is always true. *)
Definition HierarchicalChunker_init (cfg : option ChunkingConfig)
  : outcome HierarchicalChunker :=
  Returned {| config := match cfg with
                        | Some c => c
                        | None => default_config
                        end |}.

Definition SEPARATORS : list str :=
  [ nl :: lit "## ";
    nl :: lit "### ";
    nl :: lit "#### ";
    nl :: lit "```";
    [nl; nl];
    [nl];
    lit " " ].

(** *** Regular expressions *)

(** [finditer]: matches from left to right, none overlapping; [m s] is
    the match of the pattern that starts at the head of [s], if any.
    Neither pattern of the chunker matches the empty string. *)
Fixpoint finditer_from (m : str -> option str) (s : str) (skip : nat)
  : list str :=
  match s with
  | [] => []
  | _ :: s' =>
      match skip with
      | S k => finditer_from m s' k
      | O => match m s with
             | Some g => g :: finditer_from m s' (length g - 1)
             | None => finditer_from m s' O
             end
      end
  end.

Definition finditer (m : str -> option str) (s : str) : list str :=
  finditer_from m s O.

Definition fence : str := lit "```".

(** [CODE_BLOCK_PATTERN], three backquotes, [[\s\S]*?], three backquotes:
    an opening fence and everything up to the nearest closing fence. *)
Definition CODE_BLOCK_PATTERN (s : str) : option str :=
  if startswith fence s then
    match index_of fence (skipn 3 s) with
    | Some j => Some (firstn (3 + j + 3) s)
    | None => None
    end
  else None.

(** One row [\|[^\n]+\|\n] at the head of [s]: its length.  The row runs
    to the first newline, which a bar must precede, with at least one
    character between the two bars. *)
Definition table_row (s : str) : option nat :=
  match s with
  | "|"%char :: rest =>
      match index_of [nl] rest with
      | Some q =>
          if (2 <=? q)%nat && startswith (lit "|") (skipn (q - 1) rest)
          then Some (q + 2)%nat else None
      | None => None
      end
  | _ => None
  end.

(** Length of the longest run of rows at the head of [s]. *)
Fixpoint table_rows (fuel : nat) (s : str) : nat :=
  match fuel with
  | O => O
  | S fuel' =>
      match table_row s with
      | Some r => (r + table_rows fuel' (skipn r s))%nat
      | None => O
      end
  end.

(** [TABLE_PATTERN], [(\|[^\n]+\|\n)+] *)
Definition TABLE_PATTERN (s : str) : option str :=
  match table_rows (length s) s with
  | O => None
  | S n => Some (firstn (S n) s)
  end.

(** [(.+?)$] under [re.MULTILINE] at the head of [s]: the rest of the
    line, which must not be empty. *)
Fixpoint line_rest (s : str) : str :=
  match s with
  | c :: s' => if Ascii.eqb c nl then [] else c :: line_rest s'
  | [] => []
  end.

Definition header_title (s : str) : option str :=
  match line_rest s with
  | [] => None
  | g => Some g
  end.

(** [\s*(.+?)$]: the white space is taken greedily and given back one
    character at a time while the title does not match. *)
Fixpoint header_tail (s : str) : option str :=
  match s with
  | c :: s' =>
      if isspace c then
        match header_tail s' with
        | Some g => Some g
        | None => header_title s
        end
      else header_title s
  | [] => None
  end.

(** [hashes\s+(.+?)$] at the head of [s]: group 1. *)
Definition header_at (hashes s : str) : option str :=
  if startswith hashes s then
    match skipn (length hashes) s with
    | c :: s' => if isspace c then header_tail s' else None
    | [] => None
    end
  else None.

(** [re.search(r'^hashes\s+(.+?)$', s, re.MULTILINE)]: group 1 of the
    first match; [bol] says that the head of [s] starts a line. *)
Fixpoint search_header (hashes s : str) (bol : bool) : option str :=
  match (if bol then header_at hashes s else None) with
  | Some g => Some g
  | None =>
      match s with
      | [] => None
      | c :: s' => search_header hashes s' (Ascii.eqb c nl)
      end
  end.

(** [vol\.py|vol\s+-f|volatility] at the head of [s]. *)
Fixpoint skip_spaces_then (p s : str) : bool :=
  match s with
  | c :: s' =>
      if isspace c then skip_spaces_then p s' || startswith p s
      else startswith p s
  | [] => startswith p s
  end.

Definition command_at (s : str) : bool :=
  startswith (lit "vol.py") s
  || (startswith (lit "vol") s &&
      match skipn 3 s with
      | c :: s' => isspace c && skip_spaces_then (lit "-f") s'
      | [] => false
      end)
  || startswith (lit "volatility") s.

Fixpoint search_bool (m : str -> bool) (s : str) : bool :=
  m s || match s with [] => false | _ :: s' => search_bool m s' end.

(** [[\x00-\x08\x0b\x0c\x0e-\x1f\x7f-\x9f]] *)
Definition garbage_char (c : ascii) : bool :=
  let n := nat_of_ascii c in
  ((n <=? 8) || (n =? 11) || (n =? 12)
   || (14 <=? n) && (n <=? 31) || (127 <=? n) && (n <=? 159))%nat.

(** *** HierarchicalChunker *)

(** [f"__CODE_BLOCK_{i}__"] and [f"__TABLE_{i}__"] *)
Definition code_placeholder (i : nat) : str :=
  lit "__CODE_BLOCK_" ++ str_of_int (Z.of_nat i) ++ lit "__".

Definition table_placeholder (i : nat) : str :=
  lit "__TABLE_" ++ str_of_int (Z.of_nat i) ++ lit "__".

(** [for i, match in enumerate(matches)]: the matches were found in the
    text as it was when the loop began; each is replaced, at its first
    occurrence in the text as it is now, by its placeholder. *)
Fixpoint protect_loop (placeholder : nat -> str) (matches : list str)
    (i : nat) (text : str) (protected_blocks : dict) : str * dict :=
  match matches with
  | [] => (text, protected_blocks)
  | m :: rest =>
      protect_loop placeholder rest (S i)
        (replace_first m (placeholder i) text)
        (dict_set protected_blocks (placeholder i) m)
  end.

Definition _protect_content (text : str) : str * dict :=
  let '(text, protected_blocks) :=
    protect_loop code_placeholder (finditer CODE_BLOCK_PATTERN text)
      O text [] in
  protect_loop table_placeholder (finditer TABLE_PATTERN text)
    O text protected_blocks.

Fixpoint _restore_content (text : str) (protected_blocks : dict) : str :=
  match protected_blocks with
  | [] => text
  | (placeholder, original) :: rest =>
      _restore_content (replace placeholder original text) rest
  end.

(** The [while] loop of [_force_split]; [fuel] bounds its iterations. *)
Fixpoint force_split_loop (fuel : nat) (text : str) (chunk_size overlap : Z)
    (start : Z) (chunks : list str) : option (list str) :=
  match fuel with
  | O => None
  | S fuel' =>
      if start <? len text then
        let end_ := Z.min (start + chunk_size) (len text) in
        let end_ :=
          if end_ <? len text then
            let last_space := rfind (lit " ") text start end_ in
            if last_space >? start then last_space else end_
          else end_ in
        force_split_loop fuel' text chunk_size overlap
          (if overlap >? 0 then end_ - overlap else end_)
          (chunks ++ [slice text start end_])
      else Some chunks
  end.

Definition _force_split (fuel : nat) (text : str) (chunk_size overlap : Z)
  : option (list str) :=
  force_split_loop fuel text chunk_size overlap 0 [].

(** A finished [current_chunk] goes to [chunks]: split further when it
    is still too large. *)
Definition close_chunk (recur : str -> option (list str)) (chunk_size : Z)
    (chunks : list str) (current_chunk : str) : option (list str) :=
  if truthy current_chunk then
    if len current_chunk >? chunk_size then
      match recur current_chunk with
      | Some more => Some (chunks ++ more)
      | None => None
      end
    else Some (chunks ++ [current_chunk])
  else Some chunks.

(** [for i, split in enumerate(splits)] of [_recursive_split]; [recur]
    is [_recursive_split] on the remaining separators. *)
Fixpoint merge_splits (recur : str -> option (list str)) (separator : str)
    (chunk_size overlap : Z) (splits : list str) (i : nat)
    (chunks : list str) (current_chunk : str) : option (list str * str) :=
  match splits with
  | [] => Some (chunks, current_chunk)
  | split :: rest =>
      let split := if (0 <? i)%nat then separator ++ split else split in
      if len current_chunk + len split <=? chunk_size then
        merge_splits recur separator chunk_size overlap rest (S i)
          chunks (current_chunk ++ split)
      else
        match close_chunk recur chunk_size chunks current_chunk with
        | None => None
        | Some chunks =>
            let current_chunk := split in
            let current_chunk :=
              if truthy chunks && (overlap >? 0) then
                let prev_chunk := last chunks [] in
                let overlap_text :=
                  if len prev_chunk >? overlap
                  then slice_from prev_chunk (- overlap)
                  else prev_chunk in
                overlap_text ++ current_chunk
              else current_chunk in
            merge_splits recur separator chunk_size overlap rest (S i)
              chunks current_chunk
        end
  end.

Fixpoint _recursive_split (fuel : nat) (separators : list str) (text : str)
    (chunk_size overlap : Z) : option (list str) :=
  match separators with
  | [] => _force_split fuel text chunk_size overlap
  | separator :: remaining_separators =>
      let recur := fun t =>
        _recursive_split fuel remaining_separators t chunk_size overlap in
      let splits := split text separator in
      if (length splits =? 1)%nat then recur text
      else
        match merge_splits recur separator chunk_size overlap splits O
                [] [] with
        | None => None
        | Some (chunks, current_chunk) =>
            close_chunk recur chunk_size chunks current_chunk
        end
  end.

Definition _extract_metadata (chunk : str) : ChunkMetadata :=
  {| md_chapter := option_map strip (search_header (lit "#") chunk true);
     md_section := option_map strip (search_header (lit "##") chunk true);
     md_subsection :=
       option_map strip (search_header (lit "###") chunk true);
     md_page := None;
     has_code := contains fence chunk;
     has_table :=
       contains (lit "|---|") chunk || contains (lit "| --- |") chunk;
     has_command := search_bool command_at (lower chunk) |}.

Fixpoint estimate_loop (position : Z) (items : list (Z * Z))
    (current_page : Z) : Z :=
  match items with
  | [] => current_page
  | (page, marker_pos) :: rest =>
      if position >=? marker_pos then estimate_loop position rest page
      else current_page
  end.

Definition _estimate_page (position : Z) (page_markers : list (Z * Z))
  : option Z :=
  match page_markers with
  | [] => None
  | _ :: _ => Some (estimate_loop position (sorted page_markers) 1)
  end.

Definition _build_contextual_prefix (book_title : str)
    (chapter section : option str) : str :=
  let parts := [lit "Source: " ++ book_title] in
  let parts :=
    match chapter with
    | Some c => if truthy c then parts ++ [lit "Chapter: " ++ c] else parts
    | None => parts
    end in
  let parts :=
    match section with
    | Some s => if truthy s then parts ++ [lit "Section: " ++ s] else parts
    | None => parts
    end in
  let parts := parts ++ [lit "---"] in
  join [nl] parts ++ [nl].

(** [f"{title.lower().replace(' ', '_')}_{chunk_index:04d}"] *)
Definition make_chunk_id (title : str) (chunk_index : Z) : str :=
  replace (lit " ") (lit "_") (lower title) ++ lit "_"
  ++ format_04d chunk_index.

(** [for raw_chunk in raw_chunks] of [chunk_content]: the chunks yielded,
    in order. *)
Fixpoint emit_chunks (self : HierarchicalChunker) (content : ExtractedContent)
    (protected_blocks : dict) (raw_chunks : list str) (chunk_index : Z)
    (current_chapter current_section : option str) : list Chunk :=
  match raw_chunks with
  | [] => []
  | raw_chunk :: rest =>
      let restored_chunk := _restore_content raw_chunk protected_blocks in
      if len (strip restored_chunk) <? min_chunk_size_chars (config self)
      then emit_chunks self content protected_blocks rest chunk_index
             current_chapter current_section
      else
        let metadata := _extract_metadata restored_chunk in
        let current_chapter :=
          if truthy_opt (md_chapter metadata) then md_chapter metadata
          else current_chapter in
        let current_section :=
          if truthy_opt (md_section metadata) then md_section metadata
          else current_section in
        let chunk_start :=
          if len restored_chunk >? 100
          then find (slice_to restored_chunk 100) (markdown_content content)
          else 0 in
        let page := _estimate_page chunk_start (page_markers content) in
        let title := title (document content) in
        let chapter := or_opt current_chapter (md_chapter metadata) in
        let section := or_opt current_section (md_section metadata) in
        {| chunk_id := make_chunk_id title chunk_index;
           content := strip restored_chunk;
           contextual_prefix :=
             _build_contextual_prefix title chapter section;
           source_type := lit "book";
           book_title := title;
           chapter := chapter;
           section := section;
           page := page;
           chunk_index := chunk_index |}
        :: emit_chunks self content protected_blocks rest (chunk_index + 1)
             current_chapter current_section
  end.

(** The segments [chunk_content] iterates over, with the block map. *)
Definition raw_chunks_of (self : HierarchicalChunker) (fuel : nat)
    (content : ExtractedContent) : option (list str) * dict :=
  let '(protected_text, protected_blocks) :=
    _protect_content (markdown_content content) in
  (_recursive_split fuel SEPARATORS protected_text
     (chunk_size_chars (config self)) (chunk_overlap_chars (config self)),
   protected_blocks).

(** [list(self.chunk_content(content))] *)
Definition chunk_content (self : HierarchicalChunker) (fuel : nat)
    (content : ExtractedContent) : option (list Chunk) :=
  let '(raw_chunks, protected_blocks) := raw_chunks_of self fuel content in
  match raw_chunks with
  | None => None
  | Some raw_chunks =>
      Some (emit_chunks self content protected_blocks raw_chunks 0 None None)
  end.

#[local] Set Warnings "-inexact-float".

(** [score -= w] when [flag]. *)
Definition deduct (flag : bool) (w score : PrimFloat.float)
  : PrimFloat.float :=
  if flag then PrimFloat.sub score w else score.

(** [max(0.0, score)] *)
Definition max_zero (score : PrimFloat.float) : PrimFloat.float :=
  if PrimFloat.ltb 0%float score then score else 0%float.

Definition validate_chunk (chunk : Chunk) : ChunkQualityMetrics :=
  let content := Models.content chunk in
  let incomplete :=
    truthy content
    && negb (existsb (fun suffix => endswith suffix (rstrip content))
               [lit "."; lit "!"; lit "?"; lit ":"; fence; lit "|"]) in
  let code_markers := count fence content in
  let split_code := negb (code_markers mod 2 =? 0) in
  let split_table :=
    startswith (lit "|") (strip content)
    && negb (contains (lit "|---|") content) in
  let garbage := existsb garbage_char content in
  let score := 1%float in
  let score := deduct incomplete 0.1%float score in
  let score := deduct split_code 0.3%float score in
  let score := deduct split_table 0.2%float score in
  let score := deduct garbage 0.2%float score in
  {| is_complete_sentence := negb incomplete;
     has_split_code_block := split_code;
     has_split_table := split_table;
     has_garbage_chars := garbage;
     quality_score := max_zero score;
     issues :=
       (if incomplete then [lit "Chunk may end mid-sentence"] else [])
       ++ (if split_code then [lit "Code block may be split"] else [])
       ++ (if split_table then [lit "Table may be split"] else [])
       ++ (if garbage then [lit "Contains garbage characters"] else []) |}.

(** *** ChunkValidator *)

Record ChunkValidator := { chunker : HierarchicalChunker }.

(** [ChunkValidator(chunker)]: [self.chunker = chunker or
    HierarchicalChunker()]. *)
Definition ChunkValidator_init (c : option HierarchicalChunker)
  : ChunkValidator :=
  {| chunker := match c with
                | Some c => c
                | None => {| config := default_config |}
                end |}.

(** One entry of the report's issue list. *)
Record IssueEntry := {
  entry_chunk_id : str;
  entry_issues : list str;
  entry_score : PrimFloat.float
}.

(** An [int] or a [float]. *)
Inductive py_number : Type :=
| PyInt (z : Z)
| PyFloat (f : PrimFloat.float).

(** The dict [validate_chunks] returns, by key. *)
Record QualityReport := {
  total_chunks : Z;
  average_quality_score : PrimFloat.float;
  chunks_with_issues : Z;
  issue_rate : py_number;
  report_issues : list IssueEntry;
  passed : bool
}.

(** [float(n)] for the length of a list. *)
Definition float_of_len (n : Z) : PrimFloat.float :=
  PrimFloat.of_uint63 (Uint63.of_Z n).

(** [for chunk in chunks] of [validate_chunks]: the issue list and the
    sum of the scores. *)
Fixpoint validate_loop (chunks : list Chunk) (issues : list IssueEntry)
    (total_score : PrimFloat.float) : list IssueEntry * PrimFloat.float :=
  match chunks with
  | [] => (issues, total_score)
  | chunk :: rest =>
      let metrics := validate_chunk chunk in
      let total_score := PrimFloat.add total_score (quality_score metrics) in
      let issues :=
        if truthy (Chunker.issues metrics)
        then issues ++ [{| entry_chunk_id := chunk_id chunk;
                           entry_issues := Chunker.issues metrics;
                           entry_score := quality_score metrics |}]
        else issues in
      validate_loop rest issues total_score
  end.

Section Round.

(** The built-in [round(x, ndigits)] on a [float]. *)
Variable round : PrimFloat.float -> Z -> PrimFloat.float.

Definition validate_chunks (self : ChunkValidator) (chunks : list Chunk)
  : QualityReport :=
  let total := len chunks in
  let '(issues, total_score) := validate_loop chunks [] 0%float in
  let avg_score :=
    if total >? 0 then PrimFloat.div total_score (float_of_len total)
    else 0%float in
  {| total_chunks := total;
     average_quality_score := round avg_score 3;
     chunks_with_issues := len issues;
     issue_rate :=
       if total >? 0
       then PyFloat
              (round (PrimFloat.mul
                        (PrimFloat.div (float_of_len (len issues))
                           (float_of_len total))
                        100%float) 1)
       else PyInt 0;
     report_issues := firstn 20 issues;
     passed := PrimFloat.leb 0.9%float avg_score |}.

End Round.

(** [get_chunker(config)] *)
Definition get_chunker (cfg : option ChunkingConfig)
  : outcome HierarchicalChunker :=
  HierarchicalChunker_init cfg.

End Chunker.

(* ================================================================== *)
(** ** ingestion/preprocessor.py *)

Module Preprocessor.

Record ContextualConfig := {
  include_source : bool;
  include_chapter : bool;
  include_section : bool;
  include_page : bool;
  separator : str;
  max_context_length : Z
}.

(** [ContextualConfig()] *)
Definition default_config : ContextualConfig :=
  {| include_source := true; include_chapter := true;
     include_section := true; include_page := false;
     separator := lit "---"; max_context_length := 200 |}.

Record ContextualPreprocessor := { config : ContextualConfig }.

Definition _get_source_label (source_type : str) : str :=
  if str_eqb source_type (lit "book") then lit "Source"
  else if str_eqb source_type (lit "doc") then lit "Document"
  else if str_eqb source_type (lit "org") then lit "Organization Knowledge"
  else if str_eqb source_type (lit "procedure") then lit "Procedure"
  else lit "Source".

Definition build_contextual_prefix (self : ContextualPreprocessor)
    (source chapter section : option str) (page : option Z)
    (source_type : str) : str :=
  let cfg := config self in
  let parts := [] in
  let parts :=
    match source with
    | Some s =>
        if include_source cfg && truthy s
        then parts ++ [_get_source_label source_type ++ lit ": " ++ s]
        else parts
    | None => parts
    end in
  let parts :=
    match chapter with
    | Some c =>
        if include_chapter cfg && truthy c
        then parts ++ [lit "Chapter: " ++ c] else parts
    | None => parts
    end in
  let parts :=
    match section with
    | Some s =>
        if include_section cfg && truthy s
        then parts ++ [lit "Section: " ++ s] else parts
    | None => parts
    end in
  let parts :=
    match page with
    | Some p =>
        if include_page cfg && negb (p =? 0)
        then parts ++ [lit "Page: " ++ str_of_int p] else parts
    | None => parts
    end in
  match parts with
  | [] => []
  | _ :: _ =>
      let prefix := join [nl] parts in
      let prefix :=
        if len prefix >? max_context_length cfg
        then slice_to prefix (max_context_length cfg - 3) ++ lit "..."
        else prefix in
      prefix ++ [nl] ++ separator cfg ++ [nl]
  end.

(** The value [preprocess_chunk] returns. *)
Definition preprocess_chunk (self : ContextualPreprocessor) (chunk : Chunk)
  : Chunk :=
  if truthy (contextual_prefix chunk) then chunk
  else
    let prefix :=
      build_contextual_prefix self (Some (book_title chunk))
        (chapter chunk) (section chunk) (page chunk) (source_type chunk) in
    {| chunk_id := chunk_id chunk;
       content := content chunk;
       contextual_prefix := prefix;
       source_type := source_type chunk;
       book_title := book_title chunk;
       chapter := chapter chunk;
       section := section chunk;
       page := page chunk;
       chunk_index := chunk_index chunk |}.

(** The objects alive, by address; [Chunk(...)] allocates a new one. *)
Definition heap := list Chunk.

(** [preprocess_chunk] on objects: the argument and the result are
    addresses.  With a prefix already there the argument itself is
    returned; otherwise a new object is built and the old one is left
    as it was. *)
Definition preprocess_chunk_obj (self : ContextualPreprocessor) (h : heap)
    (chunk : nat) : option (heap * nat) :=
  match nth_error h chunk with
  | None => None
  | Some c =>
      if truthy (contextual_prefix c) then Some (h, chunk)
      else Some (h ++ [preprocess_chunk self c], length h)
  end.

(** [ContextualPreprocessor(config)]: [self.config = config or
    ContextualConfig()]. *)
Definition ContextualPreprocessor_init (cfg : option ContextualConfig)
  : ContextualPreprocessor :=
  {| config := match cfg with
               | Some c => c
               | None => default_config
               end |}.

(** [list(self.preprocess_chunks(chunks))] *)
Fixpoint preprocess_chunks (self : ContextualPreprocessor)
    (chunks : list Chunk) : list Chunk :=
  match chunks with
  | [] => []
  | chunk :: rest =>
      preprocess_chunk self chunk :: preprocess_chunks self rest
  end.

Definition get_text_for_embedding (self : ContextualPreprocessor)
    (chunk : Chunk) : str :=
  let prefix :=
    if truthy (contextual_prefix chunk) then contextual_prefix chunk
    else build_contextual_prefix self (Some (book_title chunk))
           (chapter chunk) (section chunk) (page chunk)
           (source_type chunk) in
  prefix ++ content chunk.

(** The dict [_stats], by key. *)
Record Stats := {
  total_processed : Z;
  with_existing_prefix : Z;
  prefix_added : Z
}.

Record BatchPreprocessor := {
  preprocessor : ContextualPreprocessor;
  _stats : Stats
}.

Definition no_stats : Stats :=
  {| total_processed := 0; with_existing_prefix := 0; prefix_added := 0 |}.

(** [BatchPreprocessor(preprocessor)] *)
Definition BatchPreprocessor_init (p : option ContextualPreprocessor)
  : BatchPreprocessor :=
  {| preprocessor := match p with
                     | Some p => p
                     | None => ContextualPreprocessor_init None
                     end;
     _stats := no_stats |}.

(** [for chunk in chunks] of [process_batch]: the list built and the
    object as the loop leaves it. *)
Fixpoint process_batch_loop (self : BatchPreprocessor) (chunks : list Chunk)
    (update_stats : bool) (processed : list Chunk)
  : list Chunk * BatchPreprocessor :=
  match chunks with
  | [] => (processed, self)
  | chunk :: rest =>
      let had_prefix := truthy (contextual_prefix chunk) in
      let processed_chunk := preprocess_chunk (preprocessor self) chunk in
      let processed := processed ++ [processed_chunk] in
      let self :=
        if update_stats then
          let st := _stats self in
          {| preprocessor := preprocessor self;
             _stats :=
               {| total_processed := total_processed st + 1;
                  with_existing_prefix :=
                    if had_prefix then with_existing_prefix st + 1
                    else with_existing_prefix st;
                  prefix_added :=
                    if had_prefix then prefix_added st
                    else prefix_added st + 1 |} |}
        else self in
      process_batch_loop self rest update_stats processed
  end.

Definition process_batch (self : BatchPreprocessor) (chunks : list Chunk)
    (update_stats : bool) : list Chunk * BatchPreprocessor :=
  process_batch_loop self chunks update_stats [].

Definition get_embedding_texts (self : BatchPreprocessor)
    (chunks : list Chunk) : list str :=
  map (get_text_for_embedding (preprocessor self)) chunks.

(** The property [stats]: a copy of the dict. *)
Definition stats (self : BatchPreprocessor) : Stats := _stats self.

Definition reset_stats (self : BatchPreprocessor) : BatchPreprocessor :=
  {| preprocessor := preprocessor self; _stats := no_stats |}.

(** [get_preprocessor(config)] and [get_batch_preprocessor()] *)
Definition get_preprocessor (cfg : option ContextualConfig)
  : ContextualPreprocessor :=
  ContextualPreprocessor_init cfg.

Definition get_batch_preprocessor : BatchPreprocessor :=
  BatchPreprocessor_init None.

End Preprocessor.

(* ================================================================== *)
(** ** ingestion/pdf_extractor.py *)

(** The two extractors read a PDF file through [marker] and [fitz]; what
    those libraries hand back is an argument here. *)
Module PdfExtractor.

Import Chunker.

Record ExtractionResult := {
  content : ExtractedContent;
  extractor_used : str;
  code_blocks_found : Z;
  tables_found : Z;
  quality_score : PrimFloat.float
}.

(** [for pos in range(0, len(content), chars_per_page)] *)
Fixpoint markers_loop (positions : list Z) (page : Z)
    (markers : list (Z * Z)) : list (Z * Z) :=
  match positions with
  | [] => markers
  | pos :: rest => markers_loop rest (page + 1) (item_set markers page pos)
  end.

Definition _estimate_page_markers (content : str) (chars_per_page : Z)
  : outcome (list (Z * Z)) :=
  match range 0 (len content) chars_per_page with
  | None => Raised (lit "ValueError")
  | Some positions => Returned (markers_loop positions 1 [])
  end.

(** The match of [^#\s+(.+?)$] at the head of a line: group 1 and the
    length of the match. *)
Definition title_span (s : str) : option (str * nat) :=
  match line_rest s with
  | [] => None
  | g => Some (g, length g)
  end.

Fixpoint tail_span (s : str) : option (str * nat) :=
  match s with
  | c :: s' =>
      if isspace c then
        match tail_span s' with
        | Some (g, n) => Some (g, S n)
        | None => title_span s
        end
      else title_span s
  | [] => None
  end.

Definition header_span (hashes s : str) : option (str * nat) :=
  if startswith hashes s then
    match skipn (length hashes) s with
    | c :: s' =>
        if isspace c then
          match tail_span s' with
          | Some (g, n) => Some (g, (length hashes + 1 + n)%nat)
          | None => None
          end
        else None
    | [] => None
    end
  else None.

(** [re.finditer(r'^hashes\s+(.+?)$', s, re.MULTILINE)]: group 1 of each
    match, from left to right; [bol] says that the head of [s] starts a
    line, [skip] characters of the last match are still to be passed. *)
Fixpoint finditer_header (hashes s : str) (bol : bool) (skip : nat)
  : list str :=
  match s with
  | [] => []
  | c :: s' =>
      match skip with
      | S k => finditer_header hashes s' (Ascii.eqb c nl) k
      | O =>
          match (if bol then header_span hashes s else None) with
          | Some (g, n) =>
              g :: finditer_header hashes s' (Ascii.eqb c nl) (n - 1)
          | None => finditer_header hashes s' (Ascii.eqb c nl) O
          end
      end
  end.

(** [for match in re.finditer(...)] of [_detect_chapters] *)
Fixpoint chapters_loop (groups : list str) (chapters : list str)
  : list str :=
  match groups with
  | [] => chapters
  | g :: rest =>
      let title := strip g in
      chapters_loop rest
        (if len title <? 100 then chapters ++ [title] else chapters)
  end.

Definition _detect_chapters (content : str) : list str :=
  firstn 50 (chapters_loop (finditer_header (lit "#") content true O) []).

(** [MarkerPDFExtractor.extract] from the conversion on: [stem] and
    [path] are [pdf_path.stem] and [str(pdf_path)], [markdown_content] is
    [rendered.markdown]. *)
Definition MarkerPDFExtractor_extract (stem path markdown_content : str)
  : outcome ExtractedContent :=
  match _estimate_page_markers markdown_content 3000 with
  | Raised e => Raised e
  | Returned page_markers =>
      Returned
        {| document :=
             {| title := stem;
                file_path := path;
                total_pages := len page_markers;
                chapters := _detect_chapters markdown_content |};
           Models.markdown_content := markdown_content;
           Models.page_markers := page_markers |}
  end.

Record HybridPDFExtractor := { _last_extractor_used : str }.

(** [HybridPDFExtractor()] *)
Definition HybridPDFExtractor_init : HybridPDFExtractor :=
  {| _last_extractor_used := [] |}.

Section Exceptions.

(** [isinstance(e, Exception)] for the exception a call raises: the
    built-in class hierarchy, taken as given.  [except Exception] catches
    these exceptions and no other: a [KeyboardInterrupt] or a
    [SystemExit] is not an instance of [Exception]. *)
Variable is_exception : str -> bool.

(** [HybridPDFExtractor.extract]: [primary] and [fallback] are what
    [self.primary.extract(pdf_path)] and [self.fallback.extract(pdf_path)]
    come to; the second is only looked at when the first has raised an
    [Exception].  Any other exception of the first, and any exception of
    the second, goes to the caller. *)
Definition HybridPDFExtractor_extract (self : HybridPDFExtractor)
    (primary fallback : outcome ExtractedContent)
  : outcome ExtractedContent * HybridPDFExtractor :=
  match primary with
  | Returned result =>
      (Returned result, {| _last_extractor_used := lit "marker-pdf" |})
  | Raised e =>
      if is_exception e then
        match fallback with
        | Returned result =>
            (Returned result, {| _last_extractor_used := lit "PyMuPDF" |})
        | Raised e' => (Raised e', self)
        end
      else (Raised e, self)
  end.

#[local] Set Warnings "-inexact-float".

(** [min(score, 1.0)] *)
Definition min_one (score : PrimFloat.float) : PrimFloat.float :=
  if PrimFloat.ltb 1%float score then 1%float else score.

Definition extract_with_quality (self : HybridPDFExtractor)
    (primary fallback : outcome ExtractedContent)
  : outcome ExtractionResult * HybridPDFExtractor :=
  match HybridPDFExtractor_extract self primary fallback with
  | (Raised e, self) => (Raised e, self)
  | (Returned content, self) =>
      let code_blocks := count (lit "```") (Models.markdown_content content) in
      let tables := count (lit "|---|") (Models.markdown_content content) in
      let has_structure := len (chapters (document content)) >? 0 in
      let has_code := code_blocks >? 0 in
      let has_tables := tables >? 0 in
      let content_length := len (Models.markdown_content content) in
      let score := 0.5%float in
      let score :=
        if has_structure then PrimFloat.add score 0.2%float else score in
      let score :=
        if has_code then PrimFloat.add score 0.15%float else score in
      let score :=
        if has_tables then PrimFloat.add score 0.15%float else score in
      let score := if content_length >? 10000 then min_one score else score in
      (Returned {| content := content;
                   extractor_used := _last_extractor_used self;
                   code_blocks_found := code_blocks / 2;
                   tables_found := tables;
                   quality_score := score |},
       self)
  end.

End Exceptions.

End PdfExtractor.

(* ================================================================== *)
(** * Vocabulary of the properties *)

Import Chunker.

#[local] Set Warnings "-inexact-float".

(** ** Sizes *)

(** The characters that restoring [text] puts in: the length of a
    protected block for each placeholder occurrence replaced by it. *)
Fixpoint restore_growth (text : str) (protected_blocks : dict) : Z :=
  match protected_blocks with
  | [] => 0
  | (placeholder, original) :: rest =>
      count placeholder text * len original
      + restore_growth (replace placeholder original text) rest
  end.

(** ** The contextual prefix and the validator *)

Definition windows_internals_prefix : str :=
  lit "Source: Windows Internals" ++ [nl]
  ++ lit "Chapter: Memory Management" ++ [nl]
  ++ lit "Section: VAD Trees" ++ [nl]
  ++ lit "---" ++ [nl].

(** The score for each combination of flags. *)
Definition score_of_flags (incomplete split_code split_table garbage : bool)
  : PrimFloat.float :=
  max_zero
    (deduct garbage 0.2%float
       (deduct split_table 0.2%float
          (deduct split_code 0.3%float
             (deduct incomplete 0.1%float 1%float)))).

Definition split_fence_chunk : Chunk :=
  {| chunk_id := lit "doc_0000"; content := lit "see ```vol.py";
     contextual_prefix := []; source_type := lit "book";
     book_title := lit "doc"; chapter := None; section := None;
     page := None; chunk_index := 0 |}.

Definition bare_chunk : Chunk :=
  {| chunk_id := lit "windows_internals_0001";
     content := lit "A VAD tree is a binary tree structure.";
     contextual_prefix := []; source_type := lit "book";
     book_title := lit "Windows Internals";
     chapter := Some (lit "Memory Management");
     section := Some (lit "VAD Trees"); page := Some 123;
     chunk_index := 1 |}.

(** ** The emission loop *)

(** The content a raw segment is emitted with, and whether it is. *)
Definition restored (blocks : dict) (raw : str) : str :=
  strip (_restore_content raw blocks).

Definition kept (self : HierarchicalChunker) (blocks : dict) (raw : str)
  : bool :=
  negb (len (restored blocks raw)
        <? min_chunk_size_chars (Chunker.config self)).

(** The digits of [f"{i:04d}"] read back as a number. *)
Definition read_digits (s : str) : N :=
  match NilEmpty.uint_of_string (string_of_list_ascii s) with
  | Some d => N.of_uint d
  | None => 0%N
  end.

Definition extends (f g : str -> option (list str)) : Prop :=
  forall t r, f t = Some r -> g t = Some r.

(** ** Sample documents *)

(** A small document, chunked with a small configuration (40 characters
    a chunk, 4 of overlap, 4 at least). *)
Definition small_chunker : HierarchicalChunker :=
  {| Chunker.config :=
       {| chunk_size := 10; chunk_overlap := 1; min_chunk_size := 1 |} |}.

Definition sample_document : Document :=
  {| title := lit "Windows Internals"; file_path := lit "wi.pdf";
     total_pages := 2; chapters := [lit "Memory"] |}.

Definition sample_text : str :=
  lit "# Memory" ++ [nl] ++ lit "## VAD Trees" ++ [nl]
  ++ lit "A VAD tree is a binary tree structure." ++ [nl; nl]
  ++ lit "```" ++ [nl] ++ lit "vol.py -f mem.raw windows.vadinfo" ++ [nl]
  ++ lit "```" ++ [nl; nl] ++ lit "ok" ++ [nl; nl]
  ++ lit "Each node describes one range.".

Definition sample_extracted : ExtractedContent :=
  {| document := sample_document; markdown_content := sample_text;
     page_markers := [(2, 60); (1, 0)] |}.

Definition sample_extracted_reordered : ExtractedContent :=
  {| document := sample_document; markdown_content := sample_text;
     page_markers := [(1, 0); (2, 60)] |}.

Definition sample_chunks : list Chunk :=
  Eval vm_compute in
    match chunk_content small_chunker 100 sample_extracted with
    | Some chunks => chunks
    | None => []
    end.

(** Two fenced code blocks of 50 characters each, a space between them;
    chunks of 40 characters, no overlap. *)
Definition two_blocks_text : str :=
  lit "```" ++ repeat "a"%char 44 ++ lit "``` ```"
  ++ repeat "b"%char 44 ++ lit "```".

Definition two_blocks_extracted : ExtractedContent :=
  {| document := sample_document; markdown_content := two_blocks_text;
     page_markers := [] |}.

Definition no_overlap_chunker : HierarchicalChunker :=
  {| Chunker.config :=
       {| chunk_size := 10; chunk_overlap := 0; min_chunk_size := 1 |} |}.

(** The default sizes without a minimum, and a document of two spaces. *)
Definition no_minimum_chunker : HierarchicalChunker :=
  {| Chunker.config :=
       {| chunk_size := 512; chunk_overlap := 100; min_chunk_size := 0 |} |}.

Definition two_spaces_extracted : ExtractedContent :=
  {| document := sample_document; markdown_content := lit "  ";
     page_markers := [] |}.

(** The small configuration with a minimum of 20 characters: of the six
    segments of the sample document three are shorter. *)
Definition strict_chunker : HierarchicalChunker :=
  {| Chunker.config :=
       {| chunk_size := 10; chunk_overlap := 1; min_chunk_size := 5 |} |}.

Definition strict_chunks : list Chunk :=
  Eval vm_compute in
    match chunk_content strict_chunker 100 sample_extracted with
    | Some chunks => chunks
    | None => []
    end.

(** A document without any header. *)
Definition plain_extracted : ExtractedContent :=
  {| document := sample_document;
     markdown_content :=
       lit "A VAD tree is a binary tree structure." ++ [nl; nl]
       ++ lit "Each node describes one range.";
     page_markers := [(1, 0)] |}.

Definition plain_chunks : list Chunk :=
  Eval vm_compute in
    match chunk_content small_chunker 100 plain_extracted with
    | Some chunks => chunks
    | None => []
    end.

(** A document of white space only, chunked with the default
    configuration. *)
Definition blank_extracted : ExtractedContent :=
  {| document := sample_document;
     markdown_content := lit "  " ++ [nl; nl] ++ lit "   " ++ [nl];
     page_markers := [(1, 0)] |}.

Definition blank_chunks : list Chunk :=
  Eval vm_compute in
    match chunk_content {| Chunker.config := Chunker.default_config |} 100
            blank_extracted with
    | Some chunks => chunks
    | None => [bare_chunk]
    end.

(** ** Placeholders *)

(** The two families of placeholders, and what each is made of: two
    underscores, the family's marker, a number, two underscores. *)
Inductive kind : Set :=
| KCode (i : nat)
| KTable (i : nat).

Definition kind_eq_dec (a b : kind) : {a = b} + {a <> b}.
Proof. decide equality; apply Nat.eq_dec. Defined.

Definition ph (k : kind) : str :=
  match k with
  | KCode i => code_placeholder i
  | KTable i => table_placeholder i
  end.

Definition code_marker : str := lit "CODE_BLOCK_".

Definition table_marker : str := lit "TABLE_".

Definition marker (k : kind) : str :=
  match k with
  | KCode _ => code_marker
  | KTable _ => table_marker
  end.

Definition number (k : kind) : str :=
  match k with
  | KCode i => str_of_int (Z.of_nat i)
  | KTable i => str_of_int (Z.of_nat i)
  end.

Definition underscore : ascii := "_"%char.

Definition digit (c : ascii) : bool :=
  let n := nat_of_ascii c in ((48 <=? n) && (n <=? 57))%nat.

(** The characters placeholders are written with. *)
Definition placeholder_char (c : ascii) : bool :=
  let n := nat_of_ascii c in
  (Ascii.eqb c underscore || digit c || (65 <=? n) && (n <=? 90))%nat.

(** ** Texts with holes *)

(** A protected text read as characters of the document and holes, each
    hole standing for a protected block.  [render] writes a hole as its
    placeholder, [expand] as the block itself, and [fill] puts the
    characters of a block in the place of its holes. *)
Inductive tok : Set :=
| Ch (c : ascii)
| Hl (k : kind).

Fixpoint render (w : list tok) : str :=
  match w with
  | [] => []
  | Ch c :: w' => c :: render w'
  | Hl k :: w' => ph k ++ render w'
  end.

Fixpoint expand (f : kind -> str) (w : list tok) : str :=
  match w with
  | [] => []
  | Ch c :: w' => c :: expand f w'
  | Hl k :: w' => f k ++ expand f w'
  end.

Fixpoint fill (k : kind) (m : str) (w : list tok) : list tok :=
  match w with
  | [] => []
  | Ch c :: w' => Ch c :: fill k m w'
  | Hl k' :: w' =>
      if kind_eq_dec k k' then map Ch m ++ fill k m w'
      else Hl k' :: fill k m w'
  end.

(** No placeholder marker occurs in [s]. *)
Definition marker_free (s : str) : Prop :=
  contains code_marker s = false /\ contains table_marker s = false.

(** No placeholder marker occurs in a run of characters of [w]. *)
Definition runs_free (w : list tok) : Prop :=
  forall a r b, w = a ++ map Ch r ++ b -> marker_free r.

(** In [K] followed by [x], no underscore is followed by an underscore. *)
Fixpoint nodbl (K : str) (x : ascii) : bool :=
  match K with
  | [] => true
  | a :: K' =>
      negb (Ascii.eqb a underscore && Ascii.eqb (hd x K') underscore)
      && nodbl K' x
  end.

(** [m] is empty or ends with a character no placeholder has. *)
Definition ends_clean (m : str) : Prop :=
  m = [] \/ exists g c, m = g ++ [c] /\ placeholder_char c = false.

(** A match that can be protected: it begins and ends with characters no
    placeholder has, and no placeholder marker occurs in it. *)
Definition protectable (m : str) : Prop :=
  (exists c m', m = c :: m' /\ placeholder_char c = false)
  /\ ends_clean m /\ marker_free m.

(** The block map that holds the holes [ks], in insertion order, [f]
    giving the block each hole stands for. *)
Definition entries (f : kind -> str) (ks : list kind) : dict :=
  map (fun k => (ph k, f k)) ks.

Definition holes_in (ks : list kind) (w : list tok) : Prop :=
  forall k, In (Hl k) w -> In k ks.

Definition fill_all (f : kind -> str) (ks : list kind) (w : list tok)
  : list tok :=
  fold_left (fun w k => fill k (f k) w) ks w.

(** ** Matches and the round trip *)

Definition backquote : ascii := "`"%char.

Definition bar : ascii := "|"%char.

(** What a match of a pattern is like: a prefix of the text matched
    against, beginning with [first] and ending with [last]. *)
Definition match_shape (first last : ascii) (s g : str) : Prop :=
  (exists b, s = g ++ b)
  /\ (exists g', g = first :: g')
  /\ (exists g', g = g' ++ [last]).

(** The conditions the specification puts on a text for the round trip:
    an even number of fences, and every line that begins with a bar also
    ends with one. *)
Definition balanced_fences (text : str) : Prop :=
  Z.even (count fence text) = true.

Definition well_formed_tables (text : str) : Prop :=
  Forall (fun line => startswith (lit "|") line = true ->
                      endswith (lit "|") line = true)
    (split text [nl]).

Definition round_trip (text : str) : str :=
  _restore_content (fst (_protect_content text))
    (snd (_protect_content text)).

(** A text that spells a placeholder, and a table row that holds a
    code block. *)
Definition placeholder_text : str := lit "__CODE_BLOCK_0__```x```".

Definition code_in_table_text : str := lit "|a ```x``` b|" ++ [nl].

Definition fenced_and_tabled_text : str :=
  lit "Run ```vol.py -f mem.raw``` first." ++ [nl]
  ++ lit "|pid|process_name|" ++ [nl]
  ++ lit "|4|System|" ++ [nl]
  ++ lit "Unbalanced ``` stays.".

(** ** Page markers and the quality of an extraction *)

(** The dict that numbers [positions] from [page] on. *)
Fixpoint number_from (page : Z) (positions : list Z) : list (Z * Z) :=
  match positions with
  | [] => []
  | pos :: rest => (page, pos) :: number_from (page + 1) rest
  end.

#[local] Set Warnings "-inexact-float".

(** The score [extract_with_quality] gives for each combination of
    findings. *)
Definition quality_of_findings (has_structure has_code has_tables : bool)
  : PrimFloat.float :=
  let score := 0.5%float in
  let score :=
    if has_structure then PrimFloat.add score 0.2%float else score in
  let score := if has_code then PrimFloat.add score 0.15%float else score in
  if has_tables then PrimFloat.add score 0.15%float else score.

(* ================================================================== *)
(** * Properties *)

(** ** Lists and slices *)

Lemma len_nonneg {A} (s : list A) : 0 <= len s.
Proof. unfold len. lia. Qed.

Lemma len_app {A} (a b : list A) : len (a ++ b) = len a + len b.
Proof. unfold len. rewrite length_app. lia. Qed.

Lemma adjust_le (i : Z) (n : nat) : (adjust i n <= n)%nat.
Proof.
  unfold adjust. destruct (i <? 0) eqn:E.
  - apply Z.ltb_lt in E. lia.
  - apply Nat.le_min_r.
Qed.

Lemma rindex_from_range (sub s : str) :
  forall i j, rindex_from sub s i = Some j -> (i <= j <= i + length s)%nat.
Proof.
  induction s as [|c s IH]; intros i j; simpl.
  - destruct (startswith sub []); intros H; inversion H; lia.
  - destruct (rindex_from sub s (S i)) as [k|] eqn:E.
    + intros H; inversion H; subst. apply IH in E. lia.
    + destruct (startswith sub (c :: s)); intros H; inversion H; lia.
Qed.

Lemma rfind_le_end (sub s : str) (a b : Z) :
  rfind sub s a b <= Z.of_nat (adjust b (length s)).
Proof.
  unfold rfind.
  set (lo := if a <? 0 then adjust a (length s) else Z.to_nat a).
  set (hi := adjust b (length s)).
  destruct (hi <? lo)%nat eqn:E; [lia|].
  apply Nat.ltb_ge in E.
  destruct (rindex_from sub (skipn lo (firstn hi s)) lo) as [j|] eqn:R;
    [|lia].
  apply rindex_from_range in R.
  rewrite length_skipn, length_firstn in R. lia.
Qed.

Lemma rfind_le_len (sub s : str) (a b : Z) : rfind sub s a b <= len s.
Proof.
  pose proof (rfind_le_end sub s a b). pose proof (adjust_le b (length s)).
  unfold len. lia.
Qed.

Lemma adjust_nonneg (i : Z) (n : nat) :
  0 <= i -> Z.of_nat (adjust i n) <= i.
Proof.
  intros Hi. unfold adjust.
  destruct (i <? 0) eqn:E; [apply Z.ltb_lt in E; lia|]. lia.
Qed.

Lemma len_slice_le (s : str) (a b : Z) :
  0 <= a -> a < len s -> a <= b -> len (slice s a b) <= b - a.
Proof.
  intros Ha Hlen Hab. unfold slice, len in *.
  rewrite length_skipn, length_firstn. unfold adjust.
  destruct (a <? 0) eqn:Ea; [apply Z.ltb_lt in Ea; lia|].
  destruct (b <? 0) eqn:Eb; [apply Z.ltb_lt in Eb; lia|]. lia.
Qed.

Lemma lstrip_length (s : str) : (length (lstrip s) <= length s)%nat.
Proof.
  induction s as [|c s IH]; simpl; [lia|].
  destruct (isspace c); simpl; lia.
Qed.

Lemma len_strip_le (s : str) : len (strip s) <= len s.
Proof.
  unfold strip, rstrip, len.
  pose proof (lstrip_length (rev (lstrip (rev s)))) as H1.
  pose proof (lstrip_length (rev s)) as H2.
  rewrite !length_rev in *. lia.
Qed.

(** ** The Hard Splitter *)

(** The end of a piece never lies beyond the end of the text. *)
Lemma force_split_end_le (text : str) (chunk_size start : Z) :
  let end_ := Z.min (start + chunk_size) (len text) in
  (if end_ <? len text then
     let last_space := rfind (lit " ") text start end_ in
     if last_space >? start then last_space else end_
   else end_) <= len text.
Proof.
  cbv zeta.
  destruct (Z.min (start + chunk_size) (len text) <? len text); [|lia].
  destruct (rfind (lit " ") text start _ >? start); [apply rfind_le_len|lia].
Qed.

(** With a positive overlap the cursor is set back from every end it
    reaches, so that it stays before the end of the text for ever. *)
Lemma force_split_loop_stuck (fuel : nat) :
  forall text chunk_size overlap start chunks,
    0 < overlap -> start < len text ->
    force_split_loop fuel text chunk_size overlap start chunks = None.
Proof.
  induction fuel as [|fuel IH]; intros text cs ov start chunks Hov Hst;
    cbn [force_split_loop]; [reflexivity|].
  apply Z.ltb_lt in Hst as Hst'. rewrite Hst'.
  apply Z.gtb_lt in Hov as Hov'. rewrite Hov'.
  apply IH; [assumption|].
  pose proof (force_split_end_le text cs start) as H. cbv zeta in H. lia.
Qed.

(** C1, what the code does: on a text that is not empty and with
    [overlap > 0] the loop of [_force_split] never ends, whatever the chunk
    size: no step budget is enough for it to return.  The claim promises
    termination there. *)
Theorem force_split_overlap_never_returns :
  forall (fuel : nat) (text : str) (chunk_size overlap : Z),
    text <> [] -> 0 < overlap ->
    _force_split fuel text chunk_size overlap = None.
Proof.
  intros fuel text cs ov Htext Hov. unfold _force_split.
  apply force_split_loop_stuck; [assumption|].
  destruct text; [congruence|]. unfold len. simpl. lia.
Qed.

Lemma force_split_overlap_never_returns_witness :
  lit "abc" <> [] /\ 0 < 400 /\
  _force_split 5000 (lit "abc") 2048 400 = None.
Proof.
  split; [discriminate|]. split; [lia|].
  apply (force_split_overlap_never_returns 5000 (lit "abc") 2048 400);
    [discriminate|lia].
Defined.

(** Where the loop cuts: after the start, and at most [chunk_size]
    further. *)
Lemma force_split_end_range (text : str) (chunk_size start : Z) :
  0 < chunk_size -> 0 <= start -> start < len text ->
  let end_ := Z.min (start + chunk_size) (len text) in
  let end_ :=
    if end_ <? len text then
      let last_space := rfind (lit " ") text start end_ in
      if last_space >? start then last_space else end_
    else end_ in
  start < end_ <= start + chunk_size.
Proof.
  intros Hcs Hst Hlen. cbv zeta.
  set (e0 := Z.min (start + chunk_size) (len text)).
  assert (He0 : start < e0 <= start + chunk_size) by (unfold e0; lia).
  destruct (e0 <? len text); [|exact He0].
  destruct (rfind (lit " ") text start e0 >? start) eqn:E; [|exact He0].
  apply Z.gtb_lt in E.
  pose proof (rfind_le_end (lit " ") text start e0) as H1.
  pose proof (adjust_nonneg e0 (length text)) as H2. lia.
Qed.

(** Every piece [_force_split] returns fits the chunk size. *)
Lemma force_split_loop_bound (fuel : nat) :
  forall text chunk_size overlap start chunks pieces,
    0 < chunk_size -> 0 <= start ->
    Forall (fun p => len p <= chunk_size) chunks ->
    force_split_loop fuel text chunk_size overlap start chunks
    = Some pieces ->
    Forall (fun p => len p <= chunk_size) pieces.
Proof.
  induction fuel as [|fuel IH];
    intros text cs ov start chunks pieces Hcs Hst Hch H; [discriminate|].
  destruct (Z.ltb_spec start (len text)) as [Hlt|Hge].
  - destruct (Z.ltb_spec 0 ov) as [Hov|Hov].
    + rewrite force_split_loop_stuck in H by assumption. discriminate.
    + cbn [force_split_loop] in H.
      apply Z.ltb_lt in Hlt as Hlt'. rewrite Hlt' in H.
      assert (Eov : (ov >? 0) = false)
        by (rewrite Z.gtb_ltb; apply Z.ltb_ge; lia).
      rewrite Eov in H.
      pose proof (force_split_end_range text cs start Hcs Hst Hlt) as Hr.
      cbv zeta in Hr. revert H Hr.
      set (end_ := if Z.min (start + cs) (len text) <? len text then _ else _).
      intros H Hr.
      apply IH in H; [exact H|exact Hcs|lia|].
      apply Forall_app. split; [exact Hch|].
      constructor; [|constructor].
      pose proof (len_slice_le text start end_). lia.
  - cbn [force_split_loop] in H.
    apply Z.ltb_ge in Hge. rewrite Hge in H. inversion H; subst. exact Hch.
Qed.

Lemma slice_extends_prefix (text : str) (a b : Z) :
  0 <= a -> a <= b -> b <= len text ->
  firstn (Z.to_nat a) text ++ slice text a b = firstn (Z.to_nat b) text.
Proof.
  intros Ha Hab Hb. unfold slice, adjust, len in *.
  destruct (a <? 0) eqn:Ea; [apply Z.ltb_lt in Ea; lia|].
  destruct (b <? 0) eqn:Eb; [apply Z.ltb_lt in Eb; lia|].
  rewrite !Nat.min_l by lia.
  rewrite <- (firstn_skipn (Z.to_nat a) (firstn (Z.to_nat b) text)) at 2.
  rewrite firstn_firstn, Nat.min_l by lia. reflexivity.
Qed.

(** Without overlap each turn of the loop moves the cursor forward, and
    the pieces so far spell the text up to the cursor. *)
Lemma force_split_loop_progress (fuel : nat) :
  forall text chunk_size overlap start chunks,
    0 < chunk_size -> overlap <= 0 -> 0 <= start <= len text ->
    (Z.to_nat (len text - start) < fuel)%nat ->
    concat chunks = firstn (Z.to_nat start) text ->
    exists pieces,
      force_split_loop fuel text chunk_size overlap start chunks
      = Some pieces
      /\ concat pieces = text.
Proof.
  induction fuel as [|fuel IH];
    intros text cs ov start chunks Hcs Hov Hst Hfuel Hcat; [lia|].
  cbn [force_split_loop].
  destruct (Z.ltb_spec start (len text)) as [Hlt|Hge].
  - assert (Eov : (ov >? 0) = false)
      by (rewrite Z.gtb_ltb; apply Z.ltb_ge; lia).
    rewrite Eov.
    pose proof (force_split_end_range text cs start Hcs (proj1 Hst) Hlt)
      as Hr.
    pose proof (force_split_end_le text cs start) as Hle.
    cbv zeta in Hr, Hle. revert Hr Hle.
    set (end_ := if Z.min (start + cs) (len text) <? len text then _ else _).
    intros Hr Hle.
    apply IH; [exact Hcs|exact Hov|lia|lia|].
    rewrite concat_app, Hcat. cbn [concat]. rewrite app_nil_r.
    apply slice_extends_prefix; lia.
  - exists chunks. split; [reflexivity|].
    rewrite Hcat. apply firstn_all2. unfold len in *. lia.
Qed.

(** X1: with a positive chunk size and no overlap the Hard Splitter
    returns, after at most one turn of its loop for each character, and
    the pieces it returns, each of at most [chunk_size] characters,
    spell the text when put end to end. *)
Theorem force_split_without_overlap :
  forall (text : str) (chunk_size overlap : Z),
    0 < chunk_size -> overlap <= 0 ->
    exists pieces,
      _force_split (S (length text)) text chunk_size overlap = Some pieces
      /\ concat pieces = text
      /\ Forall (fun p => len p <= chunk_size) pieces.
Proof.
  intros text cs ov Hcs Hov. unfold _force_split.
  destruct (force_split_loop_progress (S (length text)) text cs ov 0 [])
    as (pieces & E & Hcat);
    [exact Hcs|exact Hov|pose proof (len_nonneg text); lia
    |unfold len; lia|reflexivity|].
  exists pieces. split; [exact E|]. split; [exact Hcat|].
  eapply force_split_loop_bound; [exact Hcs| |constructor|exact E]. lia.
Qed.

Lemma force_split_without_overlap_witness :
  exists pieces,
    _force_split (S (length (lit "abc def ghi jkl"))) (lit "abc def ghi jkl")
      10 0 = Some pieces
    /\ concat pieces = lit "abc def ghi jkl"
    /\ Forall (fun p => len p <= 10) pieces.
Proof.
  apply (force_split_without_overlap (lit "abc def ghi jkl") 10 0); lia.
Defined.

Lemma close_chunk_bound (recur : str -> option (list str)) (chunk_size : Z)
    (chunks : list str) (current_chunk : str) (out : list str) :
  (forall t r, recur t = Some r -> Forall (fun p => len p <= chunk_size) r) ->
  Forall (fun p => len p <= chunk_size) chunks ->
  close_chunk recur chunk_size chunks current_chunk = Some out ->
  Forall (fun p => len p <= chunk_size) out.
Proof.
  intros Hrec Hch H. unfold close_chunk in H.
  destruct (truthy current_chunk).
  - destruct (len current_chunk >? chunk_size) eqn:E.
    + destruct (recur current_chunk) as [more|] eqn:R; [|discriminate].
      inversion H; subst. apply Forall_app. split; [exact Hch|].
      eapply Hrec. exact R.
    + inversion H; subst. apply Forall_app. split; [exact Hch|].
      constructor; [|constructor].
      rewrite Z.gtb_ltb in E. apply Z.ltb_ge in E. exact E.
  - inversion H; subst. exact Hch.
Qed.

Lemma merge_splits_bound (recur : str -> option (list str))
    (separator : str) (chunk_size overlap : Z) (splits : list str) :
  (forall t r, recur t = Some r -> Forall (fun p => len p <= chunk_size) r) ->
  forall i chunks current_chunk chunks' current_chunk',
    Forall (fun p => len p <= chunk_size) chunks ->
    merge_splits recur separator chunk_size overlap splits i chunks
      current_chunk = Some (chunks', current_chunk') ->
    Forall (fun p => len p <= chunk_size) chunks'.
Proof.
  intros Hrec. induction splits as [|split rest IH];
    intros i chunks cur chunks' cur' Hch H; cbn [merge_splits] in H.
  - inversion H; subst. exact Hch.
  - destruct (len cur + len _ <=? chunk_size).
    + eapply IH; eassumption.
    + destruct (close_chunk recur chunk_size chunks cur) as [closed|] eqn:C;
        [|discriminate].
      eapply IH; [|exact H].
      eapply close_chunk_bound; eassumption.
Qed.

(** Every segment [_recursive_split] returns fits the chunk size. *)
Lemma recursive_split_bound (fuel : nat) (chunk_size overlap : Z)
    (separators : list str) :
  0 < chunk_size ->
  forall text out,
    _recursive_split fuel separators text chunk_size overlap = Some out ->
    Forall (fun p => len p <= chunk_size) out.
Proof.
  intros Hcs. induction separators as [|separator remaining IH];
    intros text out H; cbn [_recursive_split] in H.
  - unfold _force_split in H.
    apply force_split_loop_bound in H; [exact H|exact Hcs|lia|constructor].
  - destruct (length (split text separator) =? 1)%nat.
    + eapply IH. exact H.
    + destruct (merge_splits _ separator chunk_size overlap _ 0 [] [])
        as [[chunks cur]|] eqn:M; [|discriminate].
      eapply close_chunk_bound; [exact IH| |exact H].
      eapply merge_splits_bound; [exact IH|constructor|exact M].
Qed.

(** ** What restoration adds *)

Lemma replace_from_length (old new s : str) :
  forall skip,
    (length (replace_from old new s skip)
     <= length s + count_from old s skip * length new)%nat.
Proof.
  induction s as [|c s IH]; intros skip; cbn [replace_from count_from];
    [simpl; lia|].
  destruct skip as [|k].
  - destruct (startswith old (c :: s)).
    + rewrite length_app. specialize (IH (length old - 1)%nat). simpl. lia.
    + specialize (IH O). simpl. lia.
  - specialize (IH k). simpl. lia.
Qed.

Lemma flat_map_cons_length (new s : str) :
  length (flat_map (fun c => c :: new) s)
  = (length s + length s * length new)%nat.
Proof.
  induction s as [|c s IH]; [reflexivity|].
  cbn [flat_map]. rewrite length_app, IH. simpl. lia.
Qed.

Lemma len_replace_le (old new s : str) :
  len (replace old new s) <= len s + count old s * len new.
Proof.
  unfold replace, count. destruct old as [|o old].
  - unfold len. rewrite length_app, flat_map_cons_length. nia.
  - pose proof (replace_from_length (o :: old) new s O) as H.
    unfold len. nia.
Qed.

Lemma len_restore_le (protected_blocks : dict) :
  forall text,
    len (_restore_content text protected_blocks)
    <= len text + restore_growth text protected_blocks.
Proof.
  induction protected_blocks as [|[placeholder original] rest IH];
    intros text; cbn [_restore_content restore_growth]; [lia|].
  specialize (IH (replace placeholder original text)).
  pose proof (len_replace_le placeholder original text). lia.
Qed.

(** ** Construction of the configuration *)

(** C3, as stated, fails: a configuration whose overlap equals (or
    exceeds) its chunk size is constructed without an error, and so is a
    chunker from it. *)
Lemma overlap_not_below_size_is_accepted :
  exists c k,
    ChunkingConfig_init 100 100 10 = Returned c /\
    chunk_overlap c >= chunk_size c /\
    HierarchicalChunker_init (Some c) = Returned k /\
    Chunker.config k = c.
Proof.
  eexists. eexists. split; [reflexivity|].
  split; [simpl; lia|]. split; reflexivity.
Qed.

(** C3, amended: construction validates nothing.  Every combination of
    sizes is returned as a configuration holding the three values as
    given, and a chunker built from a configuration holds that
    configuration (the default one, 512/100/100, when none is given). *)
Theorem construction_accepts_every_configuration :
  forall size overlap min_size : Z,
    ChunkingConfig_init size overlap min_size
    = Returned {| chunk_size := size; chunk_overlap := overlap;
                  min_chunk_size := min_size |}
    /\ (forall c : ChunkingConfig,
          HierarchicalChunker_init (Some c)
          = Returned {| Chunker.config := c |})
    /\ HierarchicalChunker_init None
       = Returned {| Chunker.config :=
                       {| chunk_size := 512; chunk_overlap := 100;
                          min_chunk_size := 100 |} |}.
Proof.
  intros. split; [reflexivity|]. split; [intros c|]; reflexivity.
Qed.

(** ** The contextual prefix *)

(** C5: for source "Windows Internals", chapter "Memory Management",
    section "VAD Trees" and source type "book", with the include flags
    enabled (the page flag either way, no page being given), the
    preprocessor's prefix builder returns exactly the four lines
    "Source: Windows Internals", "Chapter: Memory Management",
    "Section: VAD Trees", "---", each ended by a newline; so does the
    chunker's own builder. *)
Theorem contextual_prefix_example :
  forall with_page : bool,
    Preprocessor.build_contextual_prefix
      {| Preprocessor.config :=
           {| Preprocessor.include_source := true;
              Preprocessor.include_chapter := true;
              Preprocessor.include_section := true;
              Preprocessor.include_page := with_page;
              Preprocessor.separator := lit "---";
              Preprocessor.max_context_length := 200 |} |}
      (Some (lit "Windows Internals")) (Some (lit "Memory Management"))
      (Some (lit "VAD Trees")) None (lit "book")
    = windows_internals_prefix
    /\ _build_contextual_prefix (lit "Windows Internals")
         (Some (lit "Memory Management")) (Some (lit "VAD Trees"))
       = windows_internals_prefix.
Proof.
  intros with_page. split; [|reflexivity].
  destruct with_page; reflexivity.
Qed.

(** ** The validator *)

#[local] Set Warnings "-inexact-float".

Lemma validate_chunk_score (chunk : Chunk) :
  quality_score (validate_chunk chunk)
  = score_of_flags (negb (is_complete_sentence (validate_chunk chunk)))
      (has_split_code_block (validate_chunk chunk))
      (has_split_table (validate_chunk chunk))
      (has_garbage_chars (validate_chunk chunk)).
Proof.
  unfold validate_chunk, score_of_flags; cbn [quality_score
    is_complete_sentence has_split_code_block has_split_table
    has_garbage_chars].
  rewrite negb_involutive. reflexivity.
Qed.

Lemma score_of_flags_floor (a b c d : bool) :
  PrimFloat.leb 0%float (score_of_flags a b c d) = true.
Proof. destruct a, b, c, d; vm_compute; reflexivity. Qed.

Lemma score_of_flags_split_code (a c d : bool) :
  PrimFloat.leb (score_of_flags a true c d) 0.7%float = true.
Proof. destruct a, c, d; vm_compute; reflexivity. Qed.

(** C6: a chunk whose content holds an odd number of triple-backquote
    markers gets [has_split_code_block = true] and a quality score of at
    most 0.7.  For every chunk the score is 1.0 less 0.1 for a truncated
    ending, less 0.3 for a split code block, less 0.2 for a split table,
    less 0.2 for garbage characters, the subtractions made in that order
    in binary64 arithmetic, then floored at 0.0; it is never negative. *)
Theorem validate_chunk_quality_score :
  forall chunk : Chunk,
    let m := validate_chunk chunk in
    (Z.odd (count fence (content chunk)) = true ->
       has_split_code_block m = true
       /\ PrimFloat.leb (quality_score m) 0.7%float = true)
    /\ quality_score m
       = max_zero
           (deduct (has_garbage_chars m) 0.2%float
              (deduct (has_split_table m) 0.2%float
                 (deduct (has_split_code_block m) 0.3%float
                    (deduct (negb (is_complete_sentence m)) 0.1%float
                       1%float))))
    /\ PrimFloat.leb 0%float (quality_score m) = true.
Proof.
  intros chunk m. subst m. split; [|split].
  - intros Hodd.
    assert (Hsplit : has_split_code_block (validate_chunk chunk) = true).
    { unfold validate_chunk; cbn [has_split_code_block].
      rewrite Zmod_odd, Hodd. reflexivity. }
    split; [exact Hsplit|].
    rewrite validate_chunk_score, Hsplit. apply score_of_flags_split_code.
  - apply validate_chunk_score.
  - rewrite validate_chunk_score. apply score_of_flags_floor.
Qed.

Lemma validate_chunk_quality_score_witness :
  has_split_code_block (validate_chunk split_fence_chunk) = true
  /\ PrimFloat.leb (quality_score (validate_chunk split_fence_chunk))
       0.7%float = true.
Proof.
  apply (proj1 (validate_chunk_quality_score split_fence_chunk)).
  vm_compute. reflexivity.
Defined.

(** ** The emission loop of [chunk_content] *)

Section Emission.

Variable self : HierarchicalChunker.
Variable extracted : ExtractedContent.
Variable blocks : dict.

Lemma kept_eq (raw : str) :
  kept self blocks raw
  = negb (len (strip (_restore_content raw blocks))
          <? min_chunk_size_chars (Chunker.config self)).
Proof. reflexivity. Qed.

Lemma emit_chunks_content (raws : list str) :
  forall idx ch sec,
    map content (emit_chunks self extracted blocks raws idx ch sec)
    = map (restored blocks) (filter (kept self blocks) raws).
Proof.
  induction raws as [|raw raws IH]; intros idx ch sec; [reflexivity|].
  cbn [emit_chunks filter]. rewrite (kept_eq raw).
  destruct (len (strip (_restore_content raw blocks))
            <? min_chunk_size_chars (Chunker.config self)); cbn [negb].
  - apply IH.
  - cbn [map content]. f_equal. apply IH.
Qed.

Lemma emit_chunks_index (raws : list str) :
  forall idx ch sec,
    map chunk_index (emit_chunks self extracted blocks raws idx ch sec)
    = map (fun k => idx + Z.of_nat k)
        (seq 0 (length (filter (kept self blocks) raws))).
Proof.
  induction raws as [|raw raws IH]; intros idx ch sec; [reflexivity|].
  cbn [emit_chunks filter]. rewrite (kept_eq raw).
  destruct (len (strip (_restore_content raw blocks))
            <? min_chunk_size_chars (Chunker.config self)); cbn [negb].
  - apply IH.
  - cbn [map chunk_index length seq]. rewrite IH, <- seq_shift, map_map.
    f_equal; [lia|]. apply map_ext. intros k. lia.
Qed.

Lemma emit_chunks_id (raws : list str) :
  forall idx ch sec,
    Forall (fun c => chunk_id c
                     = make_chunk_id (title (document extracted))
                         (chunk_index c))
      (emit_chunks self extracted blocks raws idx ch sec).
Proof.
  induction raws as [|raw raws IH]; intros idx ch sec; [constructor|].
  cbn [emit_chunks].
  destruct (len (strip (_restore_content raw blocks))
            <? min_chunk_size_chars (Chunker.config self)).
  - apply IH.
  - constructor; [reflexivity|]. apply IH.
Qed.

Lemma emit_chunks_length (raws : list str) :
  forall idx ch sec,
    length (emit_chunks self extracted blocks raws idx ch sec)
    = length (filter (kept self blocks) raws).
Proof.
  intros idx ch sec.
  rewrite <- (length_map content), emit_chunks_content, length_map.
  reflexivity.
Qed.

End Emission.

(** What [chunk_content] returns, in terms of the segments it loops over. *)
Lemma chunk_content_emits (self : HierarchicalChunker) (fuel : nat)
    (extracted : ExtractedContent) (chunks : list Chunk) :
  chunk_content self fuel extracted = Some chunks ->
  exists raws blocks,
    raw_chunks_of self fuel extracted = (Some raws, blocks)
    /\ chunks = emit_chunks self extracted blocks raws 0 None None.
Proof.
  unfold chunk_content.
  destruct (raw_chunks_of self fuel extracted) as [[raws|] blocks];
    [|discriminate].
  intros H. inversion H. exists raws, blocks. split; reflexivity.
Qed.

(** ** Chunk identifiers *)

Lemma read_digits_zero (s : str) :
  read_digits ("0"%char :: s) = read_digits s.
Proof.
  unfold read_digits. cbn [string_of_list_ascii NilEmpty.uint_of_string].
  destruct (NilEmpty.uint_of_string (string_of_list_ascii s)); reflexivity.
Qed.

Lemma read_digits_zeros (k : nat) (s : str) :
  read_digits (repeat "0"%char k ++ s) = read_digits s.
Proof.
  induction k as [|k IH]; [reflexivity|].
  cbn [repeat app]. rewrite read_digits_zero. exact IH.
Qed.

Lemma to_uint_not_nil (n : N) : N.to_uint n <> Nil.
Proof.
  destruct n as [|p]; [discriminate|]. apply DecimalPos.Unsigned.to_uint_nonnil.
Qed.

Lemma read_digits_of_N (n : N) :
  read_digits (lit (NilZero.string_of_uint (N.to_uint n))) = n.
Proof.
  unfold read_digits, lit. rewrite string_of_list_ascii_of_string.
  assert (E : NilZero.string_of_uint (N.to_uint n)
              = NilEmpty.string_of_uint (N.to_uint n)).
  { pose proof (to_uint_not_nil n) as H.
    destruct (N.to_uint n); [congruence| reflexivity ..]. }
  rewrite E, NilEmpty.usu. apply DecimalN.Unsigned.of_to.
Qed.

Lemma format_04d_read (i : Z) :
  0 <= i -> read_digits (format_04d i) = Z.to_N i.
Proof.
  intros Hi. unfold format_04d.
  destruct (i <? 0) eqn:E; [apply Z.ltb_lt in E; lia|].
  rewrite read_digits_zeros, read_digits_of_N. f_equal. lia.
Qed.

Lemma make_chunk_id_inj (title : str) (i j : Z) :
  0 <= i -> 0 <= j ->
  make_chunk_id title i = make_chunk_id title j -> i = j.
Proof.
  intros Hi Hj H. unfold make_chunk_id in H.
  apply app_inv_head in H. apply app_inv_head in H.
  apply (f_equal read_digits) in H.
  rewrite !format_04d_read in H by assumption. lia.
Qed.

Lemma emitted_indices_count_up
    (self : HierarchicalChunker) (fuel : nat)
    (extracted : ExtractedContent) (chunks : list Chunk) :
  chunk_content self fuel extracted = Some chunks ->
  map chunk_index chunks = map Z.of_nat (seq 0 (length chunks)).
Proof.
  intros H. apply chunk_content_emits in H as (raws & blocks & _ & ->).
  rewrite emit_chunks_index, emit_chunks_length.
  apply map_ext. intros k. lia.
Qed.

(** C7: the [chunk_index] values of the chunks [chunk_content] emits
    are, in emission order, exactly 0, 1, 2, ...; every [chunk_id] is the
    lowered title (spaces as underscores), an underscore and the index
    padded with zeros to four digits; and no two chunks of the document
    share an identifier. *)
Theorem chunk_index_contiguous_and_ids_unique :
  forall (self : HierarchicalChunker) (fuel : nat)
         (extracted : ExtractedContent) (chunks : list Chunk),
    chunk_content self fuel extracted = Some chunks ->
    map chunk_index chunks = map Z.of_nat (seq 0 (length chunks))
    /\ Forall (fun c => chunk_id c
                        = replace (lit " ") (lit "_")
                            (lower (title (document extracted)))
                          ++ lit "_" ++ format_04d (chunk_index c)) chunks
    /\ NoDup (map chunk_id chunks).
Proof.
  intros self fuel extracted chunks H.
  apply chunk_content_emits in H as (raws & blocks & _ & ->).
  pose proof (emit_chunks_index self extracted blocks raws 0 None None) as Hidx.
  pose proof (emit_chunks_id self extracted blocks raws 0 None None) as Hid.
  pose proof (emit_chunks_length self extracted blocks raws 0 None None) as Hlen.
  set (out := emit_chunks self extracted blocks raws 0 None None) in *.
  rewrite <- Hlen in Hidx. cbn beta in Hidx.
  split; [|split].
  - rewrite Hidx. apply map_ext. intros k. lia.
  - exact Hid.
  - assert (E : map chunk_id out
                = map (fun k => make_chunk_id (title (document extracted))
                                  (Z.of_nat k)) (seq 0 (length out))).
    { transitivity (map (make_chunk_id (title (document extracted)))
                      (map chunk_index out)).
      - rewrite map_map. apply map_ext_Forall. exact Hid.
      - rewrite Hidx, map_map. reflexivity. }
    rewrite E. apply NoDup_map_NoDup_ForallPairs; [|apply seq_NoDup].
    intros a b _ _ Hab. apply make_chunk_id_inj in Hab; lia.
Qed.

Lemma sample_chunks_emitted :
  chunk_content small_chunker 100 sample_extracted = Some sample_chunks
  /\ length sample_chunks = 6%nat.
Proof. split; vm_compute; reflexivity. Qed.

Lemma chunk_index_contiguous_and_ids_unique_witness :
  map chunk_index sample_chunks
  = map Z.of_nat (seq 0 (length sample_chunks))
  /\ Forall (fun c => chunk_id c
                      = replace (lit " ") (lit "_")
                          (lower (title (document sample_extracted)))
                        ++ lit "_" ++ format_04d (chunk_index c))
       sample_chunks
  /\ NoDup (map chunk_id sample_chunks).
Proof.
  apply (chunk_index_contiguous_and_ids_unique small_chunker 100
           sample_extracted sample_chunks).
  vm_compute. reflexivity.
Defined.

(** ** Segments below the minimum size *)

(** C8, what the code does: with [min_chunk_size <= 0] no length is
    below the minimum, so that nothing is skipped, not even what the
    comment of the test names ("Skip empty or too-small chunks"): every
    raw segment yields a chunk, and a segment that is white space once
    restored yields a chunk whose content is empty.  The claim says that
    every emitted chunk is non-empty. *)
Theorem nothing_is_skipped_without_minimum :
  forall (self : HierarchicalChunker) (fuel : nat)
         (extracted : ExtractedContent) (raws : list str) (blocks : dict)
         (raw : str),
    min_chunk_size (Chunker.config self) <= 0 ->
    raw_chunks_of self fuel extracted = (Some raws, blocks) ->
    In raw raws ->
    strip (_restore_content raw blocks) = [] ->
    exists (chunks : list Chunk) (c : Chunk),
      chunk_content self fuel extracted = Some chunks
      /\ length chunks = length raws
      /\ In c chunks
      /\ content c = [].
Proof.
  intros self fuel extracted raws blocks raw Hmin Hraws Hin Hempty.
  assert (Hall : forall l, filter (kept self blocks) l = l).
  { induction l as [|r l IH]; [reflexivity|]. cbn [filter].
    assert (Hk : kept self blocks r = true).
    { unfold kept. apply negb_true_iff, Z.ltb_ge.
      pose proof (len_nonneg (restored blocks r)).
      unfold min_chunk_size_chars. lia. }
    rewrite Hk, IH. reflexivity. }
  pose proof (Hall raws) as Hkept.
  pose proof (emit_chunks_content self extracted blocks raws 0 None None)
    as Hc.
  rewrite Hkept in Hc.
  assert (Hm : In (restored blocks raw)
                 (map content
                    (emit_chunks self extracted blocks raws 0 None None)))
    by (rewrite Hc; apply in_map; exact Hin).
  apply in_map_iff in Hm as (c & Ec & Hinc).
  exists (emit_chunks self extracted blocks raws 0 None None), c.
  split.
  { unfold chunk_content. rewrite Hraws. reflexivity. }
  split.
  { rewrite <- (length_map content), Hc, length_map. reflexivity. }
  split; [exact Hinc|].
  rewrite Ec. exact Hempty.
Qed.

Lemma nothing_is_skipped_without_minimum_witness :
  exists (chunks : list Chunk) (c : Chunk),
    chunk_content no_minimum_chunker 100 two_spaces_extracted = Some chunks
    /\ length chunks = length [lit "  "]
    /\ In c chunks
    /\ content c = [].
Proof.
  apply (nothing_is_skipped_without_minimum no_minimum_chunker 100
           two_spaces_extracted [lit "  "] [] (lit "  "));
    [vm_compute; discriminate|reflexivity|left; reflexivity|reflexivity].
Defined.

(** X25: the chunks emitted are, in order, the trimmed restorations of
    exactly those raw segments whose trimmed restoration is not shorter
    than [min_chunk_size_chars]; the other segments yield no chunk and do
    not advance [chunk_index].  So every emitted chunk has a content of at
    least [min_chunk_size_chars] characters, which makes it non-empty when
    [min_chunk_size] is at least 1. *)
Theorem small_segments_are_skipped :
  forall (self : HierarchicalChunker) (fuel : nat)
         (extracted : ExtractedContent) (chunks : list Chunk),
    chunk_content self fuel extracted = Some chunks ->
    exists raws blocks,
      raw_chunks_of self fuel extracted = (Some raws, blocks)
      /\ map content chunks
         = map (fun raw => strip (_restore_content raw blocks))
             (filter (fun raw =>
                        negb (len (strip (_restore_content raw blocks))
                              <? min_chunk_size_chars (Chunker.config self)))
                raws)
      /\ map chunk_index chunks = map Z.of_nat (seq 0 (length chunks))
      /\ Forall (fun c => min_chunk_size_chars (Chunker.config self)
                          <= len (content c)) chunks
      /\ (1 <= min_chunk_size (Chunker.config self) ->
          Forall (fun c => content c <> []) chunks).
Proof.
  intros self fuel extracted chunks H.
  pose proof (emitted_indices_count_up self fuel extracted
                chunks H) as Hidx.
  apply chunk_content_emits in H as (raws & blocks & Hraw & ->).
  exists raws, blocks. split; [exact Hraw|].
  pose proof (emit_chunks_content self extracted blocks raws 0 None None)
    as Hc.
  fold (restored blocks) (kept self blocks).
  split; [exact Hc|]. split; [exact Hidx|].
  assert (Hmin : Forall (fun c => min_chunk_size_chars (Chunker.config self)
                                  <= len (content c))
                   (emit_chunks self extracted blocks raws 0 None None)).
  { apply Forall_map with (f := content)
      (P := fun s => min_chunk_size_chars (Chunker.config self) <= len s).
    rewrite Hc. apply Forall_map. apply Forall_forall. intros raw Hin.
    apply filter_In in Hin as [_ Hk]. unfold kept in Hk.
    apply negb_true_iff, Z.ltb_ge in Hk. exact Hk. }
  split; [exact Hmin|].
  intros Hpos. eapply Forall_impl; [|exact Hmin].
  intros c Hc' Hnil. cbv beta in Hc'. rewrite Hnil in Hc'.
  unfold min_chunk_size_chars, len in Hc'. simpl in Hc'. lia.
Qed.

Lemma small_segments_are_skipped_witness :
  exists raws blocks,
    raw_chunks_of strict_chunker 100 sample_extracted = (Some raws, blocks)
    /\ map content strict_chunks
       = map (fun raw => strip (_restore_content raw blocks))
           (filter (fun raw =>
                      negb (len (strip (_restore_content raw blocks))
                            <? min_chunk_size_chars
                                 (Chunker.config strict_chunker)))
              raws)
    /\ map chunk_index strict_chunks
       = map Z.of_nat (seq 0 (length strict_chunks))
    /\ Forall (fun c => min_chunk_size_chars (Chunker.config strict_chunker)
                        <= len (content c)) strict_chunks
    /\ (1 <= min_chunk_size (Chunker.config strict_chunker) ->
        Forall (fun c => content c <> []) strict_chunks).
Proof.
  apply (small_segments_are_skipped strict_chunker 100 sample_extracted
           strict_chunks).
  vm_compute. reflexivity.
Defined.

(** ** The size of emitted chunks *)

(** C2, as stated, fails: the two placeholders and the space between
    them are 33 characters, so they stay together in one segment of a
    40-character budget; restored, the chunk has 101 characters, more
    than the budget plus the length of one protected block (90). *)
Lemma chunk_with_two_blocks_exceeds_bound :
  exists (c : Chunk) (blocks : dict),
    chunk_content no_overlap_chunker 100 two_blocks_extracted = Some [c]
    /\ snd (raw_chunks_of no_overlap_chunker 100 two_blocks_extracted)
       = blocks
    /\ chunk_size_chars (Chunker.config no_overlap_chunker) = 40
    /\ map (fun pb => len (snd pb)) blocks = [50; 50]
    /\ len (content c) = 101
    /\ ~ (len (content c)
          <= chunk_size_chars (Chunker.config no_overlap_chunker)
          \/ exists pb, In pb blocks
               /\ len (content c)
                  <= chunk_size_chars (Chunker.config no_overlap_chunker)
                     + len (snd pb)).
Proof.
  eexists. eexists. split; [vm_compute; reflexivity|].
  split; [vm_compute; reflexivity|].
  split; [reflexivity|]. split; [reflexivity|]. split; [reflexivity|].
  intros [H|[pb [Hin H]]]; [vm_compute in H; apply H; reflexivity|].
  destruct Hin as [<-|[<-|[]]]; vm_compute in H; apply H; reflexivity.
Qed.

(** C2, amended: for a positive chunk size every raw segment the
    splitter returns has at most [chunk_size_chars] characters, and every
    emitted chunk is the trimmed restoration of one of them.  Its length
    is therefore at most [chunk_size_chars] plus the lengths of all the
    protected blocks that restoration puts into it, one length for each
    placeholder occurrence replaced, however many there are. *)
Theorem emitted_chunk_length_bound :
  forall (self : HierarchicalChunker) (fuel : nat)
         (extracted : ExtractedContent) (chunks : list Chunk),
    0 < chunk_size (Chunker.config self) ->
    chunk_content self fuel extracted = Some chunks ->
    exists raws blocks,
      raw_chunks_of self fuel extracted = (Some raws, blocks)
      /\ Forall (fun raw => len raw <= chunk_size_chars (Chunker.config self))
           raws
      /\ Forall (fun c =>
                   exists raw,
                     In raw raws
                     /\ content c = strip (_restore_content raw blocks)
                     /\ len (content c)
                        <= chunk_size_chars (Chunker.config self)
                           + restore_growth raw blocks) chunks.
Proof.
  intros self fuel extracted chunks Hcs H.
  apply chunk_content_emits in H as (raws & blocks & Hraw & ->).
  exists raws, blocks. split; [exact Hraw|].
  assert (Hb : Forall (fun raw => len raw
                                  <= chunk_size_chars (Chunker.config self))
                 raws).
  { unfold raw_chunks_of in Hraw.
    destruct (_protect_content (markdown_content extracted)) as [pt pb].
    pose proof (f_equal fst Hraw) as Hsplit. cbn [fst] in Hsplit.
    eapply recursive_split_bound; [|exact Hsplit].
    unfold chunk_size_chars. lia. }
  split; [exact Hb|].
  apply Forall_forall. intros c Hc.
  apply (in_map content) in Hc. rewrite emit_chunks_content in Hc.
  apply in_map_iff in Hc as (raw & Hcontent & Hin).
  apply filter_In in Hin as [Hin _]. unfold restored in Hcontent.
  exists raw. split; [exact Hin|]. split; [symmetry; exact Hcontent|].
  rewrite <- Hcontent.
  pose proof (len_strip_le (_restore_content raw blocks)).
  pose proof (len_restore_le blocks raw).
  rewrite Forall_forall in Hb. specialize (Hb raw Hin). cbv beta in Hb. lia.
Qed.

Lemma emitted_chunk_length_bound_witness :
  exists raws blocks,
    raw_chunks_of small_chunker 100 sample_extracted = (Some raws, blocks)
    /\ Forall (fun raw => len raw
                          <= chunk_size_chars (Chunker.config small_chunker))
         raws
    /\ Forall (fun c =>
                 exists raw,
                   In raw raws
                   /\ content c = strip (_restore_content raw blocks)
                   /\ len (content c)
                      <= chunk_size_chars (Chunker.config small_chunker)
                         + restore_growth raw blocks) sample_chunks.
Proof.
  apply (emitted_chunk_length_bound small_chunker 100 sample_extracted
           sample_chunks).
  - reflexivity.
  - vm_compute. reflexivity.
Defined.

(** ** Determinism *)

(** *** [sorted] does not depend on the insertion order of the dict *)

Lemma item_leb_true (a b : Z * Z) :
  item_leb a b = true
  <-> fst a < fst b \/ (fst a = fst b /\ snd a <= snd b).
Proof.
  unfold item_leb.
  rewrite orb_true_iff, andb_true_iff, Z.ltb_lt, Z.eqb_eq, Z.leb_le.
  reflexivity.
Qed.

Lemma item_leb_false (a b : Z * Z) :
  item_leb a b = false
  <-> fst b < fst a \/ (fst a = fst b /\ snd b < snd a).
Proof.
  unfold item_leb.
  rewrite orb_false_iff, andb_false_iff, Z.ltb_ge, Z.eqb_neq, Z.leb_gt. lia.
Qed.

Ltac order_items :=
  repeat match goal with
    | H : item_leb _ _ = true |- _ => apply item_leb_true in H
    | H : item_leb _ _ = false |- _ => apply item_leb_false in H
    end;
  repeat match goal with
    | x : (Z * Z)%type |- _ => destruct x
    end;
  cbn [fst snd] in *;
  first [ exfalso; lia
        | repeat match goal with
            | |- (_, _) :: _ = (_, _) :: _ => f_equal
            | |- (_, _) = (_, _) => f_equal
            end; first [lia | reflexivity] ].

Lemma insert_item_comm (a b : Z * Z) (l : list (Z * Z)) :
  insert_item a (insert_item b l) = insert_item b (insert_item a l).
Proof.
  induction l as [|c l IH]; cbn [insert_item].
  - destruct (item_leb a b) eqn:Eab, (item_leb b a) eqn:Eba;
      try reflexivity; order_items.
  - destruct (item_leb b c) eqn:Ebc, (item_leb a c) eqn:Eac;
      cbn [insert_item]; rewrite ?Ebc, ?Eac;
      try destruct (item_leb a b) eqn:Eab;
      try destruct (item_leb b a) eqn:Eba;
      try reflexivity; try (rewrite IH; reflexivity); order_items.
Qed.

Lemma sorted_permutation (l l' : list (Z * Z)) :
  Permutation l l' -> sorted l = sorted l'.
Proof.
  induction 1 as [|a l l' _ IH|a b l|l l' l'' _ IH1 _ IH2];
    cbn [sorted].
  - reflexivity.
  - rewrite IH. reflexivity.
  - apply insert_item_comm.
  - rewrite IH1. exact IH2.
Qed.

Lemma estimate_page_permutation (position : Z) (m m' : list (Z * Z)) :
  Permutation m m' -> _estimate_page position m = _estimate_page position m'.
Proof.
  intros H. unfold _estimate_page.
  destruct m as [|a m], m' as [|a' m'].
  - reflexivity.
  - apply Permutation_nil in H. discriminate.
  - apply Permutation_sym, Permutation_nil in H. discriminate.
  - rewrite (sorted_permutation _ _ H). reflexivity.
Qed.

Lemma emit_chunks_permutation (self : HierarchicalChunker)
    (e1 e2 : ExtractedContent) (blocks : dict) (raws : list str) :
  document e1 = document e2 ->
  markdown_content e1 = markdown_content e2 ->
  Permutation (page_markers e1) (page_markers e2) ->
  forall idx ch sec,
    emit_chunks self e1 blocks raws idx ch sec
    = emit_chunks self e2 blocks raws idx ch sec.
Proof.
  intros Hd Hm Hp. induction raws as [|raw raws IH]; intros idx ch sec;
    [reflexivity|].
  cbn [emit_chunks].
  destruct (len (strip (_restore_content raw blocks))
            <? min_chunk_size_chars (Chunker.config self)); [apply IH|].
  rewrite IH, Hd, Hm.
  rewrite (estimate_page_permutation _ _ _ Hp). reflexivity.
Qed.

(** *** The result does not depend on the step budget *)

Lemma force_split_loop_more_fuel (fuel : nat) :
  forall fuel' text chunk_size overlap start chunks pieces,
    (fuel <= fuel')%nat ->
    force_split_loop fuel text chunk_size overlap start chunks
    = Some pieces ->
    force_split_loop fuel' text chunk_size overlap start chunks
    = Some pieces.
Proof.
  induction fuel as [|fuel IH];
    intros fuel' text cs ov start chunks pieces Hle H; [discriminate|].
  destruct fuel' as [|fuel']; [lia|].
  cbn [force_split_loop] in *.
  destruct (start <? len text); [|exact H].
  apply IH; [lia|exact H].
Qed.

Lemma close_chunk_extends (f g : str -> option (list str)) (chunk_size : Z)
    (chunks : list str) (current_chunk : str) (out : list str) :
  extends f g ->
  close_chunk f chunk_size chunks current_chunk = Some out ->
  close_chunk g chunk_size chunks current_chunk = Some out.
Proof.
  intros Hfg H. unfold close_chunk in *.
  destruct (truthy current_chunk); [|exact H].
  destruct (len current_chunk >? chunk_size); [|exact H].
  destruct (f current_chunk) as [more|] eqn:E; [|discriminate].
  rewrite (Hfg _ _ E). exact H.
Qed.

Lemma merge_splits_extends (f g : str -> option (list str))
    (separator : str) (chunk_size overlap : Z) (splits : list str) :
  extends f g ->
  forall i chunks current_chunk out,
    merge_splits f separator chunk_size overlap splits i chunks
      current_chunk = Some out ->
    merge_splits g separator chunk_size overlap splits i chunks
      current_chunk = Some out.
Proof.
  intros Hfg. induction splits as [|split rest IH];
    intros i chunks cur out H; cbn [merge_splits] in *; [exact H|].
  destruct (len cur + len _ <=? chunk_size); [apply IH; exact H|].
  destruct (close_chunk f chunk_size chunks cur) as [closed|] eqn:C;
    [|discriminate].
  rewrite (close_chunk_extends f g _ _ _ _ Hfg C). apply IH. exact H.
Qed.

Lemma recursive_split_more_fuel (fuel fuel' : nat) (chunk_size overlap : Z)
    (separators : list str) :
  (fuel <= fuel')%nat ->
  forall text out,
    _recursive_split fuel separators text chunk_size overlap = Some out ->
    _recursive_split fuel' separators text chunk_size overlap = Some out.
Proof.
  intros Hle. induction separators as [|separator remaining IH];
    intros text out H; cbn [_recursive_split] in *.
  - unfold _force_split in *.
    eapply force_split_loop_more_fuel; eassumption.
  - destruct (length (split text separator) =? 1)%nat; [apply IH; exact H|].
    destruct (merge_splits
                (fun t => _recursive_split fuel remaining t chunk_size overlap)
                separator chunk_size overlap _ 0 [] [])
      as [[chunks cur]|] eqn:M; [|discriminate].
    rewrite (merge_splits_extends _
               (fun t => _recursive_split fuel' remaining t chunk_size overlap)
               _ _ _ _ IH _ _ _ _ M).
    eapply close_chunk_extends; [exact IH|exact H].
Qed.

Lemma chunk_content_more_fuel (self : HierarchicalChunker)
    (fuel fuel' : nat) (extracted : ExtractedContent) (chunks : list Chunk) :
  (fuel <= fuel')%nat ->
  chunk_content self fuel extracted = Some chunks ->
  chunk_content self fuel' extracted = Some chunks.
Proof.
  intros Hle. unfold chunk_content, raw_chunks_of.
  destruct (_protect_content (markdown_content extracted)) as [pt pb].
  destruct (_recursive_split fuel SEPARATORS pt _ _) as [raws|] eqn:R;
    [|discriminate].
  rewrite (recursive_split_more_fuel fuel fuel' _ _ _ Hle _ _ R).
  intros H. exact H.
Qed.

Lemma chunk_content_permutation (self : HierarchicalChunker) (fuel : nat)
    (e1 e2 : ExtractedContent) :
  document e1 = document e2 ->
  markdown_content e1 = markdown_content e2 ->
  Permutation (page_markers e1) (page_markers e2) ->
  chunk_content self fuel e1 = chunk_content self fuel e2.
Proof.
  intros Hd Hm Hp. unfold chunk_content, raw_chunks_of. rewrite <- Hm.
  destruct (_protect_content (markdown_content e1)) as [pt pb].
  destruct (_recursive_split fuel SEPARATORS pt _ _) as [raws|];
    [|reflexivity].
  rewrite (emit_chunks_permutation self e1 e2 pb raws Hd Hm Hp).
  reflexivity.
Qed.

(** C9: two runs of [chunk_content] with equal configurations on equal
    extracted contents (the same document, the same text, and page
    markers that are equal as dicts, whatever their insertion order)
    produce the same sequence of chunks: they agree for every step
    budget, and whenever both return they return equal lists, record for
    record. *)
Theorem chunk_content_deterministic :
  forall (self1 self2 : HierarchicalChunker) (e1 e2 : ExtractedContent),
    Chunker.config self1 = Chunker.config self2 ->
    document e1 = document e2 ->
    markdown_content e1 = markdown_content e2 ->
    Permutation (page_markers e1) (page_markers e2) ->
    (forall fuel, chunk_content self1 fuel e1 = chunk_content self2 fuel e2)
    /\ (forall fuel1 fuel2 chunks1 chunks2,
          chunk_content self1 fuel1 e1 = Some chunks1 ->
          chunk_content self2 fuel2 e2 = Some chunks2 ->
          chunks1 = chunks2).
Proof.
  intros [c1] [c2] e1 e2 Hc Hd Hm Hp. cbn [Chunker.config] in Hc. subst c2.
  split.
  - intros fuel. apply chunk_content_permutation; assumption.
  - intros fuel1 fuel2 chunks1 chunks2 H1 H2.
    apply (chunk_content_more_fuel _ _ (Nat.max fuel1 fuel2)) in H1; [|lia].
    apply (chunk_content_more_fuel _ _ (Nat.max fuel1 fuel2)) in H2; [|lia].
    rewrite (chunk_content_permutation _ _ e1 e2 Hd Hm Hp) in H1.
    congruence.
Qed.

Lemma chunk_content_deterministic_witness :
  (forall fuel,
     chunk_content small_chunker fuel sample_extracted
     = chunk_content small_chunker fuel sample_extracted_reordered)
  /\ (forall fuel1 fuel2 chunks1 chunks2,
        chunk_content small_chunker fuel1 sample_extracted = Some chunks1 ->
        chunk_content small_chunker fuel2 sample_extracted_reordered
        = Some chunks2 ->
        chunks1 = chunks2).
Proof.
  apply (chunk_content_deterministic small_chunker small_chunker
           sample_extracted sample_extracted_reordered).
  - reflexivity.
  - reflexivity.
  - reflexivity.
  - apply perm_swap.
Defined.

(** ** Protecting and restoring *)

(** *** Prefixes and occurrences *)

Lemma startswith_spec (p s : str) :
  startswith p s = true <-> exists t, s = p ++ t.
Proof.
  revert s. induction p as [|a p IH]; intros s; cbn [startswith].
  - split; [intros _; exists s; reflexivity|reflexivity].
  - destruct s as [|b s].
    + split; [discriminate|intros [t Ht]; discriminate].
    + rewrite andb_true_iff, Ascii.eqb_eq, IH. split.
      * intros [-> [t ->]]. exists t. reflexivity.
      * intros [t Ht]. inversion Ht; subst. split; [reflexivity|].
        exists t. reflexivity.
Qed.

Lemma startswith_app (p t : str) : startswith p (p ++ t) = true.
Proof. apply startswith_spec. exists t. reflexivity. Qed.

Lemma startswith_cons_false (a b : ascii) (p s : str) :
  a <> b -> startswith (a :: p) (b :: s) = false.
Proof.
  intros H. cbn [startswith]. apply Ascii.eqb_neq in H. rewrite H.
  reflexivity.
Qed.

(** A pattern that matches across [a ++ b] either lies in [a] or runs
    over the whole of [a] and goes on in [b]. *)
Lemma startswith_split (p a b : str) :
  startswith p (a ++ b) = true ->
  (length p <= length a)%nat /\ startswith p a = true
  \/ (length a < length p)%nat
     /\ exists q, p = a ++ q /\ q <> [] /\ startswith q b = true.
Proof.
  revert a. induction p as [|x p IH]; intros a H.
  - left. split; [simpl; lia|reflexivity].
  - destruct a as [|y a].
    + right. split; [simpl; lia|]. exists (x :: p).
      split; [reflexivity|]. split; [discriminate|exact H].
    + cbn [app startswith] in H. apply andb_true_iff in H as [Hxy H].
      apply Ascii.eqb_eq in Hxy. subst y.
      destruct (IH a H) as [[Hl Hp]|[Hl (q & -> & Hq & Hs)]].
      * left. split; [simpl; lia|].
        cbn [startswith]. rewrite Ascii.eqb_refl. exact Hp.
      * right. split; [simpl; rewrite length_app in *; lia|].
        exists q. split; [reflexivity|]. split; assumption.
Qed.

Lemma contains_spec (sub s : str) :
  contains sub s = true <-> exists a b, s = a ++ sub ++ b.
Proof.
  unfold contains. split.
  - revert s. fix IH 1. intros s. destruct s as [|c s]; cbn [index_of].
    + destruct (startswith sub []) eqn:E; [|discriminate].
      intros _. apply startswith_spec in E as [t ->]. exists [], t.
      reflexivity.
    + destruct (startswith sub (c :: s)) eqn:E.
      * intros _. apply startswith_spec in E as [t ->]. exists [], t.
        reflexivity.
      * intros H. destruct (index_of sub s) eqn:I; [|discriminate].
        destruct (IH s) as (a & b & ->); [rewrite I; reflexivity|].
        exists (c :: a), b. reflexivity.
  - intros (a & b & ->). induction a as [|c a IH]; cbn [app].
    + destruct (sub ++ b) eqn:E; cbn [index_of]; rewrite <- E;
        rewrite startswith_app; reflexivity.
    + cbn [index_of]. destruct (startswith sub (c :: a ++ sub ++ b));
        [reflexivity|].
      destruct (index_of sub (a ++ sub ++ b)); [reflexivity|discriminate].
Qed.

Lemma contains_false_inside (sub a s b : str) :
  contains sub (a ++ s ++ b) = false -> contains sub s = false.
Proof.
  intros H. destruct (contains sub s) eqn:E; [|reflexivity].
  apply contains_spec in E as (a' & b' & ->).
  assert (C : contains sub (a ++ (a' ++ sub ++ b') ++ b) = true).
  { apply contains_spec. exists (a ++ a'), (b' ++ b).
    rewrite <- !app_assoc. reflexivity. }
  congruence.
Qed.

Lemma contains_of_startswith (pre sub s : str) :
  startswith (pre ++ sub) s = true -> contains sub s = true.
Proof.
  intros H. apply startswith_spec in H as [t ->].
  apply contains_spec. exists pre, t. rewrite <- app_assoc. reflexivity.
Qed.

(** *** [replace] step by step *)

Lemma replace_from_skip (old new s x : str) :
  replace_from old new (s ++ x) (length s) = replace_from old new x O.
Proof.
  induction s as [|c s IH]; [reflexivity|]. cbn [app length replace_from].
  exact IH.
Qed.

Lemma replace_from_pass (old new : str) (c : ascii) (y : str) :
  startswith old (c :: y) = false ->
  replace_from old new (c :: y) O = c :: replace_from old new y O.
Proof. intros H. cbn [replace_from]. rewrite H. reflexivity. Qed.

Lemma replace_from_hit (o : ascii) (old new x : str) :
  replace_from (o :: old) new ((o :: old) ++ x) O
  = new ++ replace_from (o :: old) new x O.
Proof.
  cbn [app replace_from]. change (o :: old ++ x) with ((o :: old) ++ x).
  rewrite startswith_app.
  replace (length (o :: old) - 1)%nat with (length old)
    by (cbn [length]; lia).
  rewrite replace_from_skip. reflexivity.
Qed.

(** *** Placeholders *)

Lemma ph_shape (k : kind) :
  ph k = underscore :: underscore :: marker k ++ number k
         ++ [underscore; underscore].
Proof.
  destruct k; reflexivity.
Qed.

Lemma uint_digits (d : Decimal.uint) :
  Forall (fun c => digit c = true) (lit (NilEmpty.string_of_uint d)).
Proof.
  induction d; cbn [NilEmpty.string_of_uint lit list_ascii_of_string];
    constructor; try reflexivity; assumption.
Qed.

Lemma to_int_not_nil (z : Z) :
  Z.to_int z <> Decimal.Pos Nil /\ Z.to_int z <> Decimal.Neg Nil.
Proof.
  destruct z as [|q|q]; cbn [Z.to_int]; split; try discriminate;
    intros H; injection H as H;
    apply (DecimalPos.Unsigned.to_uint_nonnil q); exact H.
Qed.

Lemma str_of_int_digits (z : Z) :
  0 <= z ->
  exists x d, str_of_int z = x :: d
              /\ Forall (fun c => digit c = true) (x :: d).
Proof.
  intros Hz. unfold str_of_int. destruct z as [|q|q]; [| |lia].
  - exists "0"%char, []. split; [reflexivity|].
    constructor; [reflexivity|constructor].
  - cbn [Z.to_int NilZero.string_of_int].
    pose proof (DecimalPos.Unsigned.to_uint_nonnil q) as Hn.
    pose proof (uint_digits (Pos.to_uint q)) as Hd.
    assert (E : NilZero.string_of_uint (Pos.to_uint q)
                = NilEmpty.string_of_uint (Pos.to_uint q))
      by (destruct (Pos.to_uint q); [congruence|reflexivity ..]).
    rewrite E.
    destruct (lit (NilEmpty.string_of_uint (Pos.to_uint q))) as [|x d] eqn:L.
    + destruct (Pos.to_uint q); [congruence|discriminate ..].
    + exists x, d. split; [reflexivity|exact Hd].
Qed.

Lemma number_digits (k : kind) :
  exists x d, number k = x :: d
              /\ Forall (fun c => digit c = true) (x :: d).
Proof. destruct k; apply str_of_int_digits; lia. Qed.

Lemma digit_not_underscore (c : ascii) : digit c = true -> c <> underscore.
Proof. intros H ->. discriminate. Qed.

Lemma str_of_int_inj (a b : Z) : str_of_int a = str_of_int b -> a = b.
Proof.
  unfold str_of_int, lit. intros H.
  apply (f_equal string_of_list_ascii) in H.
  rewrite !string_of_list_ascii_of_string in H.
  apply (f_equal NilZero.int_of_string) in H.
  destruct (to_int_not_nil a), (to_int_not_nil b).
  rewrite !NilZero.isi in H by assumption.
  injection H as H. apply DecimalZ.to_int_inj. exact H.
Qed.

Lemma ph_inj (a b : kind) : ph a = ph b -> a = b.
Proof.
  destruct a as [i|i], b as [j|j]; unfold ph, code_placeholder,
    table_placeholder; intros H; try discriminate.
  - apply app_inv_head, app_inv_tail, str_of_int_inj in H.
    f_equal. lia.
  - apply app_inv_head, app_inv_tail, str_of_int_inj in H.
    f_equal. lia.
Qed.

Lemma ph_chars (k : kind) :
  Forall (fun c => placeholder_char c = true) (ph k).
Proof.
  rewrite ph_shape. destruct (number_digits k) as (x & d & -> & Hd).
  repeat (constructor; [reflexivity|]).
  apply Forall_app. split.
  - destruct k; repeat (constructor; [reflexivity|]); constructor.
  - apply Forall_app. split.
    + eapply Forall_impl; [|exact Hd]. intros c Hc.
      unfold placeholder_char. rewrite Hc. apply orb_true_iff. left.
      apply orb_true_r.
    + repeat (constructor; [reflexivity|]). constructor.
Qed.

(** *** Texts with holes *)

Lemma render_app (a b : list tok) : render (a ++ b) = render a ++ render b.
Proof.
  induction a as [|[c|k] a IH]; cbn [app render]; [reflexivity| |];
    rewrite IH; [reflexivity|apply app_assoc].
Qed.

Lemma render_chars (r : str) : render (map Ch r) = r.
Proof. induction r as [|c r IH]; cbn [map render]; congruence. Qed.

Lemma expand_app (f : kind -> str) (a b : list tok) :
  expand f (a ++ b) = expand f a ++ expand f b.
Proof.
  induction a as [|[c|k] a IH]; cbn [app expand]; [reflexivity| |];
    rewrite IH; [reflexivity|apply app_assoc].
Qed.

Lemma expand_chars (f : kind -> str) (r : str) : expand f (map Ch r) = r.
Proof. induction r as [|c r IH]; cbn [map expand]; congruence. Qed.

Lemma marker_free_inside (a s b : str) :
  marker_free (a ++ s ++ b) -> marker_free s.
Proof.
  intros [H1 H2]. split; eapply contains_false_inside; eassumption.
Qed.

Lemma runs_free_tail (t : tok) (w : list tok) :
  runs_free (t :: w) -> runs_free w.
Proof.
  intros H a r b E. apply (H (t :: a) r b). rewrite E. reflexivity.
Qed.

Lemma expand_runs_free (f : kind -> str) (w : list tok) :
  marker_free (expand f w) -> runs_free w.
Proof.
  intros H a r b ->. rewrite !expand_app, expand_chars in H.
  eapply marker_free_inside. exact H.
Qed.

(** A text with holes begins with a run of characters, after which it
    ends or a hole comes. *)
Lemma leading_run (w : list tok) :
  exists r w', w = map Ch r ++ w'
               /\ (w' = [] \/ exists k w'', w' = Hl k :: w'').
Proof.
  induction w as [|[c|k] w (r & w' & -> & H)].
  - exists [], []. split; [reflexivity|left; reflexivity].
  - exists (c :: r), w'. split; [reflexivity|exact H].
  - exists [], (Hl k :: map Ch r ++ w'). split; [reflexivity|].
    right. exists k, (map Ch r ++ w'). reflexivity.
Qed.

Lemma render_after_run (w' : list tok) :
  w' = [] \/ (exists k w'', w' = Hl k :: w'') ->
  render w' = [] \/ exists z, render w' = underscore :: underscore :: z.
Proof.
  intros [->|(k & w'' & ->)]; [left; reflexivity|].
  right. cbn [render]. rewrite ph_shape. eexists. reflexivity.
Qed.

(** *** Where a placeholder can occur *)

(** If a pattern beginning with such a [K] matches a run [r] followed by
    the end of the text or by a hole, all of [K] lies in the run. *)
Lemma match_stays_in_run (K : str) :
  forall (x : ascii) (rest r nxt : str),
    nodbl K x = true -> x <> underscore ->
    nxt = [] \/ (exists z, nxt = underscore :: underscore :: z) ->
    startswith (K ++ x :: rest) (r ++ nxt) = true ->
    startswith K r = true.
Proof.
  induction K as [|a K IH]; intros x rest r nxt Hk Hx Hn H; [reflexivity|].
  cbn [nodbl] in Hk. apply andb_true_iff in Hk as [Ha Hk].
  destruct r as [|c r].
  - exfalso. cbn [app] in H. destruct Hn as [->|[z ->]]; [discriminate|].
    cbn [startswith] in H. apply andb_true_iff in H as [H1 H2].
    rewrite H1 in Ha. cbn [andb negb] in Ha.
    destruct K as [|b K]; cbn [app hd startswith] in *.
    + apply andb_true_iff in H2 as [H2 _]. apply Ascii.eqb_eq in H2.
      congruence.
    + apply andb_true_iff in H2 as [H2 _]. rewrite H2 in Ha. discriminate.
  - cbn [app startswith] in *. apply andb_true_iff in H as [H1 H2].
    rewrite H1. cbn [andb]. eapply IH; eassumption.
Qed.

Lemma nodbl_digits (s : str) (y : ascii) :
  Forall (fun c => digit c = true) s -> nodbl s y = true.
Proof.
  induction 1 as [|c s Hc _ IH]; [reflexivity|]. cbn [nodbl].
  apply digit_not_underscore, Ascii.eqb_neq in Hc. rewrite Hc, IH.
  reflexivity.
Qed.

Lemma nodbl_app (a b : str) (x y : ascii) :
  nodbl a x = true -> nodbl (x :: b) y = true ->
  nodbl (a ++ x :: b) y = true.
Proof.
  intros Ha Hb. induction a as [|c a IH]; [exact Hb|].
  cbn [nodbl app] in *. apply andb_true_iff in Ha as [H1 H2].
  rewrite IH by exact H2. rewrite andb_true_r.
  destruct a; cbn [app hd] in *; exact H1.
Qed.

Lemma nodbl_marker (k : kind) (pre : str) (x : ascii) :
  pre = [] \/ pre = [underscore] -> x <> underscore ->
  nodbl (pre ++ marker k) x = true.
Proof.
  intros Hp Hx. apply Ascii.eqb_neq in Hx.
  destruct Hp as [->| ->], k; cbn; rewrite Hx; reflexivity.
Qed.

(** After one or two underscores the rest of a placeholder cannot be
    read from a text whose runs are marker-free. *)
Lemma rest_of_placeholder_blocked (k : kind) (pre : str) (w : list tok) :
  pre = [] \/ pre = [underscore] -> runs_free w ->
  startswith (pre ++ marker k ++ number k ++ [underscore; underscore])
    (render w) = false.
Proof.
  intros Hp Hw.
  destruct (startswith _ (render w)) eqn:E; [exfalso|reflexivity].
  destruct (leading_run w) as (r & w' & -> & Hw').
  rewrite render_app, render_chars in E.
  destruct (number_digits k) as (x & d & Hn & Hd). rewrite Hn in E.
  assert (Hx : x <> underscore)
    by (apply digit_not_underscore; inversion Hd; assumption).
  rewrite app_assoc in E. cbn [app] in E.
  apply match_stays_in_run in E;
    [|apply nodbl_marker; assumption|exact Hx|apply render_after_run, Hw'].
  apply contains_of_startswith in E.
  destruct (Hw [] r w' eq_refl) as [H1 H2].
  destruct k; cbn [marker] in E; congruence.
Qed.

Lemma placeholder_blocked_1 (k : kind) (w : list tok) :
  runs_free w -> startswith (ph k) (underscore :: render w) = false.
Proof.
  intros Hw. rewrite ph_shape. cbn [startswith].
  rewrite Ascii.eqb_refl. cbn [andb].
  apply (rest_of_placeholder_blocked k [underscore] w); [right|]; auto.
Qed.

Lemma placeholder_blocked_2 (k : kind) (w : list tok) :
  runs_free w ->
  startswith (ph k) (underscore :: underscore :: render w) = false.
Proof.
  intros Hw. rewrite ph_shape. cbn [startswith].
  rewrite Ascii.eqb_refl. cbn [andb].
  apply (rest_of_placeholder_blocked k [] w); [left|]; auto.
Qed.

Lemma placeholder_blocked_char (k : kind) (c : ascii) (w : list tok) :
  runs_free (Ch c :: w) -> startswith (ph k) (c :: render w) = false.
Proof.
  intros Hw. destruct (ascii_dec c underscore) as [->|Hc].
  - apply placeholder_blocked_1. eapply runs_free_tail. exact Hw.
  - rewrite ph_shape. apply startswith_cons_false. congruence.
Qed.

(** *** Restoring one block *)

Lemma digits_sep (d d' y y' : str) :
  Forall (fun c => digit c = true) d ->
  Forall (fun c => digit c = true) d' ->
  d ++ underscore :: y = d' ++ underscore :: y' -> d = d'.
Proof.
  intros Hd. revert d'. induction Hd as [|c d Hc _ IH]; intros d' Hd' E.
  - destruct Hd' as [|c' d' Hc' _]; [reflexivity|].
    cbn [app] in E. injection E as E _. subst c'. discriminate.
  - destruct Hd' as [|c' d' Hc' Hd'].
    + cbn [app] in E. injection E as E _. subst c. discriminate.
    + cbn [app] in E. injection E as E1 E2. subst c'. f_equal.
      apply IH; assumption.
Qed.

Lemma number_inj (a b : kind) :
  marker a = marker b -> number a = number b -> a = b.
Proof.
  destruct a as [i|i], b as [j|j]; cbn [marker number]; intros Hm Hn;
    try discriminate; apply str_of_int_inj in Hn; f_equal; lia.
Qed.

(** Another hole's placeholder does not begin with this one. *)
Lemma other_placeholder_differs (k k' : kind) (x : str) :
  k <> k' -> startswith (ph k) (ph k' ++ x) = false.
Proof.
  intros Hk. destruct (startswith (ph k) (ph k' ++ x)) eqn:E;
    [exfalso|reflexivity].
  apply startswith_spec in E as [t E]. rewrite !ph_shape in E.
  cbn [app] in E. injection E as E.
  destruct (number_digits k) as (a & d & Ha & Hd).
  destruct (number_digits k') as (a' & d' & Ha' & Hd').
  assert (Hm : marker k = marker k').
  { destruct k, k'; cbn [marker] in *; try reflexivity; discriminate. }
  rewrite Hm in E. rewrite <- !app_assoc in E. apply app_inv_head in E.
  rewrite Ha, Ha' in E. cbn [app] in E.
  apply Hk, number_inj; [exact Hm|]. rewrite Ha, Ha'.
  symmetry. eapply digits_sep; eassumption.
Qed.

Lemma replace_from_through (p2 new s : str) (y : ascii) (z : str) :
  nodbl s y = true ->
  replace_from (underscore :: underscore :: p2) new (s ++ y :: z) O
  = s ++ replace_from (underscore :: underscore :: p2) new (y :: z) O.
Proof.
  induction s as [|c s IH]; intros H; [reflexivity|].
  cbn [nodbl] in H. apply andb_true_iff in H as [Hc H].
  cbn [app]. rewrite replace_from_pass; [rewrite IH by exact H; reflexivity|].
  cbn [startswith].
  destruct (Ascii.eqb underscore c) eqn:E1; [|reflexivity].
  rewrite Ascii.eqb_sym in E1. rewrite E1 in Hc. cbn [andb negb] in Hc.
  apply negb_true_iff in Hc.
  assert (E2 : exists h t, s ++ y :: z = h :: t /\ hd y s = h).
  { destruct s as [|h s]; cbn [app hd]; eexists; eexists; split;
      reflexivity. }
  destruct E2 as (h & t & -> & Hh). rewrite Hh in Hc. cbn [andb].
  rewrite Ascii.eqb_sym, Hc. reflexivity.
Qed.

Lemma nodbl_body (k : kind) (y : ascii) :
  nodbl (marker k ++ number k) y = true.
Proof.
  destruct (number_digits k) as (x & d & -> & Hd).
  apply nodbl_app.
  - apply (nodbl_marker k []); [left; reflexivity|].
    apply digit_not_underscore. inversion Hd; assumption.
  - apply nodbl_digits. exact Hd.
Qed.

Lemma ph_app (k : kind) (x : str) :
  ph k ++ x
  = underscore :: underscore
    :: (marker k ++ number k) ++ underscore :: underscore :: x.
Proof.
  rewrite ph_shape. cbn [app]. rewrite <- !app_assoc. reflexivity.
Qed.

(** [replace] walks over the placeholder of another hole. *)
Lemma replace_from_other_hole (k k' : kind) (new : str) (w : list tok) :
  k <> k' -> runs_free w ->
  replace_from (ph k) new (ph k' ++ render w) O
  = ph k' ++ replace_from (ph k) new (render w) O.
Proof.
  intros Hk Hw.
  pose proof (other_placeholder_differs k k' (render w) Hk) as H0.
  pose proof (placeholder_blocked_1 k w Hw) as H3.
  pose proof (placeholder_blocked_2 k w Hw) as H2.
  assert (H1 : startswith (ph k)
                 (underscore :: (marker k' ++ number k')
                  ++ underscore :: underscore :: render w) = false).
  { rewrite ph_shape. destruct k'; reflexivity. }
  rewrite !ph_app in *.
  rewrite replace_from_pass by exact H0. f_equal.
  rewrite replace_from_pass by exact H1. f_equal.
  rewrite (ph_shape k) in *.
  rewrite replace_from_through by apply nodbl_body. f_equal.
  rewrite replace_from_pass by exact H2. f_equal.
  rewrite replace_from_pass by exact H3. reflexivity.
Qed.

(** [replace] of the placeholder of [k] by [new] fills the holes [k]. *)
Lemma replace_renders_fill (k : kind) (new : str) (w : list tok) :
  runs_free w ->
  replace (ph k) new (render w) = render (fill k new w).
Proof.
  assert (E : replace (ph k) new (render w)
              = replace_from (ph k) new (render w) O)
    by (rewrite ph_shape; reflexivity).
  rewrite E. clear E.
  induction w as [|[c|k'] w IH]; intros Hw; [reflexivity| |].
  - cbn [render fill].
    rewrite replace_from_pass by (apply placeholder_blocked_char; exact Hw).
    rewrite IH by (eapply runs_free_tail; exact Hw). reflexivity.
  - cbn [render fill]. apply runs_free_tail in Hw.
    destruct (kind_eq_dec k k') as [<-|Hk].
    + rewrite render_app, render_chars, <- IH by exact Hw.
      rewrite (ph_shape k). apply replace_from_hit.
    + rewrite replace_from_other_hole by assumption.
      cbn [render]. rewrite IH by exact Hw. reflexivity.
Qed.

Lemma expand_fill (f : kind -> str) (k : kind) (w : list tok) :
  expand f (fill k (f k) w) = expand f w.
Proof.
  induction w as [|[c|k'] w IH]; cbn [fill expand]; [reflexivity| |].
  - rewrite IH. reflexivity.
  - destruct (kind_eq_dec k k') as [<-|Hk].
    + rewrite expand_app, expand_chars, IH. reflexivity.
    + cbn [expand]. rewrite IH. reflexivity.
Qed.

(** *** Protecting one block *)

Lemma ends_clean_tail (a : ascii) (m : str) :
  ends_clean (a :: m) -> ends_clean m.
Proof.
  intros [H|(g & c & E & Hc)]; [discriminate|].
  destruct m as [|b m]; [left; reflexivity|]. right.
  destruct g as [|a' g]; [discriminate|].
  cbn [app] in E. injection E as _ E. exists g, c. split; assumption.
Qed.

Lemma marker_free_tail (a : ascii) (m : str) :
  marker_free (a :: m) -> marker_free m.
Proof.
  intros H. apply (marker_free_inside [a] m []). rewrite app_nil_r. exact H.
Qed.

Lemma prefix_of_placeholder_not_clean (k : kind) (m t : str) :
  m <> [] -> ph k = m ++ t -> ends_clean m -> False.
Proof.
  intros Hm E [H|(g & c & -> & Hc)]; [contradiction|].
  pose proof (ph_chars k) as Hp. rewrite E in Hp.
  apply Forall_app in Hp as [Hp _]. apply Forall_app in Hp as [_ Hp].
  inversion Hp; subst. congruence.
Qed.

(** A clean, marker-free string read from a text with holes is read from
    characters only. *)
Lemma match_is_chars (m : str) :
  forall w : list tok,
    ends_clean m -> marker_free m ->
    startswith m (render w) = true ->
    exists b, w = map Ch m ++ b.
Proof.
  induction m as [|a m IH]; intros w He Hf H; [exists w; reflexivity|].
  destruct w as [|[c|k] w]; cbn [render] in H; [discriminate| |].
  - cbn [startswith] in H. apply andb_true_iff in H as [H1 H2].
    apply Ascii.eqb_eq in H1. subst c.
    destruct (IH w) as [b ->];
      [eapply ends_clean_tail; eassumption
      |eapply marker_free_tail; eassumption|exact H2|].
    exists b. reflexivity.
  - exfalso. apply startswith_split in H as [[_ H]|[_ (q & E & _ & _)]].
    + apply startswith_spec in H as [t E].
      eapply prefix_of_placeholder_not_clean; [|exact E|exact He].
      discriminate.
    + assert (C : contains (marker k) (a :: m) = true).
      { apply contains_spec.
        exists [underscore; underscore],
          (number k ++ [underscore; underscore] ++ q).
        rewrite E, ph_shape. cbn [app]. rewrite <- !app_assoc. reflexivity. }
      destruct Hf as [H1 H2]. destruct k; cbn [marker] in C; congruence.
Qed.

Lemma replace_first_over (c0 : ascii) (m new s x : str) :
  Forall (fun c => c <> c0) s ->
  replace_first (c0 :: m) new (s ++ x)
  = s ++ replace_first (c0 :: m) new x.
Proof.
  induction 1 as [|c s Hc _ IH]; [reflexivity|].
  cbn [app]. cbn [replace_first].
  rewrite startswith_cons_false by congruence. rewrite IH. reflexivity.
Qed.

Lemma skipn_length_app {A} (a b : list A) : skipn (length a) (a ++ b) = b.
Proof. induction a as [|x a IH]; [reflexivity|exact IH]. Qed.

(** [replace(m, placeholder, 1)] puts one hole in the place of characters
    that spell [m], or finds no [m] and changes nothing. *)
Lemma replace_first_makes_hole (k : kind) (m : str) (w : list tok) :
  protectable m ->
  exists w',
    replace_first m (ph k) (render w) = render w'
    /\ (w' = w
        \/ exists a b, w = a ++ map Ch m ++ b /\ w' = a ++ Hl k :: b).
Proof.
  intros ((c0 & m' & -> & Hc0) & He & Hf).
  induction w as [|[c|k'] w (w' & E & Hw')].
  - exists []. split; [reflexivity|left; reflexivity].
  - cbn [render]. cbn [replace_first].
    destruct (startswith (c0 :: m') (c :: render w)) eqn:S.
    + destruct (match_is_chars (c0 :: m') (Ch c :: w) He Hf S) as [b Hb].
      exists (Hl k :: b). split.
      * change (c :: render w) with (render (Ch c :: w)).
        rewrite Hb, render_app, render_chars, skipn_length_app. reflexivity.
      * right. exists [], b. split; [exact Hb|reflexivity].
    + exists (Ch c :: w'). split; [cbn [render]; rewrite E; reflexivity|].
      destruct Hw' as [->|(a & b & -> & ->)]; [left; reflexivity|].
      right. exists (Ch c :: a), b. split; reflexivity.
  - cbn [render]. rewrite replace_first_over.
    + exists (Hl k' :: w'). split; [cbn [render]; rewrite E; reflexivity|].
      destruct Hw' as [->|(a & b & -> & ->)]; [left; reflexivity|].
      right. exists (Hl k' :: a), b. split; reflexivity.
    + eapply Forall_impl; [|apply ph_chars]. intros c Hc ->. congruence.
Qed.

(** *** The block map *)

Section BlockMap.

(** The block each hole stands for. *)
Variable f : kind -> str.

Lemma dict_set_new (ks : list kind) (k : kind) :
  ~ In k ks ->
  dict_set (entries f ks) (ph k) (f k) = entries f (ks ++ [k]).
Proof.
  induction ks as [|k' ks IH]; intros Hk; [reflexivity|].
  cbn [entries map app dict_set]. unfold str_eqb.
  destruct (list_eq_dec ascii_dec (ph k) (ph k')) as [E|_].
  - exfalso. apply Hk. left. symmetry. apply ph_inj. exact E.
  - f_equal. apply IH. intros H. apply Hk. right. exact H.
Qed.

Lemma restore_entries (ks : list kind) :
  forall w : list tok,
    marker_free (expand f w) ->
    _restore_content (render w) (entries f ks) = render (fill_all f ks w).
Proof.
  induction ks as [|k ks IH]; intros w Hw; [reflexivity|].
  cbn [entries map _restore_content fill_all fold_left].
  rewrite replace_renders_fill by (eapply expand_runs_free; exact Hw).
  apply IH. rewrite expand_fill. exact Hw.
Qed.

Lemma in_fill (k k' : kind) (m : str) (w : list tok) :
  In (Hl k') (fill k m w) -> k' <> k /\ In (Hl k') w.
Proof.
  induction w as [|[c|k0] w IH]; cbn [fill]; [intros []| |].
  - intros [H|H]; [discriminate|]. apply IH in H as [H1 H2].
    split; [exact H1|right; exact H2].
  - destruct (kind_eq_dec k k0) as [<-|Hk].
    + intros H. apply in_app_or in H as [H|H].
      * apply in_map_iff in H as (c & Hc & _). discriminate.
      * apply IH in H as [H1 H2]. split; [exact H1|right; exact H2].
    + intros [H|H].
      * injection H as ->. split; [congruence|left; reflexivity].
      * apply IH in H as [H1 H2]. split; [exact H1|right; exact H2].
Qed.

Lemma render_without_holes (w : list tok) :
  holes_in [] w -> render w = expand f w.
Proof.
  induction w as [|[c|k] w IH]; intros H; [reflexivity| |].
  - cbn [render expand]. f_equal. apply IH. intros k Hk.
    apply (H k). right. exact Hk.
  - destruct (H k). left. reflexivity.
Qed.

Lemma fill_all_expands (ks : list kind) :
  forall w : list tok,
    holes_in ks w -> render (fill_all f ks w) = expand f w.
Proof.
  induction ks as [|k ks IH]; intros w Hw.
  - apply render_without_holes. exact Hw.
  - cbn [fill_all fold_left]. fold (fill_all f ks (fill k (f k) w)).
    rewrite IH; [apply expand_fill|].
    intros k' Hk'. apply in_fill in Hk' as [Hne Hin].
    destruct (Hw k' Hin) as [->|H]; [congruence|exact H].
Qed.

(** The loop of [_protect_content] over the matches of one family; [mk]
    numbers the holes of the family. *)
Lemma protect_loop_holes (mk : nat -> kind) (matches : list str) :
  (forall a b, mk a = mk b -> a = b) ->
  forall (i : nat) (w : list tok) (ks : list kind),
    (forall j, (j < length matches)%nat ->
               f (mk (i + j)%nat) = nth j matches []) ->
    Forall protectable matches ->
    holes_in ks w ->
    (forall j, ~ In (mk (i + j)%nat) ks) ->
    exists w',
      protect_loop (fun n => ph (mk n)) matches i (render w) (entries f ks)
      = (render w', entries f (ks ++ map mk (seq i (length matches))))
      /\ expand f w' = expand f w
      /\ holes_in (ks ++ map mk (seq i (length matches))) w'.
Proof.
  intros Hinj. induction matches as [|m ms IH]; intros i w ks Hf Hp Hw Hk.
  - exists w. cbn [protect_loop length seq map]. rewrite app_nil_r.
    split; [reflexivity|]. split; [reflexivity|exact Hw].
  - assert (Hm : f (mk i) = m).
    { specialize (Hf O). rewrite Nat.add_0_r in Hf. apply Hf.
      cbn [length]. lia. }
    inversion Hp as [|? ? Hpm Hps]; subst.
    destruct (replace_first_makes_hole (mk i) (f (mk i)) w Hpm)
      as (w1 & E1 & Hw1).
    cbn [protect_loop]. rewrite E1.
    assert (Hfresh : ~ In (mk i) ks).
    { specialize (Hk O). rewrite Nat.add_0_r in Hk. exact Hk. }
    rewrite (dict_set_new ks (mk i) Hfresh).
    destruct (IH (S i) w1 (ks ++ [mk i])) as (w' & E & Hx & Hh).
    + intros j Hj. replace (S i + j)%nat with (i + S j)%nat by lia.
      rewrite Hf by (cbn [length]; lia). reflexivity.
    + exact Hps.
    + intros k Hin. apply in_or_app.
      destruct Hw1 as [->|(a & b & -> & ->)]; [left; apply Hw, Hin|].
      apply in_app_or in Hin as [Hin|[Hin|Hin]].
      * left. apply Hw. apply in_or_app. left. exact Hin.
      * right. left. congruence.
      * left. apply Hw. apply in_or_app. right. apply in_or_app. right.
        exact Hin.
    + intros j Hin. apply in_app_or in Hin as [Hin|[Hin|[]]].
      * apply (Hk (S j)). replace (i + S j)%nat with (S i + j)%nat by lia.
        exact Hin.
      * apply Hinj in Hin. lia.
    + exists w'. cbn [length seq map].
      replace (ks ++ mk i :: map mk (seq (S i) (length ms)))
        with ((ks ++ [mk i]) ++ map mk (seq (S i) (length ms)))
        by (rewrite <- app_assoc; reflexivity).
      split; [exact E|]. split; [|exact Hh].
      rewrite Hx. destruct Hw1 as [->|(a & b & -> & ->)]; [reflexivity|].
      rewrite !expand_app, expand_chars. reflexivity.
Qed.

End BlockMap.

(** *** What the two patterns match *)

Lemma finditer_from_Forall (m : str -> option str) (Q : str -> Prop) :
  (forall s g, m s = Some g -> Q g) ->
  forall s skip, Forall Q (finditer_from m s skip).
Proof.
  intros Hm. induction s as [|c s IH]; intros skip; cbn [finditer_from];
    [constructor|].
  destruct skip as [|n]; [|apply IH].
  destruct (m (c :: s)) as [g|] eqn:E; [|apply IH].
  constructor; [eapply Hm; exact E|apply IH].
Qed.

Lemma finditer_from_inside (m : str -> option str) :
  (forall s g, m s = Some g -> exists b, s = g ++ b) ->
  forall s skip g,
    In g (finditer_from m s skip) -> exists a b, s = a ++ g ++ b.
Proof.
  intros Hm. induction s as [|c s IH]; intros skip g; cbn [finditer_from];
    [intros []|].
  assert (Hrec : forall n, In g (finditer_from m s n) ->
                           exists a b, c :: s = a ++ g ++ b).
  { intros n H. apply IH in H as (a & b & ->). exists (c :: a), b.
    reflexivity. }
  destruct skip as [|n]; [|apply Hrec].
  destruct (m (c :: s)) as [g0|] eqn:E; [|apply Hrec].
  intros [<-|H]; [|eapply Hrec; exact H].
  apply Hm in E as [b E]. exists [], b. exact E.
Qed.

Lemma index_of_found (sub : str) :
  forall s j, index_of sub s = Some j -> exists a b, s = a ++ sub ++ b
                                                    /\ length a = j.
Proof.
  induction s as [|c s IH]; intros j; cbn [index_of].
  - destruct (startswith sub []) eqn:E; [|discriminate].
    intros [= <-]. apply startswith_spec in E as [t E]. exists [], t.
    split; [exact E|reflexivity].
  - destruct (startswith sub (c :: s)) eqn:E.
    + intros [= <-]. apply startswith_spec in E as [t E]. exists [], t.
      split; [exact E|reflexivity].
    + destruct (index_of sub s) as [n|]; [|discriminate].
      intros [= <-]. destruct (IH n eq_refl) as (a & b & -> & <-).
      exists (c :: a), b. split; reflexivity.
Qed.

Lemma firstn_length_app {A} (a b : list A) : firstn (length a) (a ++ b) = a.
Proof. induction a as [|x a IH]; [reflexivity|]. cbn. rewrite IH. reflexivity.
Qed.

Lemma firstn_plus {A} (n k : nat) (l : list A) :
  firstn (n + k) l = firstn n l ++ firstn k (skipn n l).
Proof.
  revert l. induction n as [|n IH]; intros l; [reflexivity|].
  destruct l as [|x l]; cbn [Nat.add firstn skipn app].
  - destruct k; reflexivity.
  - rewrite IH. reflexivity.
Qed.

Lemma code_match_shape (s g : str) :
  CODE_BLOCK_PATTERN s = Some g -> match_shape backquote backquote s g.
Proof.
  unfold CODE_BLOCK_PATTERN.
  destruct (startswith fence s) eqn:S; [|discriminate].
  apply startswith_spec in S as [t ->].
  change (skipn 3 (fence ++ t)) with t.
  destruct (index_of fence t) as [j|] eqn:I; [|discriminate].
  intros H.
  assert (Hg : g = firstn (3 + j + 3) (fence ++ t)) by congruence.
  clear H. subst g.
  destruct (index_of_found fence t j I) as (a & b & -> & <-).
  assert (E : firstn (3 + length a + 3) (fence ++ a ++ fence ++ b)
              = fence ++ a ++ fence).
  { replace (fence ++ a ++ fence ++ b) with ((fence ++ a ++ fence) ++ b)
      by (rewrite <- !app_assoc; reflexivity).
    replace (3 + length a + 3)%nat with (length (fence ++ a ++ fence))
      by (rewrite !length_app; cbn; lia).
    apply firstn_length_app. }
  rewrite E. split; [|split].
  - exists b. rewrite <- !app_assoc. reflexivity.
  - eexists. reflexivity.
  - exists (fence ++ a ++ [backquote; backquote]).
    rewrite <- !app_assoc. reflexivity.
Qed.

Lemma table_row_shape (s : str) (r : nat) :
  table_row s = Some r ->
  (exists s', s = bar :: s') /\ (exists g', firstn r s = g' ++ [nl]).
Proof.
  unfold table_row. destruct s as [|c rest]; [discriminate|].
  destruct (ascii_dec c bar) as [->|Hc].
  - destruct (index_of [nl] rest) as [q|] eqn:I; [|discriminate].
    destruct ((2 <=? q)%nat && _); [|discriminate].
    intros H. change (Some (q + 2)%nat = Some r) in H.
    assert (Hr : r = (q + 2)%nat) by congruence. clear H. subst r.
    split; [eexists; reflexivity|].
    destruct (index_of_found [nl] rest q I) as (a & b & -> & <-).
    exists (bar :: a).
    replace (length a + 2)%nat with (length ((bar :: a) ++ [nl]))
      by (rewrite length_app; cbn [length]; lia).
    replace (bar :: a ++ [nl] ++ b) with (((bar :: a) ++ [nl]) ++ b)
      by (cbn [app]; rewrite <- app_assoc; reflexivity).
    apply firstn_length_app.
  - destruct c as [[] [] [] [] [] [] [] []]; try discriminate.
    exfalso. apply Hc. reflexivity.
Qed.

Lemma table_rows_shape (fuel : nat) :
  forall s n,
    table_rows fuel s = S n ->
    (exists s', s = bar :: s') /\ (exists g', firstn (S n) s = g' ++ [nl]).
Proof.
  induction fuel as [|fuel IH]; intros s n; cbn [table_rows];
    [discriminate|].
  destruct (table_row s) as [r|] eqn:R; [|discriminate].
  intros E. apply table_row_shape in R as [Hs [g Hg]].
  split; [exact Hs|]. rewrite <- E, firstn_plus, Hg.
  destruct (table_rows fuel (skipn r s)) as [|n'] eqn:T.
  - exists g. cbn [firstn]. rewrite app_nil_r. reflexivity.
  - destruct (IH _ _ T) as [_ [g' Hg']]. rewrite Hg'.
    exists ((g ++ [nl]) ++ g'). rewrite <- !app_assoc. reflexivity.
Qed.

Lemma table_match_shape (s g : str) :
  TABLE_PATTERN s = Some g -> match_shape bar nl s g.
Proof.
  unfold TABLE_PATTERN.
  destruct (table_rows (length s) s) as [|n] eqn:T; [discriminate|].
  intros [= <-]. apply table_rows_shape in T as [[s' ->] Hl].
  split; [|split].
  - exists (skipn (S n) (bar :: s')). symmetry.
    exact (firstn_skipn (S n) (bar :: s')).
  - eexists. reflexivity.
  - exact Hl.
Qed.

Lemma shaped_match_protectable (first last : ascii) (s g : str) :
  placeholder_char first = false -> placeholder_char last = false ->
  match_shape first last s g -> marker_free g -> protectable g.
Proof.
  intros Hf Hl (_ & [g1 E1] & [g2 E2]) Hm. split; [|split].
  - exists first, g1. split; assumption.
  - right. exists g2, last. split; assumption.
  - exact Hm.
Qed.

(** *** The round trip *)

(** Two texts with balanced fences and well-formed tables that
    protecting and restoring does not give back.  On a text that already
    spells the first placeholder, restoring replaces that spelling too;
    and a code block inside a table row stays a placeholder, because the
    table that holds it is restored after the code blocks. *)
Lemma round_trip_fails :
  (balanced_fences placeholder_text
   /\ well_formed_tables placeholder_text
   /\ round_trip placeholder_text = lit "```x``````x```"
   /\ round_trip placeholder_text <> placeholder_text)
  /\ (balanced_fences code_in_table_text
      /\ well_formed_tables code_in_table_text
      /\ round_trip code_in_table_text
         = lit "|a __CODE_BLOCK_0__ b|" ++ [nl]
      /\ round_trip code_in_table_text <> code_in_table_text).
Proof.
  split; (split; [reflexivity|]); (split; [|split]).
  - repeat constructor; discriminate.
  - vm_compute. reflexivity.
  - vm_compute. discriminate.
  - repeat constructor; try discriminate.
  - vm_compute. reflexivity.
  - vm_compute. discriminate.
Qed.

Lemma marker_free_iff (s : str) :
  marker_free s
  <-> contains (lit "CODE_BLOCK_") s = false
      /\ contains (lit "TABLE_") s = false.
Proof. reflexivity. Qed.

Lemma matches_protectable (m : str -> option str) (first last : ascii)
    (s : str) :
  (forall s g, m s = Some g -> match_shape first last s g) ->
  placeholder_char first = false -> placeholder_char last = false ->
  (forall g, In g (finditer m s) -> marker_free g) ->
  Forall protectable (finditer m s).
Proof.
  intros Hm Hf Hl Hfree. apply Forall_forall. intros g Hg.
  assert (Hs : Forall (fun g => exists s, match_shape first last s g)
                 (finditer m s)).
  { apply finditer_from_Forall. intros s0 g0 E. exists s0. apply Hm, E. }
  rewrite Forall_forall in Hs. destruct (Hs g Hg) as [s0 Hs0].
  eapply shaped_match_protectable; [exact Hf|exact Hl|exact Hs0|].
  apply Hfree, Hg.
Qed.

(** C4, what the code does: the text [|a ```x``` b|] followed by a
    newline, a table row that holds a code block, has balanced fences and
    a well-formed table.  [_protect_content] replaces the code block by
    its placeholder, then the row, that placeholder included, by the
    placeholder of the table.  [_restore_content] substitutes in the
    order of insertion: the code block first, whose placeholder does not
    occur yet, then the table, so that the row comes back with
    [__CODE_BLOCK_0__] in it and the code block is lost.  The same
    substitutions in the reverse order give the text back.  The claim
    says that restoring gives the text back. *)
Theorem code_block_in_table_row_is_lost :
  balanced_fences code_in_table_text
  /\ well_formed_tables code_in_table_text
  /\ _protect_content code_in_table_text
     = (lit "__TABLE_0__",
        [(lit "__CODE_BLOCK_0__", lit "```x```");
         (lit "__TABLE_0__", lit "|a __CODE_BLOCK_0__ b|" ++ [nl])])
  /\ _restore_content (fst (_protect_content code_in_table_text))
       (snd (_protect_content code_in_table_text))
     = lit "|a __CODE_BLOCK_0__ b|" ++ [nl]
  /\ _restore_content (fst (_protect_content code_in_table_text))
       (snd (_protect_content code_in_table_text))
     <> code_in_table_text
  /\ _restore_content (fst (_protect_content code_in_table_text))
       (rev (snd (_protect_content code_in_table_text)))
     = code_in_table_text.
Proof.
  split; [reflexivity|]. split; [repeat constructor; discriminate|].
  split; [vm_compute; reflexivity|]. split; [vm_compute; reflexivity|].
  split; [vm_compute; discriminate|vm_compute; reflexivity].
Qed.

(** X24: where protecting and restoring is the identity.  When neither
    marker of a placeholder ("CODE_BLOCK_", "TABLE_") occurs in the text,
    and none occurs in a table found once the code blocks are protected
    (no table holds a protected code block), restoring the protected
    text with its block map gives the text back, whether or not its
    fences are balanced. *)
Theorem protect_restore_round_trip :
  forall text : str,
    contains (lit "CODE_BLOCK_") text = false ->
    contains (lit "TABLE_") text = false ->
    (forall t,
       In t (finditer TABLE_PATTERN
               (fst (protect_loop code_placeholder
                       (finditer CODE_BLOCK_PATTERN text) O text []))) ->
       contains (lit "CODE_BLOCK_") t = false
       /\ contains (lit "TABLE_") t = false) ->
    _restore_content (fst (_protect_content text))
      (snd (_protect_content text)) = text.
Proof.
  intros text H1 H2 H3.
  assert (Hfree : marker_free text) by (split; assumption).
  unfold _protect_content.
  set (cms := finditer CODE_BLOCK_PATTERN text) in *.
  set (p1 := protect_loop code_placeholder cms O text []) in *.
  set (tms := finditer TABLE_PATTERN (fst p1)) in *.
  set (f := fun k => match k with
                     | KCode i => nth i cms []
                     | KTable i => nth i tms []
                     end).
  destruct (protect_loop_holes f KCode cms) with (i := O)
    (w := map Ch text) (ks := @nil kind) as (w1 & E1 & X1 & Hh1).
  { intros a b [= ->]. reflexivity. }
  { intros j _. reflexivity. }
  { apply (matches_protectable _ backquote backquote);
      [exact code_match_shape|reflexivity|reflexivity|].
    intros g Hg.
    apply (finditer_from_inside CODE_BLOCK_PATTERN) in Hg as (a & b & E).
    - rewrite E in Hfree. eapply marker_free_inside. exact Hfree.
    - intros s0 g0 Hs0. apply code_match_shape in Hs0 as [Hb _]. exact Hb. }
  { intros k Hk. apply in_map_iff in Hk as (c & Hc & _). discriminate. }
  { intros j []. }
  rewrite render_chars in E1. cbn [entries map app] in E1.
  change (protect_loop code_placeholder cms O text [] =
          (render w1, entries f (map KCode (seq 0 (length cms))))) in E1.
  fold p1 in E1.
  rewrite expand_chars in X1.
  destruct (protect_loop_holes f KTable tms) with (i := O)
    (w := w1) (ks := map KCode (seq 0 (length cms)))
    as (w2 & E2 & X2 & Hh2).
  { intros a b [= ->]. reflexivity. }
  { intros j _. reflexivity. }
  { apply (matches_protectable _ bar nl);
      [exact table_match_shape|reflexivity|reflexivity|].
    intros g Hg. apply H3. exact Hg. }
  { exact Hh1. }
  { intros j Hj. apply in_map_iff in Hj as (n & Hn & _). discriminate. }
  destruct p1 as [text1 blocks1]. cbn [fst] in *.
  injection E1 as -> ->.
  change (protect_loop table_placeholder tms O (render w1)
            (entries f (map KCode (seq 0 (length cms)))) =
          (render w2,
           entries f (map KCode (seq 0 (length cms))
                      ++ map KTable (seq 0 (length tms))))) in E2.
  fold tms. rewrite E2. cbn [fst snd].
  rewrite restore_entries by (rewrite X2, X1; exact Hfree).
  rewrite fill_all_expands by exact Hh2.
  rewrite X2, X1. reflexivity.
Qed.

Lemma protect_restore_round_trip_witness :
  _restore_content (fst (_protect_content fenced_and_tabled_text))
    (snd (_protect_content fenced_and_tabled_text))
  = fenced_and_tabled_text.
Proof.
  apply (protect_restore_round_trip fenced_and_tabled_text).
  - vm_compute. reflexivity.
  - vm_compute. reflexivity.
  - intros t Ht. vm_compute in Ht. destruct Ht as [<-|[]].
    split; vm_compute; reflexivity.
Defined.

(* ================================================================== *)
(** ** More about the chunker *)

(** *** [split] *)

(** The pieces of [split], with the separator between them, spell the
    text. *)
Lemma split_from_spells (sep : str) :
  sep <> [] ->
  forall s k, (k <= length s)%nat ->
    exists p ps, split_from sep s k = p :: ps
                 /\ skipn k s = p ++ flat_map (fun q => sep ++ q) ps.
Proof.
  intros Hsep. induction s as [|c s IH]; intros k Hk.
  - exists [], []. destruct k; [|cbn in Hk; lia]. split; reflexivity.
  - destruct k as [|k].
    + cbn [split_from skipn].
      destruct (startswith sep (c :: s)) eqn:E.
      * apply startswith_spec in E as [t Et].
        destruct sep as [|a sep']; [congruence|].
        cbn [app] in Et. injection Et as -> ->.
        destruct (IH (length (a :: sep') - 1)%nat) as (p & ps & E1 & E2).
        { cbn [length]. rewrite length_app. lia. }
        exists [], (p :: ps). split; [rewrite E1; reflexivity|].
        replace (length (a :: sep') - 1)%nat with (length sep') in E2
          by (cbn [length]; lia).
        rewrite skipn_app, skipn_all, Nat.sub_diag in E2.
        change (t = p ++ flat_map (fun q => (a :: sep') ++ q) ps) in E2.
        rewrite E2. cbn [flat_map].
        change ([] ++ ?x) with x. rewrite <- app_assoc. reflexivity.
      * destruct (IH O) as (p & ps & E1 & E2); [lia|].
        rewrite E1. exists (c :: p), ps. split; [reflexivity|].
        cbn [skipn] in E2. rewrite E2. reflexivity.
    + cbn [split_from skipn]. apply IH. cbn [length] in Hk. lia.
Qed.

Lemma split_spells (sep s : str) :
  sep <> [] ->
  exists p ps, split s sep = p :: ps
               /\ s = p ++ flat_map (fun q => sep ++ q) ps.
Proof.
  intros Hsep. destruct (split_from_spells sep Hsep s O) as (p & ps & E1 & E2);
    [lia|]. exists p, ps. split; [exact E1|exact E2].
Qed.

(** *** The splitter without overlap *)

Lemma len_slice (text : str) (a b : Z) :
  0 <= a -> a <= b -> b <= len text -> len (slice text a b) = b - a.
Proof.
  intros Ha Hab Hb. unfold slice, adjust, len in *.
  destruct (a <? 0) eqn:Ea; [apply Z.ltb_lt in Ea; lia|].
  destruct (b <? 0) eqn:Eb; [apply Z.ltb_lt in Eb; lia|].
  rewrite length_skipn, length_firstn. lia.
Qed.

(** No piece [_force_split] returns is empty. *)
Lemma force_split_loop_nonempty (fuel : nat) :
  forall text chunk_size overlap start chunks pieces,
    0 < chunk_size -> 0 <= start ->
    Forall (fun p => p <> []) chunks ->
    force_split_loop fuel text chunk_size overlap start chunks
    = Some pieces ->
    Forall (fun p => p <> []) pieces.
Proof.
  induction fuel as [|fuel IH];
    intros text cs ov start chunks pieces Hcs Hst Hch H; [discriminate|].
  destruct (Z.ltb_spec start (len text)) as [Hlt|Hge].
  - destruct (Z.ltb_spec 0 ov) as [Hov|Hov].
    + rewrite force_split_loop_stuck in H by assumption. discriminate.
    + cbn [force_split_loop] in H.
      apply Z.ltb_lt in Hlt as Hlt'. rewrite Hlt' in H.
      assert (Eov : (ov >? 0) = false)
        by (rewrite Z.gtb_ltb; apply Z.ltb_ge; lia).
      rewrite Eov in H.
      pose proof (force_split_end_range text cs start Hcs Hst Hlt) as Hr.
      pose proof (force_split_end_le text cs start) as Hle.
      cbv zeta in Hr, Hle. revert H Hr Hle.
      set (end_ := if Z.min (start + cs) (len text) <? len text then _ else _).
      intros H Hr Hle.
      apply IH in H; [exact H|exact Hcs|lia|].
      apply Forall_app. split; [exact Hch|].
      constructor; [|constructor].
      intros E.
      assert (Hl : len (slice text start end_) = end_ - start)
        by (apply len_slice; lia).
      rewrite E in Hl. unfold len in Hl. cbn [length] in Hl. lia.
  - cbn [force_split_loop] in H.
    apply Z.ltb_ge in Hge. rewrite Hge in H. inversion H; subst. exact Hch.
Qed.

Section Lossless.

Variable (chunk_size overlap : Z) (fuel : nat).
Hypothesis Hcs : 0 < chunk_size.
Hypothesis Hov : overlap <= 0.

Variable recur : str -> option (list str).
Hypothesis Hrec :
  forall t, (length t < fuel)%nat ->
    exists r, recur t = Some r /\ concat r = t
              /\ Forall (fun p => p <> []) r.

Lemma close_chunk_lossless (chunks : list str) (current_chunk : str) :
  (length current_chunk < fuel)%nat ->
  Forall (fun p => p <> []) chunks ->
  exists out,
    close_chunk recur chunk_size chunks current_chunk = Some out
    /\ concat out = concat chunks ++ current_chunk
    /\ Forall (fun p => p <> []) out.
Proof.
  intros Hlen Hch. unfold close_chunk.
  destruct current_chunk as [|c cur]; cbn [truthy].
  - exists chunks. rewrite app_nil_r. auto.
  - destruct (len (c :: cur) >? chunk_size).
    + destruct (Hrec (c :: cur) Hlen) as (r & -> & Hr & Hne).
      exists (chunks ++ r). rewrite concat_app, Hr.
      split; [reflexivity|]. split; [reflexivity|].
      apply Forall_app. auto.
    + exists (chunks ++ [c :: cur]). rewrite concat_app. cbn [concat].
      rewrite app_nil_r. split; [reflexivity|]. split; [reflexivity|].
      apply Forall_app. split; [exact Hch|].
      constructor; [discriminate|constructor].
Qed.

Lemma merge_splits_lossless (separator : str) (splits : list str) :
  forall i (chunks : list str) current_chunk,
    (0 < i)%nat ->
    (length (current_chunk ++ flat_map (fun q => separator ++ q) splits)
     < fuel)%nat ->
    Forall (fun p => p <> []) chunks ->
    exists chunks' current_chunk',
      merge_splits recur separator chunk_size overlap splits i chunks
        current_chunk = Some (chunks', current_chunk')
      /\ concat chunks' ++ current_chunk'
         = concat chunks ++ current_chunk
           ++ flat_map (fun q => separator ++ q) splits
      /\ (length current_chunk' < fuel)%nat
      /\ Forall (fun p => p <> []) chunks'.
Proof.
  induction splits as [|split rest IH]; intros i chunks cur Hi Hlen Hch;
    cbn [merge_splits flat_map] in *.
  - exists chunks, cur. rewrite app_nil_r in *. auto.
  - assert (Ei : (0 <? i)%nat = true) by (apply Nat.ltb_lt; exact Hi).
    rewrite Ei.
    rewrite !length_app in Hlen.
    destruct (len cur + len (separator ++ split) <=? chunk_size).
    + destruct (IH (S i) chunks (cur ++ separator ++ split))
        as (chunks' & cur' & E & Hcat & Hl & Hne); [lia| |exact Hch|].
      { rewrite !length_app. lia. }
      exists chunks', cur'. split; [exact E|]. split; [|auto].
      rewrite Hcat, <- !app_assoc. reflexivity.
    + destruct (close_chunk_lossless chunks cur) as (out & -> & Hout & Hne);
        [lia|exact Hch|].
      assert (Eov : (overlap >? 0) = false)
        by (rewrite Z.gtb_ltb; apply Z.ltb_ge; lia).
      rewrite Eov, andb_false_r.
      destruct (IH (S i) out (separator ++ split))
        as (chunks' & cur' & E & Hcat & Hl & Hne'); [lia| |exact Hne|].
      { rewrite !length_app. lia. }
      exists chunks', cur'. split; [exact E|]. split; [|auto].
      rewrite Hcat, Hout, <- !app_assoc. reflexivity.
Qed.

(** The first turn of the loop takes the first piece as it is. *)
Lemma merge_splits_first (separator split : str) (rest : list str) :
  merge_splits recur separator chunk_size overlap (split :: rest) O [] []
  = merge_splits recur separator chunk_size overlap rest 1 [] split.
Proof.
  cbn [merge_splits Nat.ltb Nat.leb close_chunk truthy andb app].
  destruct (len (@nil ascii) + len split <=? chunk_size); reflexivity.
Qed.

End Lossless.

(** Without overlap [_recursive_split] returns, and its segments, none
    of them empty, spell the text. *)
Lemma recursive_split_lossless (chunk_size overlap : Z) (fuel : nat)
    (separators : list str) :
  0 < chunk_size -> overlap <= 0 ->
  Forall (fun sep => sep <> []) separators ->
  forall text, (length text < fuel)%nat ->
    exists out,
      _recursive_split fuel separators text chunk_size overlap = Some out
      /\ concat out = text
      /\ Forall (fun p => p <> []) out.
Proof.
  intros Hcs Hov. induction separators as [|separator remaining IH];
    intros Hseps text Hlen; cbn [_recursive_split].
  - unfold _force_split.
    destruct (force_split_loop_progress fuel text chunk_size overlap 0 [])
      as (pieces & E & Hcat);
      [exact Hcs|exact Hov|pose proof (len_nonneg text); lia
      |unfold len; lia|reflexivity|].
    exists pieces. split; [exact E|]. split; [exact Hcat|].
    eapply force_split_loop_nonempty; [exact Hcs| |constructor|exact E]. lia.
  - inversion Hseps as [|? ? Hsep Hrem]; subst.
    specialize (IH Hrem).
    destruct (length (split text separator) =? 1)%nat; [apply IH; exact Hlen|].
    destruct (split_spells separator text Hsep) as (p & ps & -> & Etext).
    rewrite merge_splits_first.
    set (recur := fun t : str =>
           _recursive_split fuel remaining t chunk_size overlap).
    destruct (merge_splits_lossless chunk_size overlap fuel Hov recur IH
                separator ps 1 (@nil str) p)
      as (chunks & cur & Em & Hcat & Hl & Hne);
      [lia|rewrite <- Etext; exact Hlen|constructor|].
    rewrite Em.
    destruct (close_chunk_lossless chunk_size fuel recur IH chunks cur Hl Hne)
      as (out & E & Hout & Hne').
    exists out. split; [exact E|]. split; [|exact Hne'].
    rewrite Hout, Hcat, <- Etext. reflexivity.
Qed.

(** X2: without overlap the Boundary Splitter loses nothing.  For a
    positive chunk size, an overlap of zero (or less) and separators that
    are not empty, [_recursive_split] returns as soon as the step budget
    exceeds the length of the text; the segments it returns, put end to
    end, are the text itself, none of them is empty and none is longer
    than [chunk_size]. *)
Theorem recursive_split_without_overlap :
  forall (separators : list str) (text : str) (chunk_size overlap : Z)
         (fuel : nat),
    0 < chunk_size -> overlap <= 0 ->
    Forall (fun sep => sep <> []) separators ->
    (length text < fuel)%nat ->
    exists segments,
      _recursive_split fuel separators text chunk_size overlap
      = Some segments
      /\ concat segments = text
      /\ Forall (fun p => p <> [] /\ len p <= chunk_size) segments.
Proof.
  intros seps text cs ov fuel Hcs Hov Hseps Hlen.
  destruct (recursive_split_lossless cs ov fuel seps Hcs Hov Hseps text Hlen)
    as (out & E & Hcat & Hne).
  exists out. split; [exact E|]. split; [exact Hcat|].
  pose proof (recursive_split_bound fuel cs ov seps Hcs text out E) as Hb.
  apply Forall_forall. intros p Hp.
  rewrite Forall_forall in Hne, Hb. auto.
Qed.

Lemma separators_nonempty : Forall (fun sep : str => sep <> []) SEPARATORS.
Proof. repeat constructor; discriminate. Qed.

Lemma recursive_split_without_overlap_witness :
  exists segments,
    _recursive_split 40 SEPARATORS (lit "abc def ghi jkl") 10 0
    = Some segments
    /\ concat segments = lit "abc def ghi jkl"
    /\ Forall (fun p => p <> [] /\ len p <= 10) segments.
Proof.
  apply (recursive_split_without_overlap SEPARATORS (lit "abc def ghi jkl")
           10 0 40); [lia|lia|apply separators_nonempty|cbn; lia].
Defined.

(** X3: with [chunk_overlap <= 0] and a positive chunk size
    [chunk_content] returns for every document, once the step budget
    exceeds the length of the protected text. *)
Theorem chunk_content_returns_without_overlap :
  forall (self : HierarchicalChunker) (extracted : ExtractedContent)
         (fuel : nat),
    0 < chunk_size (config self) -> chunk_overlap (config self) <= 0 ->
    (length (fst (_protect_content (markdown_content extracted))) < fuel)%nat ->
    exists chunks, chunk_content self fuel extracted = Some chunks.
Proof.
  intros self extracted fuel Hcs Hov Hlen.
  unfold chunk_content, raw_chunks_of.
  destruct (_protect_content (markdown_content extracted)) as [p blocks].
  cbn [fst] in Hlen.
  destruct (recursive_split_lossless (chunk_size_chars (config self))
              (chunk_overlap_chars (config self)) fuel SEPARATORS)
    with (text := p) as (out & -> & _);
    [unfold chunk_size_chars; lia|unfold chunk_overlap_chars; lia
    |apply separators_nonempty|exact Hlen|].
  eexists. reflexivity.
Qed.

Lemma chunk_content_returns_without_overlap_witness :
  exists chunks,
    chunk_content no_overlap_chunker 200 sample_extracted = Some chunks.
Proof.
  apply (chunk_content_returns_without_overlap no_overlap_chunker
           sample_extracted 200); [cbn; lia|cbn; lia|vm_compute; lia].
Defined.

(** *** Which characters the segments are made of *)

Lemma contains_cons_false (sub : str) (c : ascii) (s : str) :
  contains sub (c :: s) = false ->
  startswith sub (c :: s) = false /\ contains sub s = false.
Proof.
  unfold contains. cbn [index_of].
  destruct (startswith sub (c :: s)); [discriminate|].
  destruct (index_of sub s); [discriminate|auto].
Qed.

(** A separator that does not occur splits nothing. *)
Lemma split_absent (sep : str) :
  forall s, contains sep s = false -> split s sep = [s].
Proof.
  unfold split. induction s as [|c s IH]; intros H; [reflexivity|].
  apply contains_cons_false in H as [H1 H2].
  cbn [split_from]. rewrite H1, (IH H2). reflexivity.
Qed.

Lemma recursive_split_no_separator (fuel : nat) (chunk_size overlap : Z)
    (text : str) (separators : list str) :
  Forall (fun sep => contains sep text = false) separators ->
  _recursive_split fuel separators text chunk_size overlap
  = _force_split fuel text chunk_size overlap.
Proof.
  induction 1 as [|sep seps Hsep _ IH]; cbn [_recursive_split];
    [reflexivity|].
  rewrite (split_absent sep text Hsep). cbn [length Nat.eqb]. exact IH.
Qed.

Lemma contains_needs_char (sub s : str) (c : ascii) :
  In c sub -> ~ In c s -> contains sub s = false.
Proof.
  intros Hin Hout. destruct (contains sub s) eqn:E; [|reflexivity].
  apply contains_spec in E as (a & b & ->). exfalso. apply Hout.
  apply in_or_app. right. apply in_or_app. left. exact Hin.
Qed.

Section Chars.

Variable P : ascii -> Prop.

Lemma replace_first_Forall (old new : str) :
  Forall P new ->
  forall s, Forall P s -> Forall P (replace_first old new s).
Proof.
  intros Hnew. induction s as [|c s IH]; intros Hs.
  - cbn [replace_first]. destruct (startswith old []); [|constructor].
    apply Forall_app. split; [exact Hnew|].
    destruct (length old); constructor.
  - cbn [replace_first]. destruct (startswith old (c :: s)).
    + apply Forall_app. split; [exact Hnew|].
      rewrite <- (firstn_skipn (length old) (c :: s)) in Hs.
      apply Forall_app in Hs. apply Hs.
    + inversion Hs; subst. constructor; auto.
Qed.

Lemma replace_from_Forall (old new : str) :
  Forall P new ->
  forall s skip, Forall P s -> Forall P (replace_from old new s skip).
Proof.
  intros Hnew. induction s as [|c s IH]; intros skip Hs; [constructor|].
  inversion Hs; subst. cbn [replace_from]. destruct skip; [|auto].
  destruct (startswith old (c :: s)).
  - apply Forall_app. auto.
  - constructor; auto.
Qed.

Lemma replace_Forall (old new s : str) :
  Forall P new -> Forall P s -> Forall P (replace old new s).
Proof.
  intros Hnew Hs. unfold replace. destruct old.
  - apply Forall_app. split; [exact Hnew|].
    induction Hs; cbn [flat_map]; [constructor|].
    constructor; [assumption|]. apply Forall_app. auto.
  - apply replace_from_Forall; assumption.
Qed.

Lemma dict_set_values (d : dict) (k v : str) :
  Forall (fun e => Forall P (snd e)) d -> Forall P v ->
  Forall (fun e => Forall P (snd e)) (dict_set d k v).
Proof.
  intros Hd Hv. induction Hd as [|[k' v'] d Hk' Hd IH]; cbn [dict_set].
  - constructor; [exact Hv|constructor].
  - destruct (str_eqb k k'); constructor; auto.
Qed.

Lemma protect_loop_Forall (placeholder : nat -> str) :
  (forall i, Forall P (placeholder i)) ->
  forall matches i text blocks,
    Forall P text ->
    Forall (Forall P) matches ->
    Forall (fun e => Forall P (snd e)) blocks ->
    Forall P (fst (protect_loop placeholder matches i text blocks))
    /\ Forall (fun e => Forall P (snd e))
         (snd (protect_loop placeholder matches i text blocks)).
Proof.
  intros Hph. induction matches as [|m ms IH]; intros i text blocks Ht Hm Hb;
    cbn [protect_loop]; [auto|].
  inversion Hm; subst. apply IH.
  - apply replace_first_Forall; auto.
  - assumption.
  - apply dict_set_values; assumption.
Qed.

Lemma finditer_Forall (m : str -> option str) :
  (forall s g, m s = Some g -> exists b, s = g ++ b) ->
  forall s, Forall P s -> Forall (Forall P) (finditer m s).
Proof.
  intros Hm s Hs. apply Forall_forall. intros g Hg.
  destruct (finditer_from_inside m Hm s O g Hg) as (a & b & ->).
  apply Forall_app in Hs as [_ Hs]. apply Forall_app in Hs as [Hs _].
  exact Hs.
Qed.

Lemma code_match_prefix (s g : str) :
  CODE_BLOCK_PATTERN s = Some g -> exists b, s = g ++ b.
Proof.
  unfold CODE_BLOCK_PATTERN. destruct (startswith fence s); [|discriminate].
  destruct (index_of fence (skipn 3 s)) as [j|]; [|discriminate].
  intros E. assert (Eg : firstn (3 + j + 3) s = g) by congruence.
  exists (skipn (3 + j + 3) s). rewrite <- Eg. symmetry.
  apply firstn_skipn.
Qed.

Lemma table_match_prefix (s g : str) :
  TABLE_PATTERN s = Some g -> exists b, s = g ++ b.
Proof.
  unfold TABLE_PATTERN.
  destruct (table_rows (length s) s) as [|n]; [discriminate|].
  intros E. assert (Eg : firstn (S n) s = g) by congruence.
  exists (skipn (S n) s). rewrite <- Eg. symmetry. apply firstn_skipn.
Qed.

Hypothesis placeholders_in_P : forall c, placeholder_char c = true -> P c.

Lemma ph_in_P (k : kind) : Forall P (ph k).
Proof.
  eapply Forall_impl; [|apply ph_chars]. exact placeholders_in_P.
Qed.

(** The protected text and the blocks are made of characters of the
    text and of placeholders. *)
Lemma protect_content_Forall (text : str) :
  Forall P text ->
  Forall P (fst (_protect_content text))
  /\ Forall (fun e => Forall P (snd e)) (snd (_protect_content text)).
Proof.
  intros Ht. unfold _protect_content.
  destruct (protect_loop_Forall code_placeholder
              (fun i => ph_in_P (KCode i))
              (finditer CODE_BLOCK_PATTERN text) O text [] Ht) as [H1 H2].
  { apply finditer_Forall; [exact code_match_prefix|exact Ht]. }
  { constructor. }
  destruct (protect_loop code_placeholder
              (finditer CODE_BLOCK_PATTERN text) O text [])
    as [text' blocks] eqn:E.
  assert (H1' : Forall P text')
    by (change text' with (fst (text', blocks)); rewrite <- E; exact H1).
  assert (H2' : Forall (fun e => Forall P (snd e)) blocks)
    by (change blocks with (snd (text', blocks)); rewrite <- E; exact H2).
  apply (protect_loop_Forall table_placeholder (fun i => ph_in_P (KTable i)));
    [exact H1'| |exact H2'].
  apply finditer_Forall; [exact table_match_prefix|exact H1'].
Qed.

End Chars.

Section SegmentChars.

Variable P : ascii -> Prop.

Lemma Forall_P_firstn (n : nat) (s : str) : Forall P s -> Forall P (firstn n s).
Proof.
  intros H. rewrite <- (firstn_skipn n s) in H.
  apply Forall_app in H. apply H.
Qed.

Lemma Forall_P_skipn (n : nat) (s : str) : Forall P s -> Forall P (skipn n s).
Proof.
  intros H. rewrite <- (firstn_skipn n s) in H.
  apply Forall_app in H. apply H.
Qed.

Lemma force_split_loop_Forall (fuel : nat) :
  forall text chunk_size overlap start chunks pieces,
    Forall P text -> Forall (Forall P) chunks ->
    force_split_loop fuel text chunk_size overlap start chunks
    = Some pieces ->
    Forall (Forall P) pieces.
Proof.
  induction fuel as [|fuel IH];
    intros text cs ov start chunks pieces Ht Hch H; [discriminate|].
  cbn [force_split_loop] in H.
  destruct (start <? len text); [|inversion H; subst; exact Hch].
  eapply IH; [exact Ht| |exact H].
  apply Forall_app. split; [exact Hch|].
  constructor; [|constructor].
  unfold slice. apply Forall_P_skipn, Forall_P_firstn, Ht.
Qed.

Section Merge.

Variable (chunk_size overlap : Z) (recur : str -> option (list str)).
Hypothesis Hrec :
  forall t r, Forall P t -> recur t = Some r -> Forall (Forall P) r.

Lemma close_chunk_Forall (chunks : list str) (current_chunk : str)
    (out : list str) :
  Forall (Forall P) chunks -> Forall P current_chunk ->
  close_chunk recur chunk_size chunks current_chunk = Some out ->
  Forall (Forall P) out.
Proof.
  intros Hch Hcur H. unfold close_chunk in H.
  destruct (truthy current_chunk); [|inversion H; subst; exact Hch].
  destruct (len current_chunk >? chunk_size).
  - destruct (recur current_chunk) as [more|] eqn:R; [|discriminate].
    inversion H; subst. apply Forall_app. split; [exact Hch|].
    eapply Hrec; eassumption.
  - inversion H; subst. apply Forall_app. split; [exact Hch|].
    constructor; [exact Hcur|constructor].
Qed.

Lemma last_Forall (chunks : list str) :
  Forall (Forall P) chunks -> Forall P (last chunks []).
Proof.
  induction 1 as [|c chunks Hc Hch IH]; [constructor|].
  cbn [last]. destruct chunks; [exact Hc|exact IH].
Qed.

Lemma merge_splits_Forall (separator : str) (splits : list str) :
  forall i chunks current_chunk chunks' current_chunk',
    (0 < i)%nat ->
    Forall (fun q => Forall P (separator ++ q)) splits ->
    Forall (Forall P) chunks -> Forall P current_chunk ->
    merge_splits recur separator chunk_size overlap splits i chunks
      current_chunk = Some (chunks', current_chunk') ->
    Forall (Forall P) chunks' /\ Forall P current_chunk'.
Proof.
  induction splits as [|split rest IH];
    intros i chunks cur chunks' cur' Hi Hs Hch Hcur H; cbn [merge_splits] in H.
  - inversion H; subst. auto.
  - inversion Hs as [|? ? Hsplit Hrest]; subst.
    assert (Ei : (0 <? i)%nat = true) by (apply Nat.ltb_lt; exact Hi).
    rewrite Ei in H.
    destruct (len cur + len (separator ++ split) <=? chunk_size).
    + eapply IH; [| | | |exact H]; [lia|exact Hrest|exact Hch|].
      apply Forall_app. auto.
    + destruct (close_chunk recur chunk_size chunks cur) as [closed|] eqn:C;
        [|discriminate].
      pose proof (close_chunk_Forall chunks cur closed Hch Hcur C) as Hcl.
      eapply IH; [| | | |exact H]; [lia|exact Hrest|exact Hcl|].
      destruct (truthy closed && (overlap >? 0)); [|exact Hsplit].
      apply Forall_app. split; [|exact Hsplit].
      destruct (len (last closed []) >? overlap).
      * unfold slice_from. apply Forall_P_skipn, last_Forall, Hcl.
      * apply last_Forall, Hcl.
Qed.

End Merge.

Lemma pieces_Forall (separator p : str) (ps : list str) :
  Forall P (p ++ flat_map (fun q => separator ++ q) ps) ->
  Forall P p /\ Forall (fun q => Forall P (separator ++ q)) ps.
Proof.
  intros H. apply Forall_app in H as [Hp H]. split; [exact Hp|].
  induction ps as [|q ps IH]; [constructor|].
  cbn [flat_map] in H. apply Forall_app in H as [Hq H].
  constructor; auto.
Qed.

(** Every segment is made of characters of the text. *)
Lemma recursive_split_Forall (fuel : nat) (chunk_size overlap : Z)
    (separators : list str) :
  Forall (fun sep => sep <> []) separators ->
  forall text out,
    Forall P text ->
    _recursive_split fuel separators text chunk_size overlap = Some out ->
    Forall (Forall P) out.
Proof.
  induction separators as [|separator remaining IH];
    intros Hseps text out Ht H; cbn [_recursive_split] in H.
  - eapply force_split_loop_Forall; [exact Ht|constructor|exact H].
  - inversion Hseps as [|? ? Hsep Hrem]; subst. specialize (IH Hrem).
    destruct (length (split text separator) =? 1)%nat;
      [eapply IH; eassumption|].
    destruct (split_spells separator text Hsep) as (p & ps & E & Etext).
    rewrite E, merge_splits_first in H.
    rewrite Etext in Ht. apply pieces_Forall in Ht as [Hp Hps].
    set (recur := fun t : str =>
           _recursive_split fuel remaining t chunk_size overlap) in *.
    assert (Hrec : forall t r, Forall P t -> recur t = Some r ->
                               Forall (Forall P) r)
      by (intros t r; apply IH).
    destruct (merge_splits recur separator chunk_size overlap ps 1 [] p)
      as [[chunks cur]|] eqn:M; [|discriminate].
    apply (merge_splits_Forall chunk_size overlap recur Hrec) in M
      as [Hch Hcur]; [|lia|exact Hps|constructor|exact Hp].
    eapply close_chunk_Forall; eassumption.
Qed.

Lemma restore_content_Forall (protected_blocks : dict) :
  Forall (fun e => Forall P (snd e)) protected_blocks ->
  forall text, Forall P text ->
    Forall P (_restore_content text protected_blocks).
Proof.
  induction 1 as [|[k v] blocks Hv Hb IH]; intros text Ht;
    cbn [_restore_content]; [exact Ht|].
  apply IH. apply replace_Forall; assumption.
Qed.

End SegmentChars.

Lemma contains_char (c : ascii) (s : str) :
  contains [c] s = false -> ~ In c s.
Proof.
  intros H Hin. apply in_split in Hin as (a & b & ->).
  assert (E : contains [c] (a ++ [c] ++ b) = true)
    by (apply contains_spec; eauto).
  exact (eq_true_false_abs _ E H).
Qed.

Lemma raw_chunks_Forall (P : ascii -> Prop) (self : HierarchicalChunker)
    (fuel : nat) (extracted : ExtractedContent) (raws : list str)
    (blocks : dict) :
  (forall c, placeholder_char c = true -> P c) ->
  Forall P (markdown_content extracted) ->
  raw_chunks_of self fuel extracted = (Some raws, blocks) ->
  Forall (fun raw => Forall P (_restore_content raw blocks)) raws.
Proof.
  intros Hph Ht H. unfold raw_chunks_of in H.
  destruct (protect_content_Forall P Hph _ Ht) as [H1 H2].
  destruct (_protect_content (markdown_content extracted)) as [p b].
  cbn [fst snd] in H1, H2.
  assert (E1 : _recursive_split fuel SEPARATORS p
                 (chunk_size_chars (config self))
                 (chunk_overlap_chars (config self)) = Some raws)
    by congruence.
  assert (E2 : b = blocks) by congruence. subst b.
  apply (recursive_split_Forall P) in E1;
    [|apply separators_nonempty|exact H1].
  eapply Forall_impl; [|exact E1].
  intros raw Hraw. apply restore_content_Forall; assumption.
Qed.

(** *** Documents without headers *)

Lemma search_header_absent (h : ascii) (hs s : str) :
  ~ In h s -> forall bol, search_header (h :: hs) s bol = None.
Proof.
  induction s as [|c s IH]; intros Hin bol.
  - cbn. destruct bol; reflexivity.
  - assert (E : header_at (h :: hs) (c :: s) = None).
    { unfold header_at. cbn [startswith].
      destruct (Ascii.eqb_spec h c) as [->|Hne]; [|reflexivity].
      exfalso. apply Hin. left. reflexivity. }
    cbn [search_header]. rewrite E.
    destruct bol; apply IH; intros H; apply Hin; right; exact H.
Qed.

Lemma emit_chunks_no_header (self : HierarchicalChunker)
    (extracted : ExtractedContent) (blocks : dict) (raws : list str) :
  Forall (fun raw => ~ In "#"%char (_restore_content raw blocks)) raws ->
  forall idx,
    Forall (fun c =>
              chapter c = None /\ section c = None
              /\ contextual_prefix c
                 = lit "Source: " ++ title (document extracted) ++ [nl]
                   ++ lit "---" ++ [nl])
      (emit_chunks self extracted blocks raws idx None None).
Proof.
  induction 1 as [|raw raws Hraw _ IH]; intros idx; cbn [emit_chunks];
    [constructor|].
  destruct (len (strip (_restore_content raw blocks))
            <? min_chunk_size_chars (config self)); [apply IH|].
  unfold _extract_metadata. cbn [md_chapter md_section].
  change (lit "#") with ("#"%char :: []).
  change (lit "##") with ("#"%char :: lit "#").
  rewrite !(search_header_absent _ _ _ Hraw). cbn [option_map truthy_opt or_opt].
  constructor; [|apply IH].
  cbn [chapter section contextual_prefix]. split; [reflexivity|].
  split; [reflexivity|].
  unfold _build_contextual_prefix. cbn [join app].
  rewrite <- !app_assoc. reflexivity.
Qed.

(** X4: a document in whose text no [#] occurs gives chunks without
    chapter and without section, whatever the configuration; the
    contextual prefix of each is the source line and the separator line
    alone. *)
Theorem no_header_no_chapter :
  forall (self : HierarchicalChunker) (fuel : nat)
         (extracted : ExtractedContent) (chunks : list Chunk),
    contains (lit "#") (markdown_content extracted) = false ->
    chunk_content self fuel extracted = Some chunks ->
    Forall (fun c =>
              chapter c = None /\ section c = None
              /\ contextual_prefix c
                 = lit "Source: " ++ title (document extracted) ++ [nl]
                   ++ lit "---" ++ [nl])
      chunks.
Proof.
  intros self fuel extracted chunks Hno H.
  apply chunk_content_emits in H as (raws & blocks & Hraws & ->).
  apply emit_chunks_no_header.
  apply (raw_chunks_Forall (fun c => c <> "#"%char)) in Hraws.
  - eapply Forall_impl; [|exact Hraws]. intros raw Hraw Hin.
    rewrite Forall_forall in Hraw. exact (Hraw _ Hin eq_refl).
  - intros c Hc ->. discriminate Hc.
  - apply Forall_forall. intros c Hin ->.
    exact (contains_char _ _ Hno Hin).
Qed.

Lemma no_header_no_chapter_witness :
  Forall (fun c =>
            chapter c = None /\ section c = None
            /\ contextual_prefix c
               = lit "Source: " ++ title (document plain_extracted) ++ [nl]
                 ++ lit "---" ++ [nl])
    plain_chunks.
Proof.
  apply (no_header_no_chapter small_chunker 100 plain_extracted plain_chunks);
    reflexivity.
Defined.

(** *** Texts no separator occurs in *)

Lemma replace_first_nonempty (old new : str) :
  new <> [] -> forall s, s <> [] -> replace_first old new s <> [].
Proof.
  intros Hnew [|c s] Hs; [congruence|]. cbn [replace_first].
  destruct (startswith old (c :: s)); [|discriminate].
  destruct new; [congruence|discriminate].
Qed.

Lemma protect_loop_nonempty (placeholder : nat -> str) :
  (forall i, placeholder i <> []) ->
  forall matches i text blocks,
    text <> [] ->
    fst (protect_loop placeholder matches i text blocks) <> [].
Proof.
  intros Hph. induction matches as [|m ms IH]; intros i text blocks Ht;
    cbn [protect_loop]; [exact Ht|].
  apply IH. apply replace_first_nonempty; auto.
Qed.

Lemma protect_content_nonempty (text : str) :
  text <> [] -> fst (_protect_content text) <> [].
Proof.
  intros Ht. unfold _protect_content.
  pose proof (protect_loop_nonempty code_placeholder
                (fun i => ltac:(discriminate))
                (finditer CODE_BLOCK_PATTERN text) O text [] Ht) as H.
  destruct (protect_loop code_placeholder
              (finditer CODE_BLOCK_PATTERN text) O text [])
    as [text' blocks] eqn:E.
  assert (H' : text' <> []) by exact H.
  apply protect_loop_nonempty; [intros i; discriminate|exact H'].
Qed.

(** X5: with a positive [chunk_overlap], [chunk_content] never returns
    on a document whose text is not empty and holds neither a space nor a
    newline, whatever the chunk size: no separator occurs in the protected
    text, which therefore reaches the Hard Splitter, and its loop does not
    end.  No step budget is enough. *)
Theorem chunk_content_stuck_without_separators :
  forall (self : HierarchicalChunker) (fuel : nat)
         (extracted : ExtractedContent),
    0 < chunk_overlap (config self) ->
    markdown_content extracted <> [] ->
    contains (lit " ") (markdown_content extracted) = false ->
    contains [nl] (markdown_content extracted) = false ->
    chunk_content self fuel extracted = None.
Proof.
  intros self fuel extracted Hov Hne Hsp Hnl.
  unfold chunk_content, raw_chunks_of.
  pose proof (protect_content_nonempty _ Hne) as Hp.
  destruct (protect_content_Forall
              (fun c => c <> " "%char /\ c <> nl)) with
    (text := markdown_content extracted) as [Hc _].
  { intros c Hc. split; intros ->; discriminate Hc. }
  { apply Forall_forall. intros c Hin.
    split; intros ->;
      [exact (contains_char _ _ Hsp Hin)|exact (contains_char _ _ Hnl Hin)]. }
  destruct (_protect_content (markdown_content extracted)) as [p blocks].
  cbn [fst] in Hp, Hc.
  rewrite recursive_split_no_separator.
  - unfold _force_split. rewrite force_split_loop_stuck; [reflexivity| |].
    + unfold chunk_overlap_chars. lia.
    + destruct p; [congruence|]. unfold len. cbn [length]. lia.
  - assert (Hs : ~ In " "%char p /\ ~ In nl p).
    { rewrite Forall_forall in Hc.
      split; intros Hin; destruct (Hc _ Hin); congruence. }
    destruct Hs as [Hs Hn].
    repeat constructor;
      first [ apply (contains_needs_char _ p nl); [cbn; tauto|exact Hn]
            | apply (contains_needs_char _ p " "%char); [cbn; tauto|exact Hs] ].
Qed.

Lemma chunk_content_stuck_without_separators_witness :
  chunk_content {| config := default_config |} 5000
    {| document := sample_document; markdown_content := lit "abc";
       page_markers := [] |}
  = None.
Proof.
  apply (chunk_content_stuck_without_separators
           {| config := default_config |} 5000
           {| document := sample_document; markdown_content := lit "abc";
              page_markers := [] |});
    [cbn; lia|discriminate|reflexivity|reflexivity].
Defined.

(** *** Texts without blocks *)

Lemma finditer_from_none (m : str -> option str) (P : ascii -> Prop) :
  (forall c t, P c -> m (c :: t) = None) ->
  forall s skip, Forall P s -> finditer_from m s skip = [].
Proof.
  intros Hm. induction s as [|c s IH]; intros skip Hs; [reflexivity|].
  inversion Hs; subst. cbn [finditer_from]. destruct skip; [|auto].
  rewrite Hm by assumption. auto.
Qed.

Lemma code_needs_backquote (c : ascii) (t : str) :
  c <> backquote -> CODE_BLOCK_PATTERN (c :: t) = None.
Proof.
  intros Hc. unfold CODE_BLOCK_PATTERN, fence. cbn [lit list_ascii_of_string startswith].
  destruct (Ascii.eqb_spec "`"%char c) as [E|_]; [|reflexivity].
  exfalso. apply Hc. symmetry. exact E.
Qed.

Lemma table_needs_bar (c : ascii) (t : str) :
  c <> bar -> TABLE_PATTERN (c :: t) = None.
Proof.
  intros Hc. unfold TABLE_PATTERN. cbn [length table_rows].
  assert (E : table_row (c :: t) = None).
  { destruct c as [[] [] [] [] [] [] [] []]; try reflexivity.
    exfalso. apply Hc. reflexivity. }
  rewrite E. reflexivity.
Qed.

Lemma protect_content_plain (text : str) :
  ~ In backquote text -> ~ In bar text -> _protect_content text = (text, []).
Proof.
  intros Hq Hb. unfold _protect_content, finditer.
  rewrite (finditer_from_none CODE_BLOCK_PATTERN (fun c => c <> backquote)).
  - cbn [protect_loop].
    rewrite (finditer_from_none TABLE_PATTERN (fun c => c <> bar));
      [reflexivity|exact table_needs_bar|].
    apply Forall_forall. intros c Hin ->. exact (Hb Hin).
  - exact code_needs_backquote.
  - apply Forall_forall. intros c Hin ->. exact (Hq Hin).
Qed.

(** X6: a text with no backquote and no bar is left as it is by
    [_protect_content], the block map is empty, and restoring with that
    map changes no segment. *)
Theorem plain_text_is_not_protected :
  forall text : str,
    contains (lit "`") text = false -> contains (lit "|") text = false ->
    _protect_content text = (text, [])
    /\ forall segment, _restore_content segment (snd (_protect_content text))
                       = segment.
Proof.
  intros text Hq Hb.
  assert (E : _protect_content text = (text, []))
    by (apply protect_content_plain; apply contains_char; assumption).
  split; [exact E|]. intros segment. rewrite E. reflexivity.
Qed.

Lemma plain_text_is_not_protected_witness :
  _protect_content (markdown_content plain_extracted)
  = (markdown_content plain_extracted, [])
  /\ forall segment,
       _restore_content segment
         (snd (_protect_content (markdown_content plain_extracted)))
       = segment.
Proof.
  apply (plain_text_is_not_protected (markdown_content plain_extracted));
    reflexivity.
Defined.

(** *** White space *)

Lemma lstrip_spaces (s : str) :
  Forall (fun c => isspace c = true) s -> lstrip s = [].
Proof.
  induction 1 as [|c s Hc _ IH]; [reflexivity|].
  cbn [lstrip]. rewrite Hc. exact IH.
Qed.

Lemma strip_spaces (s : str) :
  Forall (fun c => isspace c = true) s -> strip s = [].
Proof.
  intros H. unfold strip, rstrip.
  rewrite (lstrip_spaces (rev s)) by (apply Forall_rev; exact H).
  reflexivity.
Qed.

Lemma lstrip_nil (s : str) :
  lstrip s = [] -> Forall (fun c => isspace c = true) s.
Proof.
  induction s as [|c s IH]; intros H; [constructor|].
  cbn [lstrip] in H. destruct (isspace c) eqn:E; [|discriminate].
  constructor; auto.
Qed.

Lemma lstrip_head (s : str) (c : ascii) (t : str) :
  lstrip s = c :: t -> isspace c = false.
Proof.
  induction s as [|a s IH]; intros H; [discriminate|].
  cbn [lstrip] in H. destruct (isspace a) eqn:E; [auto|].
  injection H as -> _. exact E.
Qed.

Lemma strip_nil (s : str) :
  strip s = [] -> Forall (fun c => isspace c = true) s.
Proof.
  unfold strip, rstrip. intros H. apply lstrip_nil in H.
  destruct (lstrip (rev s)) as [|c t] eqn:E.
  - apply lstrip_nil in E. apply Forall_rev in E.
    rewrite rev_involutive in E. exact E.
  - apply lstrip_head in E. apply Forall_rev in H.
    rewrite rev_involutive in H. inversion H; subst. congruence.
Qed.

Lemma emit_chunks_all_skipped (self : HierarchicalChunker)
    (extracted : ExtractedContent) (blocks : dict) (raws : list str) :
  0 < min_chunk_size (config self) ->
  Forall (fun raw => strip (_restore_content raw blocks) = []) raws ->
  forall idx ch sec, emit_chunks self extracted blocks raws idx ch sec = [].
Proof.
  intros Hmin. induction 1 as [|raw raws Hraw _ IH]; intros idx ch sec;
    cbn [emit_chunks]; [reflexivity|].
  rewrite Hraw.
  replace (len (@nil ascii) <? min_chunk_size_chars (config self)) with true;
    [apply IH|].
  symmetry. apply Z.ltb_lt. unfold min_chunk_size_chars, len.
  cbn [length]. lia.
Qed.

(** X7: a document of white space only ([text.strip()] is empty) gives
    no chunk when [min_chunk_size] is positive: whenever [chunk_content]
    returns, it returns the empty list. *)
Theorem whitespace_document_yields_no_chunk :
  forall (self : HierarchicalChunker) (fuel : nat)
         (extracted : ExtractedContent) (chunks : list Chunk),
    strip (markdown_content extracted) = [] ->
    0 < min_chunk_size (config self) ->
    chunk_content self fuel extracted = Some chunks ->
    chunks = [].
Proof.
  intros self fuel extracted chunks Hws Hmin H.
  apply strip_nil in Hws.
  assert (Hq : ~ In backquote (markdown_content extracted)).
  { intros Hin. rewrite Forall_forall in Hws. apply Hws in Hin.
    discriminate Hin. }
  assert (Hb : ~ In bar (markdown_content extracted)).
  { intros Hin. rewrite Forall_forall in Hws. apply Hws in Hin.
    discriminate Hin. }
  unfold chunk_content, raw_chunks_of in H.
  rewrite (protect_content_plain _ Hq Hb) in H.
  destruct (_recursive_split fuel SEPARATORS (markdown_content extracted)
              (chunk_size_chars (config self))
              (chunk_overlap_chars (config self))) as [raws|] eqn:E;
    [|discriminate].
  injection H as <-.
  apply emit_chunks_all_skipped; [exact Hmin|].
  apply (recursive_split_Forall (fun c => isspace c = true)) in E;
    [|apply separators_nonempty|exact Hws].
  eapply Forall_impl; [|exact E].
  intros raw Hraw. cbn [_restore_content]. apply strip_spaces. exact Hraw.
Qed.

Lemma whitespace_document_yields_no_chunk_witness :
  blank_chunks = [].
Proof.
  apply (whitespace_document_yields_no_chunk
           {| config := default_config |} 100 blank_extracted blank_chunks);
    [reflexivity|reflexivity|reflexivity].
Defined.

(** *** The running chapter and section *)

Section Running.

Variable (self : HierarchicalChunker) (extracted : ExtractedContent)
  (blocks : dict).

Lemma or_opt_running (cur md : option str) :
  truthy_opt (or_opt (if truthy_opt md then md else cur) md) = true ->
  truthy_opt (if truthy_opt md then md else cur) = true.
Proof.
  unfold or_opt. destruct (truthy_opt md) eqn:E; [rewrite E; auto|].
  destruct (truthy_opt cur) eqn:E'; [auto|]. rewrite E. auto.
Qed.

(** Once the running chapter is set, every chunk gets a chapter; the
    same for the section. *)
Lemma emit_chunks_sticky (raws : list str) :
  forall idx ch sec,
    Forall (fun c =>
              (truthy_opt ch = true -> truthy_opt (chapter c) = true)
              /\ (truthy_opt sec = true -> truthy_opt (section c) = true))
      (emit_chunks self extracted blocks raws idx ch sec).
Proof.
  induction raws as [|raw raws IH]; intros idx ch sec; cbn [emit_chunks];
    [constructor|].
  destruct (len (strip (_restore_content raw blocks))
            <? min_chunk_size_chars (config self)); [apply IH|].
  set (md := _extract_metadata (_restore_content raw blocks)).
  constructor.
  - cbn [chapter section]. unfold or_opt.
    split; intros H.
    + destruct (truthy_opt (md_chapter md)) eqn:E; [rewrite E; exact E|].
      rewrite H. exact H.
    + destruct (truthy_opt (md_section md)) eqn:E; [rewrite E; exact E|].
      rewrite H. exact H.
  - eapply Forall_impl; [|apply IH]. cbn beta. intros c [H1 H2].
    split; intros H.
    + apply H1. destruct (truthy_opt (md_chapter md)) eqn:E; assumption.
    + apply H2. destruct (truthy_opt (md_section md)) eqn:E; assumption.
Qed.

Lemma emit_chunks_carried (raws : list str) :
  forall idx ch sec pre c post,
    emit_chunks self extracted blocks raws idx ch sec = pre ++ c :: post ->
    Forall (fun c' =>
              (truthy_opt (chapter c) = true ->
               truthy_opt (chapter c') = true)
              /\ (truthy_opt (section c) = true ->
                  truthy_opt (section c') = true))
      post.
Proof.
  induction raws as [|raw raws IH]; intros idx ch sec pre c post H;
    cbn [emit_chunks] in H.
  - destruct pre; discriminate.
  - destruct (len (strip (_restore_content raw blocks))
              <? min_chunk_size_chars (config self));
      [eapply IH; exact H|].
    set (md := _extract_metadata (_restore_content raw blocks)) in H.
    destruct pre as [|c0 pre]; cbn [app] in H.
    + pose proof (f_equal (hd c) H) as Hc.
      pose proof (f_equal (@tl Chunk) H) as Hp.
      cbn [hd tl] in Hc, Hp. subst c post. cbn [chapter section].
      eapply Forall_impl; [|apply emit_chunks_sticky].
      cbn beta. intros c' [H1 H2]. split; intros H'.
      * apply H1, or_opt_running, H'.
      * apply H2, or_opt_running, H'.
    + pose proof (f_equal (@tl Chunk) H) as Hp. cbn [tl] in Hp.
      eapply IH. exact Hp.
Qed.

(** Every chunk carries the prefix built from its own fields, which is
    not empty. *)
Lemma emit_chunks_prefixed (raws : list str) :
  forall idx ch sec,
    Forall (fun c =>
              contextual_prefix c
              = _build_contextual_prefix (book_title c) (chapter c)
                  (section c)
              /\ book_title c = title (document extracted)
              /\ source_type c = lit "book")
      (emit_chunks self extracted blocks raws idx ch sec).
Proof.
  induction raws as [|raw raws IH]; intros idx ch sec; cbn [emit_chunks];
    [constructor|].
  destruct (len (strip (_restore_content raw blocks))
            <? min_chunk_size_chars (config self)); [apply IH|].
  constructor; [|apply IH]. cbn. auto.
Qed.

End Running.

(** X8: the running chapter and section are never dropped.  In the
    list [chunk_content] returns, every chunk that comes after a chunk
    with a (non-empty) chapter has a (non-empty) chapter itself, and the
    same holds for the section: in particular a new chapter does not
    clear the section. *)
Theorem chapter_carried_forward :
  forall (self : HierarchicalChunker) (fuel : nat)
         (extracted : ExtractedContent) (chunks pre post : list Chunk)
         (c : Chunk),
    chunk_content self fuel extracted = Some chunks ->
    chunks = pre ++ c :: post ->
    Forall (fun c' =>
              (truthy_opt (chapter c) = true ->
               truthy_opt (chapter c') = true)
              /\ (truthy_opt (section c) = true ->
                  truthy_opt (section c') = true))
      post.
Proof.
  intros self fuel extracted chunks pre post c H E.
  apply chunk_content_emits in H as (raws & blocks & _ & ->).
  eapply emit_chunks_carried. exact E.
Qed.

Lemma chapter_carried_forward_witness :
  Forall (fun c' =>
            (truthy_opt (chapter (hd bare_chunk sample_chunks)) = true ->
             truthy_opt (chapter c') = true)
            /\ (truthy_opt (section (hd bare_chunk sample_chunks)) = true ->
                truthy_opt (section c') = true))
    (tl sample_chunks).
Proof.
  apply (chapter_carried_forward small_chunker 100 sample_extracted
           sample_chunks [] (tl sample_chunks) (hd bare_chunk sample_chunks));
    reflexivity.
Defined.

(** *** The page of a position *)

Lemma insert_item_In (a x : Z * Z) (l : list (Z * Z)) :
  In x (insert_item a l) <-> x = a \/ In x l.
Proof.
  induction l as [|b l IH]; cbn [insert_item In]; [intuition|].
  destruct (item_leb a b); cbn [In]; [intuition|].
  rewrite IH. intuition.
Qed.

Lemma sorted_In (x : Z * Z) (l : list (Z * Z)) : In x (sorted l) <-> In x l.
Proof.
  induction l as [|a l IH]; cbn [sorted In]; [reflexivity|].
  rewrite insert_item_In, IH. intuition.
Qed.

Lemma estimate_loop_range (position : Z) (items : list (Z * Z)) :
  forall current_page,
    estimate_loop position items current_page = current_page
    \/ In (estimate_loop position items current_page) (map fst items).
Proof.
  induction items as [|[page pos] items IH]; intros cur;
    cbn [estimate_loop map In fst]; [auto|].
  destruct (position >=? pos); [|auto].
  destruct (IH page) as [->|H]; auto.
Qed.

Lemma estimate_loop_before (position : Z) (items : list (Z * Z)) :
  Forall (fun e => position < snd e) items ->
  forall current_page, estimate_loop position items current_page = current_page.
Proof.
  intros H cur. destruct H as [|[page pos] items Hlt _]; [reflexivity|].
  cbn [estimate_loop]. cbn [snd] in Hlt.
  replace (position >=? pos) with false; [reflexivity|].
  symmetry. rewrite Z.geb_leb. apply Z.leb_gt. exact Hlt.
Qed.

(** X9: [_estimate_page] returns [None] exactly for an empty
    [page_markers]; otherwise the page it returns is 1 or a page of
    [page_markers], and it is 1 for a position before every marker (as is
    the position -1 of a chunk that [find] does not locate, when no marker
    is negative). *)
Theorem estimate_page_range :
  forall (position : Z) (page_markers : list (Z * Z)),
    (page_markers = [] -> _estimate_page position page_markers = None)
    /\ (page_markers <> [] ->
        exists p,
          _estimate_page position page_markers = Some p
          /\ (p = 1 \/ In p (map fst page_markers))
          /\ (Forall (fun e => position < snd e) page_markers -> p = 1)).
Proof.
  intros position markers. split; [intros ->; reflexivity|].
  intros Hne. destruct markers as [|m markers]; [congruence|].
  unfold _estimate_page. eexists. split; [reflexivity|]. split.
  - destruct (estimate_loop_range position (sorted (m :: markers)) 1)
      as [H|H]; [left; exact H|right].
    apply in_map_iff in H as (x & Hx & Hin).
    apply in_map_iff. exists x. split; [exact Hx|].
    exact (proj1 (sorted_In x (m :: markers)) Hin).
  - intros Hall. apply estimate_loop_before.
    apply Forall_forall. intros x Hin.
    apply (proj1 (sorted_In x (m :: markers))) in Hin.
    rewrite Forall_forall in Hall. exact (Hall _ Hin).
Qed.

(** *** The block map *)

Lemma dict_set_fresh (d : dict) (k v : str) :
  ~ In k (map fst d) -> dict_set d k v = d ++ [(k, v)].
Proof.
  induction d as [|[k' v'] d IH]; intros Hk; cbn [dict_set app];
    [reflexivity|].
  cbn [map fst In] in Hk. unfold str_eqb.
  destruct (list_eq_dec ascii_dec k k') as [->|_]; [tauto|].
  rewrite IH by tauto. reflexivity.
Qed.

Lemma protect_loop_blocks (mk : nat -> kind) :
  (forall a b, mk a = mk b -> a = b) ->
  forall matches i text blocks,
    (forall j, ~ In (ph (mk (i + j)%nat)) (map fst blocks)) ->
    snd (protect_loop (fun n => ph (mk n)) matches i text blocks)
    = blocks
      ++ combine (map (fun n => ph (mk n)) (seq i (length matches))) matches.
Proof.
  intros Hinj. induction matches as [|m ms IH]; intros i text blocks Hfresh;
    cbn [protect_loop length seq map combine].
  - rewrite app_nil_r. reflexivity.
  - rewrite IH.
    + rewrite dict_set_fresh.
      * rewrite <- app_assoc. reflexivity.
      * specialize (Hfresh O). rewrite Nat.add_0_r in Hfresh. exact Hfresh.
    + intros j. rewrite dict_set_fresh.
      * rewrite map_app, in_app_iff. cbn [map fst In].
        intros [H|[H|[]]].
        -- apply (Hfresh (S j)). rewrite Nat.add_succ_r. exact H.
        -- apply ph_inj, Hinj in H. lia.
      * specialize (Hfresh O). rewrite Nat.add_0_r in Hfresh. exact Hfresh.
Qed.

(** X10: the block map of [_protect_content] holds one entry for each
    match, in the order of protection, and no entry overwrites another:
    first the code blocks found in the text under [__CODE_BLOCK_0__],
    [__CODE_BLOCK_1__], ..., then the tables found in the text as it is
    once the code blocks are replaced, under [__TABLE_0__], [__TABLE_1__],
    ... *)
Theorem protect_content_block_map :
  forall text : str,
    let code := finditer CODE_BLOCK_PATTERN text in
    let protected := fst (protect_loop code_placeholder code O text []) in
    let tables := finditer TABLE_PATTERN protected in
    snd (_protect_content text)
    = combine (map code_placeholder (seq O (length code))) code
      ++ combine (map table_placeholder (seq O (length tables))) tables.
Proof.
  intros text code protected tables. unfold _protect_content.
  pose proof (protect_loop_blocks KCode ltac:(congruence) code O text []
                ltac:(intros j [])) as Hc.
  cbn [app] in Hc. fold code.
  change (fun n => ph (KCode n)) with code_placeholder in Hc.
  subst tables protected.
  destruct (protect_loop code_placeholder code O text []) as [text' blocks].
  cbn [fst snd] in *. subst blocks.
  apply (protect_loop_blocks KTable ltac:(congruence)).
  intros j Hin. apply in_map_iff in Hin as ([k v] & Hk & Hin).
  apply in_combine_l in Hin. apply in_map_iff in Hin as (n & Hn & _).
  cbn [fst] in Hk. subst k.
  change (code_placeholder n) with (ph (KCode n)) in Hn.
  apply ph_inj in Hn. discriminate Hn.
Qed.

(** *** Segments without placeholder *)

Lemma replace_absent (old new : str) :
  old <> [] -> forall s, contains old s = false -> replace old new s = s.
Proof.
  intros Hold s. destruct old as [|o old]; [congruence|]. unfold replace.
  induction s as [|c s IH]; intros H; [reflexivity|].
  apply contains_cons_false in H as [H1 H2].
  cbn [replace_from]. rewrite H1, (IH H2). reflexivity.
Qed.

Lemma dict_set_keys (Q : str -> Prop) (d : dict) (k v : str) :
  Forall Q (map fst d) -> Q k -> Forall Q (map fst (dict_set d k v)).
Proof.
  induction d as [|[k' v'] d IH]; intros Hd Hk; cbn [dict_set map fst].
  - constructor; [exact Hk|constructor].
  - cbn [map fst] in Hd. inversion Hd; subst.
    destruct (str_eqb k k'); cbn [map fst]; constructor; auto.
Qed.

Lemma protect_loop_keys (Q : str -> Prop) (placeholder : nat -> str) :
  (forall i, Q (placeholder i)) ->
  forall matches i text blocks,
    Forall Q (map fst blocks) ->
    Forall Q (map fst (snd (protect_loop placeholder matches i text blocks))).
Proof.
  intros Hph. induction matches as [|m ms IH]; intros i text blocks Hb;
    cbn [protect_loop]; [exact Hb|].
  apply IH. apply dict_set_keys; auto.
Qed.

Lemma protect_content_keys (text : str) :
  Forall (fun key => exists k, key = ph k)
    (map fst (snd (_protect_content text))).
Proof.
  unfold _protect_content.
  pose proof (protect_loop_keys (fun key => exists k, key = ph k)
                code_placeholder (fun i => ex_intro _ (KCode i) eq_refl)
                (finditer CODE_BLOCK_PATTERN text) O text []
                (Forall_nil _)) as H.
  destruct (protect_loop code_placeholder
              (finditer CODE_BLOCK_PATTERN text) O text [])
    as [text' blocks].
  apply (protect_loop_keys _ table_placeholder
           (fun i => ex_intro _ (KTable i) eq_refl)).
  exact H.
Qed.

Lemma placeholder_absent (k : kind) (s : str) :
  marker_free s -> contains (ph k) s = false.
Proof.
  intros [Hc Ht]. destruct (contains (ph k) s) eqn:E; [|reflexivity].
  apply contains_spec in E as (a & b & ->). rewrite ph_shape in *.
  assert (Hm : contains (marker k)
                 (a ++ (underscore :: underscore :: marker k ++ number k
                        ++ [underscore; underscore]) ++ b) = true).
  { apply contains_spec.
    exists (a ++ [underscore; underscore]),
      (number k ++ [underscore; underscore] ++ b).
    rewrite <- !app_assoc. cbn [app]. rewrite <- !app_assoc. reflexivity. }
  exfalso. destruct k; cbn [marker] in Hm;
    [exact (eq_true_false_abs _ Hm Hc)|exact (eq_true_false_abs _ Hm Ht)].
Qed.

Lemma restore_absent (s : str) (blocks : dict) :
  Forall (fun key => exists k, key = ph k) (map fst blocks) ->
  marker_free s -> _restore_content s blocks = s.
Proof.
  intros Hk Hs. induction blocks as [|[key v] blocks IH];
    cbn [_restore_content]; [reflexivity|].
  cbn [map fst] in Hk. inversion Hk as [|? ? [k ->] Hk']; subst.
  rewrite replace_absent; [exact (IH Hk')| |apply placeholder_absent, Hs].
  rewrite ph_shape. discriminate.
Qed.

(** X11: a segment in which neither [CODE_BLOCK_] nor [TABLE_] occurs
    is restored to itself, whatever the text the block map was made
    from. *)
Theorem restore_without_placeholder :
  forall text segment : str,
    marker_free segment ->
    _restore_content segment (snd (_protect_content text)) = segment.
Proof.
  intros text segment H. apply restore_absent; [|exact H].
  apply protect_content_keys.
Qed.

Lemma restore_without_placeholder_witness :
  _restore_content (lit "ok") (snd (_protect_content sample_text)) = lit "ok".
Proof.
  apply (restore_without_placeholder sample_text (lit "ok")).
  split; reflexivity.
Defined.

(** *** The validator *)

#[local] Set Warnings "-inexact-float".

Lemma score_of_flags_range (a b c d : bool) :
  PrimFloat.leb 0.2%float (score_of_flags a b c d) = true.
Proof. destruct a, b, c, d; vm_compute; reflexivity. Qed.

Lemma score_of_flags_flagged (a b c d : bool) :
  a || b || c || d = true ->
  PrimFloat.leb (score_of_flags a b c d) 0.9%float = true.
Proof. destruct a, b, c, d; intros H; vm_compute; try reflexivity; discriminate H. Qed.

Lemma validate_chunk_issues (chunk : Chunk) :
  issues (validate_chunk chunk) = []
  <-> negb (is_complete_sentence (validate_chunk chunk))
      || has_split_code_block (validate_chunk chunk)
      || has_split_table (validate_chunk chunk)
      || has_garbage_chars (validate_chunk chunk) = false.
Proof.
  unfold validate_chunk; cbn [issues is_complete_sentence
    has_split_code_block has_split_table has_garbage_chars].
  rewrite negb_involutive.
  destruct (truthy (content chunk) && _), (negb _), (startswith _ _ && _),
    (existsb _ _); cbn; split; intros H; try reflexivity; discriminate H.
Qed.

Lemma validate_chunk_issues_flagged (chunk : Chunk) :
  issues (validate_chunk chunk) <> [] ->
  PrimFloat.leb (quality_score (validate_chunk chunk)) 0.9%float = true.
Proof.
  intros Hne. rewrite validate_chunk_score.
  apply score_of_flags_flagged.
  destruct (_ || _ || _ || _) eqn:E; [reflexivity|].
  exfalso. apply Hne. apply validate_chunk_issues. exact E.
Qed.

(** X12: [validate_chunk] reports no issue exactly when the quality
    score is 1.0; with at least one issue the score is at most 0.9.  The
    score is never below 0.2, so that the floor [max(0.0, score)] never
    applies.  A chunk with empty content has no issue. *)
Theorem validate_chunk_issues_and_score :
  forall chunk : Chunk,
    let m := validate_chunk chunk in
    (issues m = [] <-> quality_score m = 1%float)
    /\ (issues m <> [] -> PrimFloat.leb (quality_score m) 0.9%float = true)
    /\ PrimFloat.leb 0.2%float (quality_score m) = true
    /\ (content chunk = [] -> issues m = []).
Proof.
  intros chunk m. subst m.
  pose proof (validate_chunk_issues chunk) as Hi.
  pose proof (validate_chunk_score chunk) as Hs.
  set (m := validate_chunk chunk) in *.
  destruct (negb (is_complete_sentence m) || has_split_code_block m
            || has_split_table m || has_garbage_chars m) eqn:E.
  - pose proof (score_of_flags_flagged _ _ _ _ E) as Hle.
    rewrite <- Hs in Hle.
    assert (Hne : issues m <> []).
    { intros H. apply Hi in H. discriminate H. }
    split; [split; intros H; [contradiction|]|split; [auto|split]].
    + rewrite H in Hle. vm_compute in Hle. discriminate Hle.
    + rewrite Hs. apply score_of_flags_range.
    + intros Hc. exfalso. revert E. subst m. unfold validate_chunk.
      cbn [is_complete_sentence has_split_code_block has_split_table
           has_garbage_chars]. rewrite Hc. vm_compute. discriminate.
  - assert (Hnil : issues m = []) by (apply Hi; reflexivity).
    split; [split; intros _; [|exact Hnil]|split; [congruence|split]].
    + rewrite Hs.
      destruct (is_complete_sentence m), (has_split_code_block m),
        (has_split_table m), (has_garbage_chars m); try discriminate E.
      vm_compute. reflexivity.
    + rewrite Hs. apply score_of_flags_range.
    + intros _. exact Hnil.
Qed.

Lemma validate_loop_spec (chunks : list Chunk) :
  forall issues total_score,
    fst (validate_loop chunks issues total_score)
    = issues
      ++ map (fun c =>
                {| entry_chunk_id := chunk_id c;
                   entry_issues := Chunker.issues (validate_chunk c);
                   entry_score := quality_score (validate_chunk c) |})
           (filter (fun c => truthy (Chunker.issues (validate_chunk c)))
              chunks).
Proof.
  induction chunks as [|c chunks IH]; intros issues total;
    cbn [validate_loop filter map]; [rewrite app_nil_r; reflexivity|].
  rewrite IH.
  destruct (truthy (Chunker.issues (validate_chunk c))); [|reflexivity].
  cbn [map]. rewrite <- app_assoc. reflexivity.
Qed.

(** X13: the report of [ChunkValidator.validate_chunks], for any
    behaviour of the built-in [round].  [total_chunks] is the number of
    chunks; [chunks_with_issues] counts the chunks [validate_chunk] finds
    an issue in, so that it is at most [total_chunks]; [issues] lists the
    first 20 of them, in the order of the chunks, each with a non-empty
    issue list and a score of at most 0.9; an empty batch does not pass,
    and its [issue_rate] is the integer 0. *)
Theorem validate_chunks_report :
  forall (round : PrimFloat.float -> Z -> PrimFloat.float)
         (self : ChunkValidator) (chunks : list Chunk),
    let r := validate_chunks round self chunks in
    let flagged :=
      filter (fun c => truthy (issues (validate_chunk c))) chunks in
    total_chunks r = len chunks
    /\ chunks_with_issues r = len flagged
    /\ chunks_with_issues r <= total_chunks r
    /\ map entry_chunk_id (report_issues r)
       = firstn 20 (map chunk_id flagged)
    /\ len (report_issues r) = Z.min 20 (chunks_with_issues r)
    /\ Forall (fun e =>
                 entry_issues e <> []
                 /\ PrimFloat.leb (entry_score e) 0.9%float = true)
         (report_issues r)
    /\ (chunks = [] -> passed r = false /\ issue_rate r = PyInt 0).
Proof.
  intros round self chunks r flagged. subst r. unfold validate_chunks.
  pose proof (validate_loop_spec chunks [] 0%float) as Hl.
  destruct (validate_loop chunks [] 0%float) as [issues total_score].
  cbn [fst app] in Hl. fold flagged in Hl.
  cbn [total_chunks chunks_with_issues report_issues passed issue_rate].
  assert (Hlen : len issues = len flagged)
    by (rewrite Hl; unfold len; rewrite length_map; reflexivity).
  split; [reflexivity|]. split; [exact Hlen|]. split.
  { rewrite Hlen. unfold len, flagged.
    pose proof (filter_length_le
                  (fun c => truthy (Chunker.issues (validate_chunk c)))
                  chunks). lia. }
  split.
  { rewrite Hl, <- firstn_map, map_map. reflexivity. }
  split.
  { unfold len. rewrite length_firstn. lia. }
  split.
  { apply Forall_forall. intros e He.
    assert (He' : In e issues)
      by (rewrite <- (firstn_skipn 20 issues); apply in_or_app; left;
          exact He).
    clear He. rename He' into He. rewrite Hl in He. apply in_map_iff in He as (c & <- & Hc).
    apply filter_In in Hc as [_ Hc]. cbn [entry_issues entry_score].
    assert (Hne : Chunker.issues (validate_chunk c) <> [])
      by (intros E; rewrite E in Hc; discriminate Hc).
    split; [exact Hne|].
    apply (validate_chunk_issues_flagged c Hne). }
  intros ->. split; reflexivity.
Qed.

(** *** The fields of an emitted chunk *)

Lemma lstrip_fixed (s : str) :
  (forall c t, s = c :: t -> isspace c = false) -> lstrip s = s.
Proof.
  intros H. destruct s as [|c t]; [reflexivity|].
  cbn [lstrip]. rewrite (H c t eq_refl). reflexivity.
Qed.

Lemma lstrip_suffix (s : str) : exists ws, s = ws ++ lstrip s.
Proof.
  induction s as [|c s [ws IH]]; [exists []; reflexivity|].
  cbn [lstrip]. destruct (isspace c); [|exists []; reflexivity].
  exists (c :: ws). cbn [app]. rewrite <- IH. reflexivity.
Qed.

Lemma strip_idempotent (s : str) : strip (strip s) = strip s.
Proof.
  unfold strip. set (r := rstrip s).
  assert (Hr : forall c t, rev r = c :: t -> isspace c = false).
  { intros c t E. unfold r, rstrip in E. rewrite rev_involutive in E.
    exact (lstrip_head _ _ _ E). }
  assert (El : rstrip (lstrip r) = lstrip r).
  { unfold rstrip. rewrite lstrip_fixed; [apply rev_involutive|].
    intros c t E. destruct (lstrip_suffix r) as [ws Ews].
    apply (Hr c (t ++ rev ws)). rewrite Ews at 1.
    rewrite rev_app_distr, E. reflexivity. }
  rewrite El. apply lstrip_fixed. intros c t E.
  exact (lstrip_head _ _ _ E).
Qed.

Lemma replace_char_gone (c d : ascii) :
  c <> d -> forall s, ~ In c (replace_from [c] [d] s O).
Proof.
  intros Hcd. induction s as [|x s IH]; [intros []|].
  cbn [replace_from startswith length Nat.sub].
  destruct (Ascii.eqb_spec c x) as [->|Hne]; cbn [andb app In].
  - intros [E|H]; [congruence|exact (IH H)].
  - intros [E|H]; [congruence|exact (IH H)].
Qed.

Lemma format_04d_no_space (i : Z) : ~ In " "%char (format_04d i).
Proof.
  assert (Hd : forall d, ~ In " "%char (lit (NilZero.string_of_uint d))).
  { intros d Hin.
    assert (Hall : Forall (fun c => digit c = true)
                     (lit (NilZero.string_of_uint d))).
    { destruct d; try apply uint_digits. repeat constructor. }
    rewrite Forall_forall in Hall. apply Hall in Hin. discriminate Hin. }
  unfold format_04d. destruct (i <? 0).
  - rewrite !in_app_iff. intros [H|[H|H]].
    + destruct H as [H|[]]; discriminate H.
    + apply repeat_spec in H. discriminate H.
    + exact (Hd _ H).
  - rewrite in_app_iff. intros [H|H].
    + apply repeat_spec in H. discriminate H.
    + exact (Hd _ H).
Qed.

Lemma make_chunk_id_no_space (title : str) (i : Z) :
  contains (lit " ") (make_chunk_id title i) = false.
Proof.
  apply (contains_needs_char _ _ " "%char); [left; reflexivity|].
  unfold make_chunk_id. rewrite !in_app_iff. intros [H|[H|H]].
  - revert H. apply replace_char_gone. discriminate.
  - destruct H as [H|[]]; discriminate H.
  - exact (format_04d_no_space _ H).
Qed.

(** X14: the fields of every chunk [chunk_content] emits.  The content
    is trimmed ([content.strip() == content]); [source_type] is ["book"];
    [book_title] is the title of the document; [chunk_id] is made of that
    title and of the chunk's own index, and holds no space; the contextual
    prefix is the one built from the chunk's own title, chapter and
    section. *)
Theorem emitted_chunk_fields :
  forall (self : HierarchicalChunker) (fuel : nat)
         (extracted : ExtractedContent) (chunks : list Chunk),
    chunk_content self fuel extracted = Some chunks ->
    Forall (fun c =>
              strip (content c) = content c
              /\ source_type c = lit "book"
              /\ book_title c = title (document extracted)
              /\ chunk_id c
                 = make_chunk_id (title (document extracted)) (chunk_index c)
              /\ contains (lit " ") (chunk_id c) = false
              /\ contextual_prefix c
                 = _build_contextual_prefix (book_title c) (chapter c)
                     (section c))
      chunks.
Proof.
  intros self fuel extracted chunks H.
  apply chunk_content_emits in H as (raws & blocks & _ & ->).
  pose proof (emit_chunks_prefixed self extracted blocks raws 0 None None)
    as Hp.
  pose proof (emit_chunks_id self extracted blocks raws 0 None None) as Hi.
  pose proof (emit_chunks_content self extracted blocks raws 0 None None)
    as Hc.
  rewrite Forall_forall in Hp, Hi. apply Forall_forall. intros c Hin.
  destruct (Hp c Hin) as (E1 & E2 & E3). specialize (Hi c Hin).
  split.
  { assert (Hm : In (content c)
                   (map (restored blocks) (filter (kept self blocks) raws)))
      by (rewrite <- Hc; apply in_map; exact Hin).
    apply in_map_iff in Hm as (raw & <- & _). unfold restored.
    apply strip_idempotent. }
  repeat (split; [assumption|]). split; [|exact E1].
  rewrite Hi. apply make_chunk_id_no_space.
Qed.

Lemma emitted_chunk_fields_witness :
  Forall (fun c =>
            strip (content c) = content c
            /\ source_type c = lit "book"
            /\ book_title c = title (document sample_extracted)
            /\ chunk_id c
               = make_chunk_id (title (document sample_extracted))
                   (chunk_index c)
            /\ contains (lit " ") (chunk_id c) = false
            /\ contextual_prefix c
               = _build_contextual_prefix (book_title c) (chapter c)
                   (section c))
    sample_chunks.
Proof.
  apply (emitted_chunk_fields small_chunker 100 sample_extracted
           sample_chunks).
  reflexivity.
Defined.

(** ** The preprocessor *)

Import Preprocessor.

(** C10: [preprocess_chunk] leaves every object that existed as it was
    (the argument included), and the chunk it returns agrees with the
    argument on [chunk_id], [content], [source_type], [book_title],
    [chapter], [section], [page] and [chunk_index].  When the argument
    already has a prefix the result is the argument itself and nothing
    is allocated; when it has none the prefix of the result is built
    from the argument's own title, chapter, section, page and source
    type. *)
Theorem preprocess_chunk_frame :
  forall (self : ContextualPreprocessor) (h : heap) (r : nat) (c : Chunk),
    nth_error h r = Some c ->
    exists (h' : heap) (r' : nat) (c' : Chunk),
      preprocess_chunk_obj self h r = Some (h', r')
      /\ nth_error h' r' = Some c'
      /\ c' = preprocess_chunk self c
      /\ (forall q, (q < length h)%nat -> nth_error h' q = nth_error h q)
      /\ chunk_id c' = chunk_id c
      /\ content c' = content c
      /\ source_type c' = source_type c
      /\ book_title c' = book_title c
      /\ chapter c' = chapter c
      /\ section c' = section c
      /\ page c' = page c
      /\ chunk_index c' = chunk_index c
      /\ (contextual_prefix c <> [] -> h' = h /\ r' = r /\ c' = c)
      /\ (contextual_prefix c = [] ->
          contextual_prefix c'
          = build_contextual_prefix self (Some (book_title c))
              (chapter c) (section c) (page c) (source_type c)).
Proof.
  intros self h r c Hr.
  unfold preprocess_chunk_obj, preprocess_chunk. rewrite Hr.
  destruct (contextual_prefix c) as [|a p] eqn:Hp; cbn [truthy].
  - exists (h ++ [preprocess_chunk self c]), (length h),
      (preprocess_chunk self c).
    unfold preprocess_chunk. rewrite Hp. cbn [truthy].
    split; [reflexivity|]. split.
    { rewrite nth_error_app2, Nat.sub_diag by lia. reflexivity. }
    split; [reflexivity|]. split.
    { intros q Hq. apply nth_error_app1. exact Hq. }
    repeat (split; [reflexivity|]).
    split; [congruence|]. intros _. reflexivity.
  - exists h, r, c.
    split; [reflexivity|]. split; [exact Hr|].
    split; [reflexivity|]. split; [reflexivity|].
    repeat (split; [reflexivity|]).
    split; [intros _; auto|]. discriminate.
Qed.

Lemma preprocess_chunk_frame_witness :
  exists (h' : heap) (r' : nat) (c' : Chunk),
    preprocess_chunk_obj {| Preprocessor.config := default_config |}
      [bare_chunk] 0 = Some (h', r')
    /\ nth_error h' r' = Some c'
    /\ c' = preprocess_chunk {| Preprocessor.config := default_config |}
              bare_chunk
    /\ (forall q, (q < length [bare_chunk])%nat ->
        nth_error h' q = nth_error [bare_chunk] q)
    /\ chunk_id c' = chunk_id bare_chunk
    /\ content c' = content bare_chunk
    /\ source_type c' = source_type bare_chunk
    /\ book_title c' = book_title bare_chunk
    /\ chapter c' = chapter bare_chunk
    /\ section c' = section bare_chunk
    /\ page c' = page bare_chunk
    /\ chunk_index c' = chunk_index bare_chunk
    /\ (contextual_prefix bare_chunk <> [] ->
        h' = [bare_chunk] /\ r' = O /\ c' = bare_chunk)
    /\ (contextual_prefix bare_chunk = [] ->
        contextual_prefix c'
        = build_contextual_prefix {| Preprocessor.config := default_config |}
            (Some (book_title bare_chunk)) (chapter bare_chunk)
            (section bare_chunk) (page bare_chunk)
            (source_type bare_chunk)).
Proof.
  apply (preprocess_chunk_frame {| Preprocessor.config := default_config |}
           [bare_chunk] 0 bare_chunk).
  reflexivity.
Defined.

(* ================================================================== *)
(** ** More about the preprocessor *)

(** *** The length of the prefix *)

Lemma len_slice_to (s : str) (b : Z) :
  0 <= b -> b <= len s -> len (slice_to s b) = b.
Proof.
  intros Hb Hle. unfold slice_to, adjust, len in *.
  destruct (b <? 0) eqn:E; [apply Z.ltb_lt in E; lia|].
  rewrite length_firstn. lia.
Qed.

(** X15: with [max_context_length >= 3] the prefix
    [build_contextual_prefix] returns is empty, or it is a body of at most
    [max_context_length] characters followed by a newline, the separator
    and a newline. *)
Theorem contextual_prefix_bounded :
  forall (self : ContextualPreprocessor) (source chapter section : option str)
         (page : option Z) (source_type : str),
    3 <= max_context_length (config self) ->
    let prefix :=
      build_contextual_prefix self source chapter section page source_type in
    prefix = []
    \/ exists body,
         prefix = body ++ [nl] ++ separator (config self) ++ [nl]
         /\ len body <= max_context_length (config self).
Proof.
  intros self source chapter section page st Hmax.
  unfold build_contextual_prefix. cbv zeta.
  match goal with
  | |- match ?p with nil => nil | cons _ _ => _ end = [] \/ _ =>
      generalize p
  end.
  intros parts. destruct parts as [|p ps]; [left; reflexivity|right].
  set (prefix := join [nl] (p :: ps)).
  destruct (len prefix >? max_context_length (config self)) eqn:E.
  - exists (slice_to prefix (max_context_length (config self) - 3)
            ++ lit "...").
    split; [reflexivity|].
    rewrite len_app, len_slice_to; [change (len (lit "...")) with 3; lia|lia|].
    apply Z.gtb_lt in E. lia.
  - exists prefix. split; [reflexivity|].
    rewrite Z.gtb_ltb in E. apply Z.ltb_ge in E. exact E.
Qed.

Lemma contextual_prefix_bounded_witness :
  let prefix :=
    build_contextual_prefix {| config := default_config |}
      (Some (repeat "a"%char 300)) (Some (lit "Memory Management"))
      None None (lit "book") in
  prefix = []
  \/ exists body,
       prefix = body ++ [nl] ++ separator default_config ++ [nl]
       /\ len body <= max_context_length default_config.
Proof.
  apply (contextual_prefix_bounded {| config := default_config |}
           (Some (repeat "a"%char 300)) (Some (lit "Memory Management"))
           None None (lit "book")).
  cbn. lia.
Defined.

(** *** The two prefix builders *)

(** X16: the two prefix builders agree.  For a title that is not empty
    and a prefix of at most 205 characters (200 before the separator
    line), [build_contextual_prefix] of the preprocessor, with its default
    configuration and source type ["book"], returns what
    [_build_contextual_prefix] of the chunker returns, whatever the
    page. *)
Theorem prefix_builders_agree :
  forall (book_title : str) (chapter section : option str) (page : option Z),
    book_title <> [] ->
    len (_build_contextual_prefix book_title chapter section) <= 205 ->
    build_contextual_prefix {| config := default_config |} (Some book_title)
      chapter section page (lit "book")
    = _build_contextual_prefix book_title chapter section.
Proof.
  intros t chapter section page Ht Hlen.
  unfold build_contextual_prefix, _build_contextual_prefix in *.
  cbn [config default_config include_source include_chapter include_section
       include_page separator max_context_length andb] in *.
  change (_get_source_label (lit "book")) with (lit "Source").
  destruct t as [|t0 t]; [congruence|]. cbn [truthy].
  assert (Hpage : forall parts : list str,
             match page with
             | Some p => if false then parts ++ [lit "Page: " ++ str_of_int p]
                         else parts
             | None => parts
             end = parts) by (intros; destruct page; reflexivity).
  rewrite Hpage. clear Hpage.
  set (src := lit "Source" ++ lit ": " ++ t0 :: t) in *.
  change (lit "Source: " ++ t0 :: t) with src in *.
  assert (Hfin : forall parts : list str,
             parts <> [] ->
             len (join [nl] (parts ++ [lit "---"]) ++ [nl]) <= 205 ->
             match parts with
             | [] => []
             | _ :: _ =>
                 (if len (join [nl] parts) >? 200
                  then slice_to (join [nl] parts) (200 - 3) ++ lit "..."
                  else join [nl] parts) ++ [nl] ++ lit "---" ++ [nl]
             end = join [nl] (parts ++ [lit "---"]) ++ [nl]).
  { intros parts Hne H.
    assert (Hj : join [nl] (parts ++ [lit "---"])
                 = join [nl] parts ++ [nl] ++ lit "---").
    { clear H. induction parts as [|p ps IH]; [congruence|].
      destruct ps as [|q ps]; [reflexivity|].
      change (join [nl] ((p :: q :: ps) ++ [lit "---"]))
        with (p ++ [nl] ++ join [nl] ((q :: ps) ++ [lit "---"])).
      rewrite IH by discriminate.
      change (join [nl] (p :: q :: ps)) with (p ++ [nl] ++ join [nl] (q :: ps)).
      rewrite <- !app_assoc. reflexivity. }
    rewrite Hj in H |- *. rewrite !len_app in H.
    change (len [nl]) with 1 in H. change (len (lit "---")) with 3 in H.
    destruct parts as [|p ps]; [congruence|].
    replace (len (join [nl] (p :: ps)) >? 200) with false
      by (symmetry; rewrite Z.gtb_ltb; apply Z.ltb_ge; lia).
    rewrite <- !app_assoc. reflexivity. }
  destruct chapter as [[|c0 c]|], section as [[|s0 s]|];
    cbn [truthy app] in *;
    match goal with
    | |- _ = join [nl] [?a; lit "---"] ++ [nl] => apply (Hfin [a])
    | |- _ = join [nl] [?a; ?b; lit "---"] ++ [nl] => apply (Hfin [a; b])
    | |- _ = join [nl] [?a; ?b; ?c; lit "---"] ++ [nl] =>
        apply (Hfin [a; b; c])
    end; try discriminate; exact Hlen.
Qed.

Lemma prefix_builders_agree_witness :
  build_contextual_prefix {| config := default_config |}
    (Some (lit "Windows Internals")) (Some (lit "Memory Management"))
    (Some (lit "VAD Trees")) (Some 123) (lit "book")
  = _build_contextual_prefix (lit "Windows Internals")
      (Some (lit "Memory Management")) (Some (lit "VAD Trees")).
Proof.
  apply (prefix_builders_agree (lit "Windows Internals")
           (Some (lit "Memory Management")) (Some (lit "VAD Trees"))
           (Some 123)); [discriminate|vm_compute; discriminate].
Defined.

(** *** Preprocessing twice, and the text to embed *)

(** X17: [preprocess_chunk] is idempotent, and [get_text_for_embedding]
    returns the prefix of the preprocessed chunk followed by the content:
    the text to embed is the same before and after preprocessing. *)
Theorem preprocess_chunk_idempotent :
  forall (self : ContextualPreprocessor) (chunk : Chunk),
    preprocess_chunk self (preprocess_chunk self chunk)
    = preprocess_chunk self chunk
    /\ get_text_for_embedding self chunk
       = contextual_prefix (preprocess_chunk self chunk) ++ content chunk
    /\ get_text_for_embedding self (preprocess_chunk self chunk)
       = get_text_for_embedding self chunk.
Proof.
  intros self chunk. unfold get_text_for_embedding, preprocess_chunk.
  destruct (truthy (contextual_prefix chunk)) eqn:E.
  - rewrite E. auto.
  - cbn [contextual_prefix content book_title chapter section page
         source_type chunk_id chunk_index].
    destruct (truthy (build_contextual_prefix self (Some (book_title chunk))
                        (chapter chunk) (section chunk) (page chunk)
                        (source_type chunk))) eqn:E'; auto.
Qed.

(** *** Batches *)

Lemma process_batch_loop_spec (chunks : list Chunk) :
  forall (self : BatchPreprocessor) (update_stats : bool)
         (processed : list Chunk),
    let prefixed :=
      len (filter (fun c => truthy (contextual_prefix c)) chunks) in
    process_batch_loop self chunks update_stats processed
    = (processed ++ preprocess_chunks (preprocessor self) chunks,
       if update_stats then
         {| preprocessor := preprocessor self;
            _stats :=
              {| total_processed :=
                   total_processed (_stats self) + len chunks;
                 with_existing_prefix :=
                   with_existing_prefix (_stats self) + prefixed;
                 prefix_added :=
                   prefix_added (_stats self) + (len chunks - prefixed) |} |}
       else self).
Proof.
  induction chunks as [|c chunks IH]; intros self update processed;
    cbn [process_batch_loop preprocess_chunks filter].
  - rewrite app_nil_r. destruct update; [|reflexivity].
    destruct self as [p [a b d]].
    cbn [preprocessor _stats total_processed with_existing_prefix
         prefix_added].
    change (len (@nil Chunk)) with 0. f_equal; f_equal; f_equal; lia.
  - rewrite IH. rewrite <- app_assoc. cbn [app].
    destruct update; [|reflexivity].
    cbn [preprocessor _stats total_processed with_existing_prefix
         prefix_added].
    destruct (truthy (contextual_prefix c));
      unfold len; cbn [length]; f_equal; f_equal; f_equal; lia.
Qed.

(** X18: [process_batch] returns the chunks preprocessed one by one, as
    many as it was given, and keeps its preprocessor.  With [update_stats]
    it adds the number of chunks to [total_processed], the number of those
    that came with a prefix to [with_existing_prefix] and the number of
    the others to [prefix_added], so that [with_existing_prefix +
    prefix_added = total_processed] is kept; without [update_stats] the
    object is left as it was. *)
Theorem process_batch_statistics :
  forall (self : BatchPreprocessor) (chunks : list Chunk),
    let prefixed :=
      len (filter (fun c => truthy (contextual_prefix c)) chunks) in
    let '(processed, self') := process_batch self chunks true in
    processed = preprocess_chunks (preprocessor self) chunks
    /\ len processed = len chunks
    /\ preprocessor self' = preprocessor self
    /\ total_processed (stats self')
       = total_processed (stats self) + len chunks
    /\ with_existing_prefix (stats self')
       = with_existing_prefix (stats self) + prefixed
    /\ prefix_added (stats self')
       = prefix_added (stats self) + (len chunks - prefixed)
    /\ (with_existing_prefix (stats self) + prefix_added (stats self)
        = total_processed (stats self) ->
        with_existing_prefix (stats self') + prefix_added (stats self')
        = total_processed (stats self'))
    /\ process_batch self chunks false = (processed, self).
Proof.
  intros self chunks prefixed. unfold process_batch.
  rewrite !process_batch_loop_spec. cbn [app]. fold prefixed.
  unfold stats. cbn [preprocessor _stats total_processed
    with_existing_prefix prefix_added].
  split; [reflexivity|]. split.
  { unfold len. f_equal. induction chunks as [|c chunks IH]; [reflexivity|].
    cbn [preprocess_chunks length]. rewrite IH. reflexivity. }
  repeat (split; [reflexivity|]). split; [lia|reflexivity].
Qed.

(** *** Chunks of the chunker in the preprocessor *)

Lemma build_contextual_prefix_truthy (book_title : str)
    (chapter section : option str) :
  truthy (_build_contextual_prefix book_title chapter section) = true.
Proof.
  unfold _build_contextual_prefix.
  destruct chapter as [[|c0 c]|], section as [[|s0 s]|]; reflexivity.
Qed.

Lemma preprocess_chunks_prefixed (self : ContextualPreprocessor)
    (chunks : list Chunk) :
  Forall (fun c => truthy (contextual_prefix c) = true) chunks ->
  preprocess_chunks self chunks = chunks
  /\ filter (fun c => truthy (contextual_prefix c)) chunks = chunks.
Proof.
  induction 1 as [|c chunks Hc _ [IH1 IH2]]; [auto|].
  cbn [preprocess_chunks filter]. unfold preprocess_chunk.
  rewrite Hc, IH1, IH2. auto.
Qed.

(** X19: the chunks of [chunk_content] need no preprocessing.  Each
    carries the prefix built from the title of the document and its own
    chapter and section, and the text to embed is that prefix followed by
    the content; [process_batch] returns them unchanged and counts each of
    them in [with_existing_prefix], none in [prefix_added]. *)
Theorem emitted_chunks_need_no_preprocessing :
  forall (chunker : HierarchicalChunker) (fuel : nat)
         (extracted : ExtractedContent) (chunks : list Chunk)
         (batch : BatchPreprocessor),
    chunk_content chunker fuel extracted = Some chunks ->
    Forall (fun c =>
              contextual_prefix c
              = _build_contextual_prefix (title (document extracted))
                  (chapter c) (section c)
              /\ get_text_for_embedding (preprocessor batch) c
                 = contextual_prefix c ++ content c)
      chunks
    /\ fst (process_batch batch chunks true) = chunks
    /\ prefix_added (stats (snd (process_batch batch chunks true)))
       = prefix_added (stats batch)
    /\ with_existing_prefix (stats (snd (process_batch batch chunks true)))
       = with_existing_prefix (stats batch) + len chunks.
Proof.
  intros chunker fuel extracted chunks batch H.
  apply chunk_content_emits in H as (raws & blocks & _ & ->).
  pose proof (emit_chunks_prefixed chunker extracted blocks raws 0 None None)
    as Hp.
  set (chunks := emit_chunks chunker extracted blocks raws 0 None None) in *.
  assert (Ht : Forall (fun c => truthy (contextual_prefix c) = true) chunks).
  { eapply Forall_impl; [|exact Hp]. cbn beta. intros c (-> & _ & _).
    apply build_contextual_prefix_truthy. }
  split.
  { rewrite Forall_forall in Hp, Ht. apply Forall_forall. intros c Hin.
    destruct (Hp c Hin) as (E & Et & _). split; [rewrite E, Et; reflexivity|].
    unfold get_text_for_embedding. rewrite (Ht c Hin). reflexivity. }
  destruct (preprocess_chunks_prefixed (preprocessor batch) chunks Ht)
    as [E1 E2].
  unfold process_batch. rewrite process_batch_loop_spec.
  cbn [fst snd app]. unfold stats.
  cbn [_stats prefix_added with_existing_prefix]. rewrite E1, E2.
  split; [reflexivity|]. split; [lia|reflexivity].
Qed.

Lemma emitted_chunks_need_no_preprocessing_witness :
  Forall (fun c =>
            contextual_prefix c
            = _build_contextual_prefix (title (document sample_extracted))
                (chapter c) (section c)
            /\ get_text_for_embedding
                 (preprocessor get_batch_preprocessor) c
               = contextual_prefix c ++ content c)
    sample_chunks
  /\ fst (process_batch get_batch_preprocessor sample_chunks true)
     = sample_chunks
  /\ prefix_added
       (stats (snd (process_batch get_batch_preprocessor sample_chunks true)))
     = prefix_added (stats get_batch_preprocessor)
  /\ with_existing_prefix
       (stats (snd (process_batch get_batch_preprocessor sample_chunks true)))
     = with_existing_prefix (stats get_batch_preprocessor)
       + len sample_chunks.
Proof.
  apply (emitted_chunks_need_no_preprocessing small_chunker 100
           sample_extracted sample_chunks get_batch_preprocessor).
  reflexivity.
Defined.

(* ================================================================== *)
(** ** The PDF extractors *)

(** *** Page markers by character count *)

Lemma item_set_fresh (d : list (Z * Z)) (k v : Z) :
  Forall (fun e => fst e < k) d -> item_set d k v = d ++ [(k, v)].
Proof.
  induction 1 as [|[k' v'] d Hk _ IH]; cbn [item_set app]; [reflexivity|].
  cbn [fst] in Hk.
  replace (k =? k') with false by (symmetry; apply Z.eqb_neq; lia).
  rewrite IH. reflexivity.
Qed.

Lemma number_from_keys (positions : list Z) :
  forall page, Forall (fun e => page <= fst e) (number_from page positions).
Proof.
  induction positions as [|pos rest IH]; intros page; cbn [number_from];
    constructor; [cbn [fst]; lia|].
  eapply Forall_impl; [|apply (IH (page + 1))]. cbn beta. intros e H. lia.
Qed.

Lemma markers_loop_numbers (positions : list Z) :
  forall page markers,
    Forall (fun e => fst e < page) markers ->
    PdfExtractor.markers_loop positions page markers
    = markers ++ number_from page positions.
Proof.
  induction positions as [|pos rest IH]; intros page markers Hm;
    cbn [PdfExtractor.markers_loop number_from];
    [rewrite app_nil_r; reflexivity|].
  rewrite item_set_fresh by exact Hm. rewrite IH.
  - rewrite <- app_assoc. reflexivity.
  - apply Forall_app. split.
    + eapply Forall_impl; [|exact Hm]. cbn beta. intros e H. lia.
    + constructor; [cbn [fst]; lia|constructor].
Qed.

Lemma sorted_number_from (positions : list Z) :
  forall page, sorted (number_from page positions) = number_from page positions.
Proof.
  induction positions as [|pos rest IH]; intros page; cbn [number_from sorted];
    [reflexivity|].
  rewrite IH. pose proof (number_from_keys rest (page + 1)) as Hk.
  destruct (number_from (page + 1) rest) as [|[k v] l]; [reflexivity|].
  inversion Hk; subst. cbn [fst] in *. cbn [insert_item].
  unfold item_leb. cbn [fst snd].
  replace (page <? k) with true by (symmetry; apply Z.ltb_lt; lia).
  reflexivity.
Qed.

Lemma estimate_loop_range_up (position stop step : Z) (fuel : nat) :
  0 < step ->
  forall pos page current_page,
    (Z.to_nat (stop - pos) <= fuel)%nat ->
    estimate_loop position
      (number_from page (range_up fuel pos stop step)) current_page
    = if (position <? pos) || (stop <=? pos) then current_page
      else page + (Z.min position (stop - 1) - pos) / step.
Proof.
  intros Hstep. induction fuel as [|fuel IH]; intros pos page cur Hfuel.
  - cbn [range_up number_from estimate_loop].
    replace (stop <=? pos) with true by (symmetry; apply Z.leb_le; lia).
    rewrite orb_true_r. reflexivity.
  - cbn [range_up]. destruct (Z.ltb_spec pos stop) as [Hlt|Hge].
    + cbn [number_from estimate_loop].
      replace (stop <=? pos) with false by (symmetry; apply Z.leb_gt; lia).
      rewrite orb_false_r. rewrite Z.geb_leb.
      destruct (Z.leb_spec pos position) as [Hle|Hgt].
      * replace (position <? pos) with false
          by (symmetry; apply Z.ltb_ge; lia).
        rewrite IH by lia.
        destruct (Z.ltb_spec position (pos + step)) as [H1|H1];
          cbn [orb].
        -- rewrite Z.div_small by lia. lia.
        -- destruct (Z.leb_spec stop (pos + step)) as [H2|H2].
           ++ rewrite Z.div_small by lia. lia.
           ++ replace (Z.min position (stop - 1) - pos)
                with (Z.min position (stop - 1) - (pos + step) + 1 * step)
                by lia.
              rewrite Z.div_add by lia. lia.
      * replace (position <? pos) with true
          by (symmetry; apply Z.ltb_lt; lia).
        reflexivity.
    + cbn [number_from estimate_loop].
      replace (stop <=? pos) with true by (symmetry; apply Z.leb_le; lia).
      rewrite orb_true_r. reflexivity.
Qed.

Lemma len_range_up (stop step : Z) (fuel : nat) :
  0 < step ->
  forall pos,
    (Z.to_nat (stop - pos) <= fuel)%nat ->
    len (range_up fuel pos stop step)
    = Z.max 0 ((stop - pos + step - 1) / step).
Proof.
  intros Hstep. induction fuel as [|fuel IH]; intros pos Hfuel.
  - cbn [range_up]. unfold len. cbn [length].
    assert ((stop - pos + step - 1) / step <= 0); [|lia].
    destruct (Z.eq_dec pos stop) as [->|Hne].
    + rewrite Z.div_small by lia. lia.
    + assert ((stop - pos + step - 1) / step < 1); [|lia].
      apply Z.div_lt_upper_bound; lia.
  - cbn [range_up]. destruct (Z.ltb_spec pos stop) as [Hlt|Hge].
    + unfold len in *. cbn [length]. rewrite Nat2Z.inj_succ, IH by lia.
      replace (stop - pos + step - 1)
        with (stop - (pos + step) + step - 1 + 1 * step) by lia.
      rewrite Z.div_add by lia.
      assert (0 <= (stop - (pos + step) + step - 1) / step)
        by (apply Z.div_pos; lia).
      lia.
    + unfold len. cbn [length].
      assert ((stop - pos + step - 1) / step < 1); [|lia].
      apply Z.div_lt_upper_bound; lia.
Qed.

Lemma len_number_from (positions : list Z) :
  forall page, len (number_from page positions) = len positions.
Proof.
  induction positions as [|pos rest IH]; intros page; [reflexivity|].
  cbn [number_from]. unfold len in *. cbn [length].
  rewrite !Nat2Z.inj_succ, IH. reflexivity.
Qed.

Lemma estimate_page_markers_spec (content : str) (chars_per_page : Z) :
  0 < chars_per_page ->
  PdfExtractor._estimate_page_markers content chars_per_page
  = Returned
      (number_from 1
         (range_up (length content) 0 (len content) chars_per_page)).
Proof.
  intros Hc. unfold PdfExtractor._estimate_page_markers, range.
  replace (chars_per_page =? 0) with false
    by (symmetry; apply Z.eqb_neq; lia).
  replace (0 <? chars_per_page) with true by (symmetry; apply Z.ltb_lt; lia).
  rewrite markers_loop_numbers by constructor. cbn [app].
  rewrite Z.sub_0_r. unfold len. rewrite Nat2Z.id. reflexivity.
Qed.

Lemma estimated_page_markers_lemma (content : str) (chars_per_page : Z) :
    0 < chars_per_page ->
    exists markers,
      PdfExtractor._estimate_page_markers content chars_per_page
      = Returned markers
      /\ len markers = (len content + chars_per_page - 1) / chars_per_page
      /\ (content = [] -> markers = [])
      /\ (content <> [] -> forall position,
          _estimate_page position markers
          = Some (Z.max 0 (Z.min position (len content - 1))
                  / chars_per_page + 1)).
Proof.
  intros Hc. rename chars_per_page into cpp.
  rewrite estimate_page_markers_spec by exact Hc.
  eexists. split; [reflexivity|].
  pose proof (len_nonneg content) as Hn.
  split.
  { rewrite len_number_from, len_range_up; [|exact Hc|unfold len; lia].
    rewrite Z.sub_0_r.
    assert (0 <= (len content + cpp - 1) / cpp) by (apply Z.div_pos; lia).
    lia. }
  split; [intros ->; reflexivity|].
  intros Hne position.
  assert (Hpos : 0 < len content)
    by (destruct content; [congruence|unfold len; cbn [length]; lia]).
  unfold _estimate_page.
  destruct (number_from 1 (range_up (length content) 0 (len content) cpp))
    as [|m ms] eqn:E.
  { exfalso. destruct content as [|a rest]; [congruence|].
    cbn [range_up length] in E.
    replace (0 <? len (a :: rest)) with true in E
      by (symmetry; apply Z.ltb_lt; lia).
    discriminate E. }
  rewrite <- E, sorted_number_from.
  rewrite estimate_loop_range_up; [|exact Hc|unfold len; lia].
  replace (len content <=? 0) with false by (symmetry; apply Z.leb_gt; lia).
  rewrite orb_false_r. rewrite Z.sub_0_r.
  destruct (Z.ltb_spec position 0) as [Hneg|Hnn].
  - replace (Z.max 0 (Z.min position (len content - 1))) with 0 by lia.
    rewrite Z.div_0_l by lia. reflexivity.
  - replace (Z.max 0 (Z.min position (len content - 1)))
      with (Z.min position (len content - 1)) by lia.
    f_equal. lia.
Qed.


(** X20: the page markers [_estimate_page_markers] makes, read by
    [_estimate_page].  For [chars_per_page > 0] there are
    [ceil(len(content) / chars_per_page)] markers, none for an empty
    content; for a content that is not empty the page of a position is
    [position // chars_per_page + 1], the position being first brought
    between 0 and the last character. *)
Theorem estimated_page_markers :
  forall (content : str) (chars_per_page position : Z),
    0 < chars_per_page ->
    exists markers,
      PdfExtractor._estimate_page_markers content chars_per_page
      = Returned markers
      /\ len markers = (len content + chars_per_page - 1) / chars_per_page
      /\ (content = [] -> markers = [])
      /\ (content <> [] ->
          _estimate_page position markers
          = Some (Z.max 0 (Z.min position (len content - 1))
                  / chars_per_page + 1)).
Proof.
  intros content cpp position Hc.
  destruct (estimated_page_markers_lemma content cpp Hc)
    as (markers & E & Hlen & Hnil & Hpage).
  exists markers. repeat (split; [assumption|]).
  intros Hne. apply Hpage. exact Hne.
Qed.

Lemma estimated_page_markers_witness :
  exists markers,
    PdfExtractor._estimate_page_markers (repeat "x"%char 25) 10
    = Returned markers
    /\ len markers = (len (repeat "x"%char 25) + 10 - 1) / 10
    /\ (repeat "x"%char 25 = [] -> markers = [])
    /\ (repeat "x"%char 25 <> [] ->
        _estimate_page 17 markers
        = Some (Z.max 0 (Z.min 17 (len (repeat "x"%char 25) - 1)) / 10 + 1)).
Proof.
  apply (estimated_page_markers (repeat "x"%char 25) 10 17). lia.
Defined.

(** *** The pages of a document extracted with marker *)

Lemma emit_chunks_page (self : HierarchicalChunker)
    (extracted : ExtractedContent) (blocks : dict) (raws : list str) :
  forall idx ch sec,
    Forall (fun c => exists position,
                page c = _estimate_page position (page_markers extracted))
      (emit_chunks self extracted blocks raws idx ch sec).
Proof.
  induction raws as [|raw raws IH]; intros idx ch sec; cbn [emit_chunks];
    [constructor|].
  destruct (len (strip (_restore_content raw blocks))
            <? min_chunk_size_chars (Chunker.config self)); [apply IH|].
  constructor; [|apply IH]. cbn [page]. eexists. reflexivity.
Qed.

Lemma chunk_content_empty (self : HierarchicalChunker) (fuel : nat)
    (extracted : ExtractedContent) (chunks : list Chunk) :
  markdown_content extracted = [] ->
  chunk_content self fuel extracted = Some chunks -> chunks = [].
Proof.
  intros E H. unfold chunk_content, raw_chunks_of in H. rewrite E in H.
  destruct fuel as [|fuel]; [discriminate H|].
  cbn in H. congruence.
Qed.

(** X21: a document extracted with marker.  [MarkerPDFExtractor.extract]
    returns, from the converted markdown on, a document of
    [ceil(len(markdown) / 3000)] pages, and every chunk [chunk_content]
    emits for it has a page between 1 and [total_pages]. *)
Theorem marker_extracted_pages :
  forall (stem path markdown : str),
    exists extracted,
      PdfExtractor.MarkerPDFExtractor_extract stem path markdown
      = Returned extracted
      /\ markdown_content extracted = markdown
      /\ total_pages (document extracted) = (len markdown + 2999) / 3000
      /\ forall (self : HierarchicalChunker) (fuel : nat)
                (chunks : list Chunk),
           chunk_content self fuel extracted = Some chunks ->
           Forall (fun c => exists p,
                       page c = Some p
                       /\ 1 <= p <= total_pages (document extracted))
             chunks.
Proof.
  intros stem path markdown.
  unfold PdfExtractor.MarkerPDFExtractor_extract.
  destruct (estimated_page_markers_lemma markdown 3000 ltac:(lia))
    as (markers & -> & Hlen & Hnil & Hpage).
  eexists. split; [reflexivity|]. cbn [markdown_content document total_pages].
  replace (len markdown + 3000 - 1) with (len markdown + 2999) in Hlen
    by lia.
  split; [reflexivity|]. split; [exact Hlen|].
  intros self fuel chunks H.
  destruct markdown as [|a rest].
  { apply chunk_content_empty in H; [|reflexivity]. subst. constructor. }
  apply chunk_content_emits in H as (raws & blocks & _ & ->).
  eapply Forall_impl; [|apply emit_chunks_page].
  cbn beta. intros c [position Hc]. cbn [page_markers] in Hc.
  rewrite Hpage in Hc by discriminate.
  eexists. split; [exact Hc|]. rewrite Hlen.
  pose proof (len_nonneg rest) as Hn.
  assert (Hl : len (a :: rest) = len rest + 1)
    by (unfold len; cbn [length]; lia).
  rewrite Hl in *.
  replace (len rest + 1 + 2999) with (len rest + 1 * 3000) by lia.
  rewrite Z.div_add by lia.
  assert (0 <= Z.max 0 (Z.min position (len rest + 1 - 1)) / 3000)
    by (apply Z.div_pos; lia).
  assert (Z.max 0 (Z.min position (len rest + 1 - 1)) / 3000
          <= len rest / 3000) by (apply Z.div_le_mono; lia).
  lia.
Qed.

(** *** Chapter titles *)

Lemma title_span_title (s : str) :
  option_map fst (PdfExtractor.title_span s) = header_title s.
Proof.
  unfold PdfExtractor.title_span, header_title.
  destruct (line_rest s); reflexivity.
Qed.

Lemma tail_span_tail (s : str) :
  option_map fst (PdfExtractor.tail_span s) = header_tail s.
Proof.
  induction s as [|c s IH]; [reflexivity|].
  cbn [PdfExtractor.tail_span header_tail].
  destruct (isspace c); [|apply title_span_title].
  rewrite <- IH.
  destruct (PdfExtractor.tail_span s) as [[g n]|]; cbn [option_map fst];
    [reflexivity|apply title_span_title].
Qed.

Lemma header_span_at (hashes s : str) :
  option_map fst (PdfExtractor.header_span hashes s) = header_at hashes s.
Proof.
  unfold PdfExtractor.header_span, header_at.
  destruct (startswith hashes s); [|reflexivity].
  destruct (skipn (length hashes) s) as [|c s']; [reflexivity|].
  destruct (isspace c); [|reflexivity].
  rewrite <- tail_span_tail.
  destruct (PdfExtractor.tail_span s') as [[g n]|]; reflexivity.
Qed.

(** The first match of [finditer] is the match of [search]. *)
Lemma finditer_header_first (hashes s : str) :
  forall bol,
    hd_error (PdfExtractor.finditer_header hashes s bol O)
    = search_header hashes s bol.
Proof.
  induction s as [|c s IH]; intros bol.
  - cbn [PdfExtractor.finditer_header search_header hd_error].
    destruct bol; [|reflexivity].
    unfold header_at. destruct (startswith hashes []); [|reflexivity].
    destruct (skipn (length hashes) []) eqn:E; [reflexivity|].
    destruct (length hashes); discriminate E.
  - cbn [PdfExtractor.finditer_header search_header].
    destruct bol.
    + rewrite <- header_span_at.
      destruct (PdfExtractor.header_span hashes (c :: s)) as [[g n]|];
        cbn [option_map fst hd_error]; [reflexivity|apply IH].
    + apply IH.
Qed.

Lemma chapters_loop_spec (groups : list str) :
  forall chapters,
    PdfExtractor.chapters_loop groups chapters
    = chapters ++ filter (fun t => len t <? 100) (map strip groups).
Proof.
  induction groups as [|g groups IH]; intros chapters;
    cbn [PdfExtractor.chapters_loop map filter];
    [rewrite app_nil_r; reflexivity|].
  rewrite IH. destruct (len (strip g) <? 100); [|reflexivity].
  rewrite <- app_assoc. reflexivity.
Qed.

(** X22: [_detect_chapters] returns at most 50 titles, each shorter than
    100 characters.  It agrees with the chapter [_extract_metadata] finds
    in the same text: it returns no title when there is no chapter, its
    first title is that chapter when the chapter is shorter than 100
    characters, and it does not list a chapter of 100 characters or
    more. *)
Theorem detected_chapters :
  forall content : str,
    let chapters := PdfExtractor._detect_chapters content in
    len chapters <= 50
    /\ Forall (fun t => len t < 100) chapters
    /\ (md_chapter (_extract_metadata content) = None -> chapters = [])
    /\ (forall t,
          md_chapter (_extract_metadata content) = Some t ->
          len t < 100 -> hd_error chapters = Some t)
    /\ (forall t,
          md_chapter (_extract_metadata content) = Some t ->
          100 <= len t -> ~ In t (PdfExtractor._detect_chapters content)).
Proof.
  intros content chapters. subst chapters.
  unfold PdfExtractor._detect_chapters. rewrite chapters_loop_spec.
  cbn [app]. unfold _extract_metadata. cbn [md_chapter].
  rewrite <- finditer_header_first.
  set (groups := PdfExtractor.finditer_header (lit "#") content true O).
  assert (Hall : Forall (fun t => len t < 100)
                   (filter (fun t => len t <? 100) (map strip groups))).
  { apply Forall_forall. intros t Ht. apply filter_In in Ht as [_ Ht].
    apply Z.ltb_lt. exact Ht. }
  split.
  { unfold len. rewrite length_firstn. lia. }
  split.
  { apply Forall_forall. intros t Ht. rewrite Forall_forall in Hall.
    apply Hall. rewrite <- (firstn_skipn 50 (filter _ _)).
    apply in_or_app. left. exact Ht. }
  split.
  { destruct groups; [reflexivity|discriminate]. }
  split.
  { intros t Ht Hlen. destruct groups as [|g groups]; [discriminate Ht|].
    cbn [hd_error option_map] in Ht. injection Ht as Ht.
    cbn [map filter]. rewrite Ht.
    replace (len t <? 100) with true by (symmetry; apply Z.ltb_lt; lia).
    reflexivity. }
  intros t _ Hlen Hin.
  assert (Hin' : In t (filter (fun t => len t <? 100) (map strip groups))).
  { rewrite <- (firstn_skipn 50 (filter _ _)). apply in_or_app. left.
    exact Hin. }
  rewrite Forall_forall in Hall. apply Hall in Hin'. lia.
Qed.

(** *** The quality of an extraction *)

#[local] Set Warnings "-inexact-float".

Lemma quality_of_findings_range (a b c : bool) :
  PrimFloat.leb 0.5%float (quality_of_findings a b c) = true
  /\ PrimFloat.leb (quality_of_findings a b c) 1%float = true
  /\ PdfExtractor.min_one (quality_of_findings a b c)
     = quality_of_findings a b c.
Proof. destruct a, b, c; vm_compute; auto. Qed.

(** X23: [extract_with_quality], for any classification of the
    exceptions.  It returns the result of the primary extractor, named
    ["marker-pdf"], or, when that one raises an [Exception], the result of
    the fallback, named ["PyMuPDF"].  It raises what the primary raises
    when that is no [Exception] ([KeyboardInterrupt], [SystemExit]: the
    fallback is not tried), and what the fallback raises when both raise;
    the object is then left as it was.  The quality score depends only on
    whether chapters, code fences and table separators were found, never
    on the length of the text ([min(score, 1.0)] changes nothing), and lies
    between 0.5 and 1.0; [code_blocks_found] is [count("```") // 2] and
    [tables_found] is [count("|---|")]. *)
Theorem extraction_quality :
  forall (is_exception : str -> bool)
         (self : PdfExtractor.HybridPDFExtractor)
         (primary fallback : outcome ExtractedContent),
    match PdfExtractor.extract_with_quality is_exception self primary
            fallback with
    | (Returned r, self') =>
        let text := markdown_content (PdfExtractor.content r) in
        (primary = Returned (PdfExtractor.content r)
         /\ PdfExtractor.extractor_used r = lit "marker-pdf"
         \/ (exists e, primary = Raised e /\ is_exception e = true)
            /\ fallback = Returned (PdfExtractor.content r)
            /\ PdfExtractor.extractor_used r = lit "PyMuPDF")
        /\ PdfExtractor._last_extractor_used self'
           = PdfExtractor.extractor_used r
        /\ PdfExtractor.quality_score r
           = quality_of_findings
               (len (chapters (document (PdfExtractor.content r))) >? 0)
               (count (lit "```") text >? 0)
               (count (lit "|---|") text >? 0)
        /\ PrimFloat.leb 0.5%float (PdfExtractor.quality_score r) = true
        /\ PrimFloat.leb (PdfExtractor.quality_score r) 1%float = true
        /\ PdfExtractor.code_blocks_found r = count (lit "```") text / 2
        /\ PdfExtractor.tables_found r = count (lit "|---|") text
    | (Raised e, self') =>
        self' = self
        /\ (primary = Raised e /\ is_exception e = false
            \/ (exists e', primary = Raised e' /\ is_exception e' = true)
               /\ fallback = Raised e)
    end.
Proof.
  intros is_exception self primary fallback.
  unfold PdfExtractor.extract_with_quality,
    PdfExtractor.HybridPDFExtractor_extract.
  assert (Hq : forall (c : ExtractedContent) (used : str),
             let text := markdown_content c in
             let r :=
               {| PdfExtractor.content := c;
                  PdfExtractor.extractor_used := used;
                  PdfExtractor.code_blocks_found :=
                    count (lit "```") text / 2;
                  PdfExtractor.tables_found := count (lit "|---|") text;
                  PdfExtractor.quality_score :=
                    if len text >? 10000
                    then PdfExtractor.min_one
                           (quality_of_findings
                              (len (chapters (document c)) >? 0)
                              (count (lit "```") text >? 0)
                              (count (lit "|---|") text >? 0))
                    else quality_of_findings
                           (len (chapters (document c)) >? 0)
                           (count (lit "```") text >? 0)
                           (count (lit "|---|") text >? 0) |} in
             PdfExtractor.quality_score r
             = quality_of_findings
                 (len (chapters (document c)) >? 0)
                 (count (lit "```") text >? 0)
                 (count (lit "|---|") text >? 0)
             /\ PrimFloat.leb 0.5%float (PdfExtractor.quality_score r) = true
             /\ PrimFloat.leb (PdfExtractor.quality_score r) 1%float = true
             /\ PdfExtractor.code_blocks_found r
                = count (lit "```") text / 2
             /\ PdfExtractor.tables_found r = count (lit "|---|") text).
  { intros c used text r. subst r.
    cbn [PdfExtractor.quality_score PdfExtractor.code_blocks_found
         PdfExtractor.tables_found].
    destruct (quality_of_findings_range
                (len (chapters (document c)) >? 0)
                (count (lit "```") text >? 0)
                (count (lit "|---|") text >? 0)) as (H1 & H2 & H3).
    assert (E : (if len text >? 10000
                 then PdfExtractor.min_one
                        (quality_of_findings
                           (len (chapters (document c)) >? 0)
                           (count (lit "```") text >? 0)
                           (count (lit "|---|") text >? 0))
                 else quality_of_findings
                        (len (chapters (document c)) >? 0)
                        (count (lit "```") text >? 0)
                        (count (lit "|---|") text >? 0))
                = quality_of_findings
                    (len (chapters (document c)) >? 0)
                    (count (lit "```") text >? 0)
                    (count (lit "|---|") text >? 0))
      by (destruct (len text >? 10000); [exact H3|reflexivity]).
    rewrite E. split; [reflexivity|]. split; [exact H1|]. split; [exact H2|].
    split; reflexivity. }
  destruct primary as [c|e].
  - cbn [PdfExtractor._last_extractor_used PdfExtractor.content
         PdfExtractor.extractor_used].
    split; [left; split; reflexivity|]. split; [reflexivity|].
    apply (Hq c (lit "marker-pdf")).
  - destruct (is_exception e) eqn:Ee.
    + destruct fallback as [c|e'].
      * cbn [PdfExtractor._last_extractor_used PdfExtractor.content
             PdfExtractor.extractor_used].
        split; [right; split; [exists e; auto|split; reflexivity]|].
        split; [reflexivity|]. apply (Hq c (lit "PyMuPDF")).
      * split; [reflexivity|]. right. split; [exists e; auto|reflexivity].
    + split; [reflexivity|]. left. auto.
Qed.
